(** * The HTTP-bridge WebSocket polyfill (cmd/webclient/polyfill.js)

    A shallow embedding of [createHttpBridgeWebSocket]: the frame codec, the
    connection state machine, the outbound send queue and the inbound poll
    loop, then the same operations with listeners that call the socket while
    an event is delivered, the listener registry with [emit] and the routing
    of the replaced constructor, followed by the properties of the
    specification and by further properties of the code.

    JavaScript runs the socket on one thread.  Every [async] arrow function of
    the source runs synchronously up to its first [await]; what follows the
    [await] runs in a later turn, when the awaited promise settles.  A turn is
    modelled by one [Input]: either a call of the application ([send], [close],
    the [binaryType] setter) or the settlement of a request that an activity of
    the socket awaits.  The closure variables of the source are the fields of
    [State]; the continuation of each suspended activity is a field too.

    Where an activity awaits a response and then its body ([await fetch(...)],
    [await response.json()]) and touches nothing in between, the two
    settlements are one input: what other activities do between them they
    could as well do before the first. *)

From Stdlib.Strings Require Import String Ascii Byte.
From Stdlib Require Import List Bool Arith NArith ZArith Lia.
Import ListNotations.

(** ** JavaScript strings and bytes *)

(** A JavaScript string is a sequence of UTF-16 code units. *)
Definition jsstring := list N.

Fixpoint lit (s : string) : jsstring :=
  match s with
  | EmptyString => []
  | String a r => N_of_ascii a :: lit r
  end.

Fixpoint jsstring_eqb (a b : jsstring) : bool :=
  match a, b with
  | [], [] => true
  | x :: a', y :: b' => N.eqb x y && jsstring_eqb a' b'
  | _, _ => false
  end.

Fixpoint uint_units (d : Decimal.uint) : jsstring :=
  match d with
  | Decimal.Nil => []
  | Decimal.D0 r => 48%N :: uint_units r
  | Decimal.D1 r => 49%N :: uint_units r
  | Decimal.D2 r => 50%N :: uint_units r
  | Decimal.D3 r => 51%N :: uint_units r
  | Decimal.D4 r => 52%N :: uint_units r
  | Decimal.D5 r => 53%N :: uint_units r
  | Decimal.D6 r => 54%N :: uint_units r
  | Decimal.D7 r => 55%N :: uint_units r
  | Decimal.D8 r => 56%N :: uint_units r
  | Decimal.D9 r => 57%N :: uint_units r
  end.

(** The text of a number inside a template literal, [`${n}`]. *)
Definition decimal (n : N) : jsstring := uint_units (N.to_uint n).

(** Storing a number into a [Uint8Array] keeps it modulo 2^8. *)
Definition u8 (n : N) : byte :=
  match Byte.of_N (n mod 256) with
  | Some b => b
  | None => x00
  end.

Module Codec.

Local Open Scope N_scope.

(** *** [TextEncoder.prototype.encode]: UTF-16 code units to UTF-8 bytes.
    A surrogate that has no partner is encoded as U+FFFD. *)

Definition is_high (c : N) : bool := (0xD800 <=? c) && (c <=? 0xDBFF).
Definition is_low (c : N) : bool := (0xDC00 <=? c) && (c <=? 0xDFFF).

Fixpoint code_points (s : jsstring) : list N :=
  match s with
  | [] => []
  | c :: r =>
      if is_high c then
        match r with
        | d :: r' =>
            if is_low d
            then (0x10000 + (c - 0xD800) * 0x400 + (d - 0xDC00)) :: code_points r'
            else 0xFFFD :: code_points r
        | [] => [0xFFFD]
        end
      else if is_low c then 0xFFFD :: code_points r
      else c :: code_points r
  end.

Definition utf8_of_code_point (cp : N) : list byte :=
  if cp <? 0x80 then [u8 cp]
  else if cp <? 0x800 then
    [u8 (N.lor 0xC0 (N.shiftr cp 6)); u8 (N.lor 0x80 (N.land cp 0x3F))]
  else if cp <? 0x10000 then
    [u8 (N.lor 0xE0 (N.shiftr cp 12));
     u8 (N.lor 0x80 (N.land (N.shiftr cp 6) 0x3F));
     u8 (N.lor 0x80 (N.land cp 0x3F))]
  else
    [u8 (N.lor 0xF0 (N.shiftr cp 18));
     u8 (N.lor 0x80 (N.land (N.shiftr cp 12) 0x3F));
     u8 (N.lor 0x80 (N.land (N.shiftr cp 6) 0x3F));
     u8 (N.lor 0x80 (N.land cp 0x3F))].

Definition textEncoder_encode (s : jsstring) : list byte :=
  flat_map utf8_of_code_point (code_points s).

(** *** [TextDecoder('utf-8').decode]: UTF-8 bytes to UTF-16 code units, a
    malformed sequence decoded as U+FFFD and a leading byte order mark
    dropped. *)

Record Utf8State := {
  u_cp : N;          (* code point being assembled *)
  u_needed : nat;    (* continuation bytes still expected *)
  u_lower : N;
  u_upper : N
}.

Definition utf8_idle : Utf8State :=
  {| u_cp := 0; u_needed := 0; u_lower := 0x80; u_upper := 0xBF |}.

(** A byte read when no sequence is open. *)
Definition utf8_lead (b : N) : list N * Utf8State :=
  if b <=? 0x7F then ([b], utf8_idle)
  else if (0xC2 <=? b) && (b <=? 0xDF) then
    ([], {| u_cp := N.land b 0x1F; u_needed := 1; u_lower := 0x80; u_upper := 0xBF |})
  else if (0xE0 <=? b) && (b <=? 0xEF) then
    ([], {| u_cp := N.land b 0xF; u_needed := 2;
            u_lower := if b =? 0xE0 then 0xA0 else 0x80;
            u_upper := if b =? 0xED then 0x9F else 0xBF |})
  else if (0xF0 <=? b) && (b <=? 0xF4) then
    ([], {| u_cp := N.land b 0x7; u_needed := 3;
            u_lower := if b =? 0xF0 then 0x90 else 0x80;
            u_upper := if b =? 0xF4 then 0x8F else 0xBF |})
  else ([0xFFFD], utf8_idle).

Definition utf8_byte (st : Utf8State) (b : N) : list N * Utf8State :=
  match u_needed st with
  | O => utf8_lead b
  | S k =>
      if (u_lower st <=? b) && (b <=? u_upper st) then
        let cp := N.lor (N.shiftl (u_cp st) 6) (N.land b 0x3F) in
        match k with
        | O => ([cp], utf8_idle)
        | S _ => ([], {| u_cp := cp; u_needed := k; u_lower := 0x80; u_upper := 0xBF |})
        end
      else
        (* the sequence is broken off: U+FFFD, and the byte is read again *)
        let '(out, st') := utf8_lead b in (0xFFFD :: out, st')
  end.

Fixpoint utf8_decode_from (st : Utf8State) (bytes : list byte) : list N :=
  match bytes with
  | [] => match u_needed st with O => [] | S _ => [0xFFFD] end
  | b :: r =>
      let '(out, st') := utf8_byte st (Byte.to_N b) in
      out ++ utf8_decode_from st' r
  end.

Definition utf16_of_code_point (cp : N) : jsstring :=
  if cp <? 0x10000 then [cp]
  else [0xD800 + N.shiftr (cp - 0x10000) 10; 0xDC00 + N.land (cp - 0x10000) 0x3FF].

Definition textDecoder_decode (bytes : list byte) : jsstring :=
  let cps := utf8_decode_from utf8_idle bytes in
  let cps := match cps with
             | c :: r => if c =? 0xFEFF then r else cps
             | [] => cps
             end in
  flat_map utf16_of_code_point cps.

(** *** [btoa]: a string of code units below 256 to radix-64 text. *)

Definition b64_char (v : N) : N :=
  if v <? 26 then 65 + v            (* A-Z *)
  else if v <? 52 then 97 + (v - 26)  (* a-z *)
  else if v <? 62 then 48 + (v - 52)  (* 0-9 *)
  else if v =? 62 then 43             (* + *)
  else 47.                            (* / *)

Definition b64_pad : N := 61.         (* = *)

Fixpoint btoa_units (s : jsstring) : jsstring :=
  match s with
  | [] => []
  | [a] =>
      [b64_char (N.shiftr a 2); b64_char (N.shiftl (N.land a 3) 4); b64_pad; b64_pad]
  | [a; b] =>
      [b64_char (N.shiftr a 2);
       b64_char (N.lor (N.shiftl (N.land a 3) 4) (N.shiftr b 4));
       b64_char (N.shiftl (N.land b 15) 2); b64_pad]
  | a :: b :: c :: r =>
      b64_char (N.shiftr a 2)
      :: b64_char (N.lor (N.shiftl (N.land a 3) 4) (N.shiftr b 4))
      :: b64_char (N.lor (N.shiftl (N.land b 15) 2) (N.shiftr c 6))
      :: b64_char (N.land c 63)
      :: btoa_units r
  end.

(** [None] is the InvalidCharacterError that [btoa] throws. *)
Definition btoa (s : jsstring) : option jsstring :=
  if forallb (fun c => c <=? 255) s then Some (btoa_units s) else None.

(** *** [atob]: forgiving radix-64 decoding. *)

Definition b64_value (c : N) : option N :=
  if (65 <=? c) && (c <=? 90) then Some (c - 65)
  else if (97 <=? c) && (c <=? 122) then Some (c - 97 + 26)
  else if (48 <=? c) && (c <=? 57) then Some (c - 48 + 52)
  else if c =? 43 then Some 62
  else if c =? 47 then Some 63
  else None.

Definition is_ascii_whitespace (c : N) : bool :=
  (c =? 9) || (c =? 10) || (c =? 12) || (c =? 13) || (c =? 32).

Definition strip_padding (s : jsstring) : jsstring :=
  if (N.of_nat (length s) mod 4 =? 0)
  then match rev s with
       | c1 :: r1 =>
           if c1 =? b64_pad then
             match r1 with
             | c2 :: r2 => if c2 =? b64_pad then rev r2 else rev r1
             | [] => rev r1
             end
           else s
       | [] => s
       end
  else s.

Fixpoint b64_values (s : jsstring) : option (list N) :=
  match s with
  | [] => Some []
  | c :: r =>
      match b64_value c, b64_values r with
      | Some v, Some vs => Some (v :: vs)
      | _, _ => None
      end
  end.

Fixpoint atob_units (vs : list N) : jsstring :=
  match vs with
  | a :: b :: c :: d :: r =>
      N.lor (N.shiftl a 2) (N.shiftr b 4)
      :: N.lor (N.shiftl (N.land b 15) 4) (N.shiftr c 2)
      :: N.lor (N.shiftl (N.land c 3) 6) d
      :: atob_units r
  | [a; b; c] =>
      [N.lor (N.shiftl a 2) (N.shiftr b 4);
       N.lor (N.shiftl (N.land b 15) 4) (N.shiftr c 2)]
  | [a; b] => [N.lor (N.shiftl a 2) (N.shiftr b 4)]
  | _ => []
  end.

(** [None] is the InvalidCharacterError that [atob] throws. *)
Definition atob (data : jsstring) : option jsstring :=
  let s := filter (fun c => negb (is_ascii_whitespace c)) data in
  let s := strip_padding s in
  if N.of_nat (length s) mod 4 =? 1 then None
  else match b64_values s with
       | Some vs => Some (atob_units vs)
       | None => None
       end.

(** *** [encodeBinary] (polyfill.js, lines 61-69) *)

Definition chunkSize : nat := N.to_nat 0x8000.
Arguments chunkSize : simpl never.

(** [bytes.subarray(i, j)] *)
Definition subarray (bytes : list byte) (i j : nat) : list byte :=
  firstn (j - i) (skipn i bytes).

(** [String.fromCharCode.apply(null, chunk)] *)
Definition fromCharCode (chunk : list byte) : jsstring := map Byte.to_N chunk.

(** The [for] loop: [fuel] bounds the number of iterations. *)
Fixpoint encodeBinary_loop (fuel : nat) (bytes : list byte) (i : nat)
    (binary : jsstring) : jsstring :=
  match fuel with
  | O => binary
  | S fuel' =>
      if (i <? length bytes)%nat
      then encodeBinary_loop fuel' bytes (i + chunkSize)
             (binary ++ fromCharCode (subarray bytes i (i + chunkSize)))
      else binary
  end.

(** Each iteration advances [i] by [chunkSize], so [length bytes] iterations
    are more than the loop ever runs. *)
Definition encodeBinary (bytes : list byte) : option jsstring :=
  btoa (encodeBinary_loop (length bytes) bytes 0 []).

(** The byte loop of [decodeMessage] (lines 292-296). *)
Definition decodeBytes (data : jsstring) : option (list byte) :=
  match atob data with
  | Some binary => Some (map u8 binary)
  | None => None
  end.

End Codec.

(** ** The emulated socket *)

Module Socket.
Import Codec.

Inductive ReadyState := CONNECTING | OPEN | CLOSING | CLOSED.
Inductive BinaryType := blob | arraybuffer.

Definition ReadyState_eqb (a b : ReadyState) : bool :=
  match a, b with
  | CONNECTING, CONNECTING | OPEN, OPEN | CLOSING, CLOSING | CLOSED, CLOSED => true
  | _, _ => false
  end.

(** What the application hands to [send]. *)
Inductive Payload :=
| PString (s : jsstring)
| PArrayBuffer (bytes : list byte)
| PView (buffer : list byte) (byteOffset byteLength : nat)
| PBlob (bytes : list byte)
| POther.                       (* a number, a plain object, null, ... *)

(** A thrown value; [message] is its [message] property, when it has one. *)
Record JsError := mkError { message : option jsstring }.

(** [new Error(m)] *)
Definition Error (m : jsstring) : JsError := mkError (Some m).

Inductive MessageData :=
| DataText (s : jsstring)
| DataArrayBuffer (bytes : list byte)
| DataBlob (bytes : list byte).

Inductive Event :=
| OpenEvent
| MessageEvent (data : MessageData)
| ErrorEvent (error : JsError)
| CloseEvent (code : Z) (reason : jsstring) (wasClean : bool).

(** The identifier the connect request returns; [None] is [null]. *)
Definition ConnId := option jsstring.

(** [if (connId)] *)
Definition truthy (c : ConnId) : bool :=
  match c with
  | Some (_ :: _) => true
  | _ => false
  end.

(** The JSON bodies posted to the send endpoint. *)
Inductive Frame :=
| TextFrame (data : jsstring)                (* {type: 'text', data} *)
| BinaryFrame (data : jsstring)              (* {type: 'binary', data} *)
| CloseFrame (code : Z) (reason : jsstring). (* {type: 'close', code, reason} *)

Inductive Request :=
| ConnectRequest (url : jsstring) (protocols : list jsstring)
| SendRequest (connId : ConnId) (body : Frame)
| PollRequest (connId : ConnId).

(** One item of [result.messages]: a JSON object, each property present or not. *)
Record InboundMessage := {
  msg_type : option jsstring;
  msg_messageType : option jsstring;
  msg_data : option jsstring;
  msg_code : option Z;
  msg_reason : option jsstring
}.

(** What the socket did, in the order it did it.  The source reads none of it:
    it is the record the properties are stated on. *)
Inductive Obs :=
| Emit (e : Event)                       (* emit(socket, listeners, handlers, e) *)
| Fetch (r : Request)                    (* fetch(...) *)
| SetState (st : ReadyState)             (* changeState(st) *)
| Push (rawData : Payload) (size : Z)    (* sendQueue.push({rawData, size}) *)
| Shift.                                 (* sendQueue.shift() *)

(** Where the drain activity of [flushQueue] is suspended; it keeps the
    [rawData] and [size] it took from the head of the queue. *)
Inductive DrainPc :=
| DrainIdle
| DrainAwaitBlob (bytes : list byte) (size : Z)  (* await rawData.arrayBuffer() *)
| DrainAwaitFetch (size : Z).                    (* await fetch(.../send/...) *)

Record State := {
  readyState : ReadyState;
  binaryType : BinaryType;
  protocol : jsstring;
  connId : ConnId;
  isClosed : bool;
  isSending : bool;
  bufferedAmount : Z;
  sendQueue : list (Payload * Z);
  (* suspended activities *)
  connecting : bool;               (* the constructor awaits the connect request *)
  drain : DrainPc;
  polling : bool;                  (* the poll loop awaits a poll request *)
  closing : list (Z * jsstring);   (* calls of close() awaiting their close frame *)
  (* the record *)
  trace : list Obs
}.

Definition set_readyState (v : ReadyState) (s : State) : State :=
  {| readyState := v; binaryType := binaryType s; protocol := protocol s;
     connId := connId s; isClosed := isClosed s; isSending := isSending s;
     bufferedAmount := bufferedAmount s; sendQueue := sendQueue s;
     connecting := connecting s; drain := drain s; polling := polling s;
     closing := closing s; trace := trace s |}.

Definition set_binaryType (v : BinaryType) (s : State) : State :=
  {| readyState := readyState s; binaryType := v; protocol := protocol s;
     connId := connId s; isClosed := isClosed s; isSending := isSending s;
     bufferedAmount := bufferedAmount s; sendQueue := sendQueue s;
     connecting := connecting s; drain := drain s; polling := polling s;
     closing := closing s; trace := trace s |}.

Definition set_protocol (v : jsstring) (s : State) : State :=
  {| readyState := readyState s; binaryType := binaryType s; protocol := v;
     connId := connId s; isClosed := isClosed s; isSending := isSending s;
     bufferedAmount := bufferedAmount s; sendQueue := sendQueue s;
     connecting := connecting s; drain := drain s; polling := polling s;
     closing := closing s; trace := trace s |}.

Definition set_connId (v : ConnId) (s : State) : State :=
  {| readyState := readyState s; binaryType := binaryType s; protocol := protocol s;
     connId := v; isClosed := isClosed s; isSending := isSending s;
     bufferedAmount := bufferedAmount s; sendQueue := sendQueue s;
     connecting := connecting s; drain := drain s; polling := polling s;
     closing := closing s; trace := trace s |}.

Definition set_isClosed (v : bool) (s : State) : State :=
  {| readyState := readyState s; binaryType := binaryType s; protocol := protocol s;
     connId := connId s; isClosed := v; isSending := isSending s;
     bufferedAmount := bufferedAmount s; sendQueue := sendQueue s;
     connecting := connecting s; drain := drain s; polling := polling s;
     closing := closing s; trace := trace s |}.

Definition set_isSending (v : bool) (s : State) : State :=
  {| readyState := readyState s; binaryType := binaryType s; protocol := protocol s;
     connId := connId s; isClosed := isClosed s; isSending := v;
     bufferedAmount := bufferedAmount s; sendQueue := sendQueue s;
     connecting := connecting s; drain := drain s; polling := polling s;
     closing := closing s; trace := trace s |}.

Definition set_bufferedAmount (v : Z) (s : State) : State :=
  {| readyState := readyState s; binaryType := binaryType s; protocol := protocol s;
     connId := connId s; isClosed := isClosed s; isSending := isSending s;
     bufferedAmount := v; sendQueue := sendQueue s;
     connecting := connecting s; drain := drain s; polling := polling s;
     closing := closing s; trace := trace s |}.

Definition set_sendQueue (v : list (Payload * Z)) (s : State) : State :=
  {| readyState := readyState s; binaryType := binaryType s; protocol := protocol s;
     connId := connId s; isClosed := isClosed s; isSending := isSending s;
     bufferedAmount := bufferedAmount s; sendQueue := v;
     connecting := connecting s; drain := drain s; polling := polling s;
     closing := closing s; trace := trace s |}.

Definition set_connecting (v : bool) (s : State) : State :=
  {| readyState := readyState s; binaryType := binaryType s; protocol := protocol s;
     connId := connId s; isClosed := isClosed s; isSending := isSending s;
     bufferedAmount := bufferedAmount s; sendQueue := sendQueue s;
     connecting := v; drain := drain s; polling := polling s;
     closing := closing s; trace := trace s |}.

Definition set_drain (v : DrainPc) (s : State) : State :=
  {| readyState := readyState s; binaryType := binaryType s; protocol := protocol s;
     connId := connId s; isClosed := isClosed s; isSending := isSending s;
     bufferedAmount := bufferedAmount s; sendQueue := sendQueue s;
     connecting := connecting s; drain := v; polling := polling s;
     closing := closing s; trace := trace s |}.

Definition set_polling (v : bool) (s : State) : State :=
  {| readyState := readyState s; binaryType := binaryType s; protocol := protocol s;
     connId := connId s; isClosed := isClosed s; isSending := isSending s;
     bufferedAmount := bufferedAmount s; sendQueue := sendQueue s;
     connecting := connecting s; drain := drain s; polling := v;
     closing := closing s; trace := trace s |}.

Definition set_closing (v : list (Z * jsstring)) (s : State) : State :=
  {| readyState := readyState s; binaryType := binaryType s; protocol := protocol s;
     connId := connId s; isClosed := isClosed s; isSending := isSending s;
     bufferedAmount := bufferedAmount s; sendQueue := sendQueue s;
     connecting := connecting s; drain := drain s; polling := polling s;
     closing := v; trace := trace s |}.

Definition log (o : Obs) (s : State) : State :=
  {| readyState := readyState s; binaryType := binaryType s; protocol := protocol s;
     connId := connId s; isClosed := isClosed s; isSending := isSending s;
     bufferedAmount := bufferedAmount s; sendQueue := sendQueue s;
     connecting := connecting s; drain := drain s; polling := polling s;
     closing := closing s; trace := trace s ++ [o] |}.

(** *** The operations of [createHttpBridgeWebSocket] *)

(** [calculateSize] (lines 45-59) *)
Definition calculateSize (data : Payload) : Z :=
  match data with
  | PString s => Z.of_nat (length (textEncoder_encode s))
  | PArrayBuffer bytes => Z.of_nat (length bytes)
  | PView _ _ byteLength => Z.of_nat byteLength
  | PBlob bytes => Z.of_nat (length bytes)
  | POther => 0
  end.

(** [emit] hands the event to the listeners of its type and then to the
    handler slot, and swallows what they throw.  The listeners belong to the
    application; here they observe the event and leave the socket alone, so a
    delivery is its entry in the record.  Listeners that call the socket while
    an event is delivered are the matter of [Reentrant] below, of which this
    is the case of listeners that call nothing
    ([ReentrantFacts.run_observers]). *)
Definition emit (e : Event) (s : State) : State := log (Emit e) s.

Definition fetch (r : Request) (s : State) : State := log (Fetch r) s.

(** [changeState] (lines 212-214) *)
Definition changeState (st : ReadyState) (s : State) : State :=
  log (SetState st) (set_readyState st s).

(** [handleClose] (lines 343-351) *)
Definition handleClose (code : Z) (reason : jsstring) (wasClean : bool)
    (s : State) : State :=
  if isClosed s then s
  else emit (CloseEvent code reason wasClean)
         (changeState CLOSED (set_isClosed true s)).

(** [error && error.message ? error.message : 'Unexpected error'] *)
Definition error_reason (error : JsError) : jsstring :=
  match message error with
  | Some (c :: m) => c :: m
  | _ => lit "Unexpected error"
  end.

(** [handleError] (lines 334-341) *)
Definition handleError (error : JsError) (s : State) : State :=
  if isClosed s then s
  else handleClose 1006 (error_reason error) false (emit (ErrorEvent error) s).

(** [handleOpen] (lines 285-289); [negotiatedProtocol || ''] *)
Definition handleOpen (negotiatedProtocol : option jsstring) (s : State) : State :=
  emit OpenEvent
    (changeState OPEN
       (set_protocol (match negotiatedProtocol with Some p => p | None => [] end) s)).

(** The text [atob] is given: a missing [data] reads as "undefined". *)
Definition data_text (m : InboundMessage) : jsstring :=
  match msg_data m with
  | Some d => d
  | None => lit "undefined"
  end.

Definition is_string (v : option jsstring) (text : string) : bool :=
  match v with
  | Some x => jsstring_eqb x (lit text)
  | None => false
  end.

(** [decodeMessage] (lines 291-304); [None] when [atob] throws. *)
Definition decodeMessage (m : InboundMessage) (s : State) : option MessageData :=
  match decodeBytes (data_text m) with
  | None => None
  | Some bytes =>
      if is_string (msg_messageType m) "text"
      then Some (DataText (textDecoder_decode bytes))
      else match binaryType s with
           | arraybuffer => Some (DataArrayBuffer bytes)
           | blob => Some (DataBlob bytes)
           end
  end.

(** [message.code || 1000] *)
Definition code_or_1000 (code : option Z) : Z :=
  match code with
  | Some c => if (c =? 0)%Z then 1000%Z else c
  | None => 1000%Z
  end.

(** [message.reason || ''] *)
Definition reason_or_empty (reason : option jsstring) : jsstring :=
  match reason with
  | Some r => r
  | None => []
  end.

(** [message.code === 1000] *)
Definition code_is_1000 (code : option Z) : bool :=
  match code with
  | Some c => (c =? 1000)%Z
  | None => false
  end.

(** [handleMessage] (lines 306-332); a message that does not decode is
    logged to the console and dropped. *)
Definition handleMessage (m : InboundMessage) (s : State) : State :=
  if negb (ReadyState_eqb (readyState s) OPEN) then s
  else if is_string (msg_type m) "close" then
    handleClose (code_or_1000 (msg_code m)) (reason_or_empty (msg_reason m))
      (code_is_1000 (msg_code m)) s
  else match decodeMessage m s with
       | None => s
       | Some data => emit (MessageEvent data) s
       end.

(** **** The drain activity of [flushQueue] (lines 226-283) *)

(** [catch (err)]: the error path, [break], then [isSending = false]. *)
Definition drain_catch (err : JsError) (s : State) : State :=
  set_drain DrainIdle (set_isSending false (handleError err s)).

(** The [fetch] of one frame, awaited. *)
Definition drain_submit (body : Frame) (size : Z) (s : State) : State :=
  set_drain (DrainAwaitFetch size) (fetch (SendRequest (connId s) body) s).

Definition drain_binary (bytes : list byte) (size : Z) (s : State) : State :=
  match encodeBinary bytes with
  | Some data => drain_submit (BinaryFrame data) size s
  | None => drain_catch (Error (lit "Invalid character")) s
  end.

(** From the test of the [while] loop to the next [await], or to the end of
    the activity. *)
Definition drain_loop (s : State) : State :=
  match sendQueue s with
  | (rawData, size) :: _ =>
      if isClosed s then set_drain DrainIdle (set_isSending false s)
      else match rawData with
           | PString text => drain_submit (TextFrame text) size s
           | PBlob bytes => set_drain (DrainAwaitBlob bytes size) s
           | PArrayBuffer bytes => drain_binary bytes size s
           | PView buffer byteOffset byteLength =>
               drain_binary (firstn byteLength (skipn byteOffset buffer)) size s
           | POther => drain_catch (Error (lit "Unsupported data type")) s
           end
  | [] => set_drain DrainIdle (set_isSending false s)
  end.

(** After the acknowledgment: [sendQueue.shift()], [bufferedAmount -= size],
    the clamp at 0, and the loop again. *)
Definition drain_acked (size : Z) (s : State) : State :=
  let s := log Shift (set_sendQueue (tl (sendQueue s)) s) in
  let b := (bufferedAmount s - size)%Z in
  drain_loop (set_bufferedAmount (if (b <? 0)%Z then 0%Z else b) s).

Definition flushQueue (s : State) : State :=
  if isSending s || (match sendQueue s with [] => true | _ => false end) || isClosed s
  then s
  else drain_loop (set_isSending true s).

(** How a call of the application ends. *)
Inductive Completion := Normal | Throw (e : JsError).

(** [queueSend] (lines 216-224), which is all of [socket.send]. *)
Definition queueSend (rawData : Payload) (s : State) : Completion * State :=
  if negb (ReadyState_eqb (readyState s) OPEN)
  then (Throw (Error (lit "WebSocket is not open")), s)
  else
    let size := calculateSize rawData in
    let s := log (Push rawData size) (set_sendQueue (sendQueue s ++ [(rawData, size)]) s) in
    let s := set_bufferedAmount (bufferedAmount s + size)%Z s in
    (Normal, flushQueue s).

Definition send (data : Payload) (s : State) : Completion * State :=
  queueSend data s.

(** **** The poll loop of [startPolling] (lines 353-377) *)

(** From the test of the [while] loop to the awaited poll request. *)
Definition poll_loop (s : State) : State :=
  if isClosed s then set_polling false s
  else set_polling true (fetch (PollRequest (connId s)) s).

Definition startPolling (s : State) : State := poll_loop s.

(** [Array.isArray(result.messages) ? result.messages : []], each message
    handled in turn, then the loop again. *)
Definition poll_result (messages : option (list InboundMessage)) (s : State) : State :=
  let messages := match messages with Some l => l | None => [] end in
  poll_loop (fold_left (fun st m => handleMessage m st) messages s).

(** [catch (err)] of the poll loop, then [break]. *)
Definition poll_catch (err : JsError) (s : State) : State :=
  set_polling false (if isClosed s then s else handleError err s).

(** **** [socket.close] (lines 383-404) *)

Definition close_finish (code : Z) (reason : jsstring) (s : State) : State :=
  handleClose code reason (code =? 1000)%Z s.

(** The arguments default to 1000 and the empty string. *)
Definition close (code : option Z) (reason : option jsstring) (s : State) : State :=
  let code := match code with Some c => c | None => 1000%Z end in
  let reason := match reason with Some r => r | None => [] end in
  if isClosed s || ReadyState_eqb (readyState s) CLOSING then s
  else
    let s := changeState CLOSING s in
    if truthy (connId s)
    then set_closing (closing s ++ [(code, reason)])
           (fetch (SendRequest (connId s) (CloseFrame code reason)) s)
    else close_finish code reason s.

(** **** The [binaryType] setter (lines 177-183) *)
Definition set_binaryType_property (value : jsstring) (s : State) : State :=
  if jsstring_eqb value (lit "arraybuffer")
  then set_binaryType arraybuffer s
  else set_binaryType blob s.

(** **** Construction (lines 119-130 and 406-428) *)

(** [protocols] as the constructor may be given it. *)
Inductive Protocols :=
| ProtocolArray (l : list jsstring)
| ProtocolString (p : jsstring)
| ProtocolAbsent.

(** [Array.isArray(protocols) ? protocols : protocols ? [protocols] : []] *)
Definition protocol_list (protocols : Protocols) : list jsstring :=
  match protocols with
  | ProtocolArray l => l
  | ProtocolString [] => []
  | ProtocolString p => [p]
  | ProtocolAbsent => []
  end.

Definition createHttpBridgeWebSocket (url : jsstring) (protocols : Protocols) : State :=
  fetch (ConnectRequest url (protocol_list protocols))
    {| readyState := CONNECTING; binaryType := blob; protocol := [];
       connId := None; isClosed := false; isSending := false;
       bufferedAmount := 0; sendQueue := [];
       connecting := true; drain := DrainIdle; polling := false;
       closing := []; trace := [] |}.

(** *** Turns *)

(** How an awaited request fails: the response is not [ok], or the promise
    of the request (or of reading its body) rejects. *)
Inductive Failure :=
| BadStatus (status : N) (statusText : jsstring)
| Rejected (e : JsError).

Definition connect_error (f : Failure) : JsError :=
  match f with
  | BadStatus status statusText =>
      Error (lit "Connection failed: " ++ decimal status ++ lit " " ++ statusText)
  | Rejected e => e
  end.

Definition send_error (f : Failure) : JsError :=
  match f with
  | BadStatus status _ => Error (lit "Send failed: " ++ decimal status)
  | Rejected e => e
  end.

Definition poll_error (f : Failure) : JsError :=
  match f with
  | BadStatus status _ => Error (lit "Poll failed: " ++ decimal status)
  | Rejected e => e
  end.

Inductive Input :=
(* calls of the application *)
| CallSend (data : Payload)
| CallClose (code : option Z) (reason : option jsstring)
| SetBinaryType (value : jsstring)
(* the connect request settles *)
| ConnectOk (connId : ConnId) (protocol : option jsstring)
| ConnectFail (f : Failure)
(* rawData.arrayBuffer() of the drain settles *)
| BlobRead
| BlobFail (e : JsError)
(* the send request of the drain settles *)
| SendOk
| SendFail (f : Failure)
(* the poll request settles *)
| PollOk (messages : option (list InboundMessage))
| PollFail (f : Failure)
(* the close frame of the oldest pending close() settles, either way *)
| CloseSettled.

(** One turn.  [None]: nothing awaits this settlement. *)
Definition step (s : State) (i : Input) : option State :=
  match i with
  | CallSend data => Some (snd (send data s))
  | CallClose code reason => Some (close code reason s)
  | SetBinaryType value => Some (set_binaryType_property value s)
  | ConnectOk id negotiated =>
      if connecting s
      then Some (startPolling (handleOpen negotiated (set_connId id (set_connecting false s))))
      else None
  | ConnectFail f =>
      if connecting s
      then Some (handleError (connect_error f) (set_connecting false s))
      else None
  | BlobRead =>
      match drain s with
      | DrainAwaitBlob bytes size => Some (drain_binary bytes size s)
      | _ => None
      end
  | BlobFail e =>
      match drain s with
      | DrainAwaitBlob _ _ => Some (drain_catch e s)
      | _ => None
      end
  | SendOk =>
      match drain s with
      | DrainAwaitFetch size => Some (drain_acked size s)
      | _ => None
      end
  | SendFail f =>
      match drain s with
      | DrainAwaitFetch _ => Some (drain_catch (send_error f) s)
      | _ => None
      end
  | PollOk messages => if polling s then Some (poll_result messages s) else None
  | PollFail f => if polling s then Some (poll_catch (poll_error f) s) else None
  | CloseSettled =>
      match closing s with
      | (code, reason) :: rest => Some (close_finish code reason (set_closing rest s))
      | [] => None
      end
  end.

Fixpoint run (s : State) (inputs : list Input) : option State :=
  match inputs with
  | [] => Some s
  | i :: rest =>
      match step s i with
      | Some s' => run s' rest
      | None => None
      end
  end.

(** The states a socket can be in between two turns. *)
Inductive reachable : State -> Prop :=
| reachable_create url protocols : reachable (createHttpBridgeWebSocket url protocols)
| reachable_step s i s' : reachable s -> step s i = Some s' -> reachable s'.

(** *** Reading the record *)

Definition events (s : State) : list Event :=
  flat_map (fun o => match o with Emit e => [e] | _ => [] end) (trace s).

Definition requests (s : State) : list Request :=
  flat_map (fun o => match o with Fetch r => [r] | _ => [] end) (trace s).

(** The successive values of [readyState], after the initial CONNECTING. *)
Definition states (s : State) : list ReadyState :=
  flat_map (fun o => match o with SetState st => [st] | _ => [] end) (trace s).

(** The payloads [send] accepted. *)
Definition accepted (s : State) : list Payload :=
  flat_map (fun o => match o with Push d _ => [d] | _ => [] end) (trace s).

(** The frames of the queue that were submitted. *)
Definition submitted (s : State) : list Frame :=
  flat_map (fun o => match o with
                     | Fetch (SendRequest _ (TextFrame d)) => [TextFrame d]
                     | Fetch (SendRequest _ (BinaryFrame d)) => [BinaryFrame d]
                     | _ => []
                     end) (trace s).

(** *** What the properties speak of *)

Definition is_close (e : Event) : bool :=
  match e with
  | CloseEvent _ _ _ => true
  | _ => false
  end.

(** How many close events were emitted. *)
Definition close_count (s : State) : nat := length (filter is_close (events s)).

(** The body the drain posts for a payload; [None] when it cannot be encoded. *)
Definition frame_of (d : Payload) : option Frame :=
  match d with
  | PString text => Some (TextFrame text)
  | PArrayBuffer bytes => option_map BinaryFrame (encodeBinary bytes)
  | PView buffer byteOffset byteLength =>
      option_map BinaryFrame (encodeBinary (firstn byteLength (skipn byteOffset buffer)))
  | PBlob bytes => option_map BinaryFrame (encodeBinary bytes)
  | POther => None
  end.

Fixpoint total_size (q : list (Payload * Z)) : Z :=
  match q with
  | [] => 0
  | (_, size) :: r => size + total_size r
  end.

Fixpoint sum_sizes (l : list Payload) : Z :=
  match l with
  | [] => 0
  | d :: r => calculateSize d + sum_sizes r
  end.

(** Submissions of the drain that await their response. *)
Definition inflight (s : State) : nat :=
  match drain s with
  | DrainAwaitFetch _ => 1
  | _ => 0
  end.

(** Acknowledgments, and responses of either kind, among the inputs. *)
Definition ack1 (i : Input) : nat :=
  match i with
  | SendOk => 1
  | _ => 0
  end.

Definition settle1 (i : Input) : nat :=
  match i with
  | SendOk | SendFail _ => 1
  | _ => 0
  end.

Fixpoint acks (inputs : list Input) : nat :=
  match inputs with
  | [] => 0
  | i :: r => ack1 i + acks r
  end.

Fixpoint settled (inputs : list Input) : nat :=
  match inputs with
  | [] => 0
  | i :: r => settle1 i + settled r
  end.

(** The error a failed open, submit or poll operation hands to [handleError]. *)
Definition failure_of (i : Input) : option JsError :=
  match i with
  | ConnectFail f => Some (connect_error f)
  | SendFail f => Some (send_error f)
  | PollFail f => Some (poll_error f)
  | _ => None
  end.

(** The transitions the specification lists. *)
Definition allowed (a b : ReadyState) : bool :=
  match a, b with
  | CONNECTING, OPEN | OPEN, CLOSING | CLOSING, CLOSED | CONNECTING, CLOSED => true
  | _, _ => false
  end.

(** Those, and the two more that [handleClose] and [close] make. *)
Definition allowed_by_design (a b : ReadyState) : bool :=
  match a, b with
  | OPEN, CLOSED | CONNECTING, CLOSING => true
  | _, _ => allowed a b
  end.

(** Every step of the walk [from], [l] is in [rel]. *)
Fixpoint chain (rel : ReadyState -> ReadyState -> bool) (from : ReadyState)
    (l : list ReadyState) : bool :=
  match l with
  | [] => true
  | x :: r => rel from x && chain rel x r
  end.

(** Where the walk ends. *)
Fixpoint final (from : ReadyState) (l : list ReadyState) : ReadyState :=
  match l with
  | [] => from
  | x :: r => final x r
  end.

(** The connect request succeeds after the socket was finalized. *)
Definition late_open (s : State) (i : Input) : bool :=
  match i with
  | ConnectOk _ _ => isClosed s
  | _ => false
  end.

Fixpoint no_late_open (s : State) (inputs : list Input) : bool :=
  match inputs with
  | [] => true
  | i :: r =>
      negb (late_open s i)
      && match step s i with
         | Some s' => no_late_open s' r
         | None => true
         end
  end.

End Socket.

(** ** Listeners that call the socket *)

(** [emit] (lines 94-116) calls the listeners and the handler of the
    application before it returns, and what they throw it swallows.  In
    [Socket] they observe the event and leave the socket alone.  Here they
    may call it: [send], [close] and the [binaryType] setter run inside the
    delivery, which [handleOpen], [handleMessage], [handleError] and
    [handleClose] resume from.  The operations are those of [Socket], word
    for word, with the delivery as a parameter. *)
Module Reentrant.
Import Codec Socket.

(** What a listener may call on the socket. *)
Inductive Call :=
| Send (data : Payload)
| Close (code : option Z) (reason : option jsstring)
| AssignBinaryType (value : jsstring).

(** The calls that the listeners and the handler of an event make while it is
    delivered to them, in order.  They are given the state they are called
    in, of which the record is a part: they may depend on all that
    happened. *)
Definition Listeners := State -> Event -> list Call.

Section Operations.

(** The delivery of an event. *)
Variable emit : Event -> State -> State.

(** [handleClose] (lines 343-351) *)
Definition handleClose (code : Z) (reason : jsstring) (wasClean : bool)
    (s : State) : State :=
  if isClosed s then s
  else emit (CloseEvent code reason wasClean)
         (changeState CLOSED (set_isClosed true s)).

(** [handleError] (lines 334-341) *)
Definition handleError (error : JsError) (s : State) : State :=
  if isClosed s then s
  else handleClose 1006 (error_reason error) false (emit (ErrorEvent error) s).

(** [handleOpen] (lines 285-289) *)
Definition handleOpen (negotiatedProtocol : option jsstring) (s : State) : State :=
  emit OpenEvent
    (changeState OPEN
       (set_protocol (match negotiatedProtocol with Some p => p | None => [] end) s)).

(** [handleMessage] (lines 306-332) *)
Definition handleMessage (m : InboundMessage) (s : State) : State :=
  if negb (ReadyState_eqb (readyState s) OPEN) then s
  else if is_string (msg_type m) "close" then
    handleClose (code_or_1000 (msg_code m)) (reason_or_empty (msg_reason m))
      (code_is_1000 (msg_code m)) s
  else match decodeMessage m s with
       | None => s
       | Some data => emit (MessageEvent data) s
       end.

(** The drain activity of [flushQueue] (lines 226-283) *)
Definition drain_catch (err : JsError) (s : State) : State :=
  set_drain DrainIdle (set_isSending false (handleError err s)).

Definition drain_binary (bytes : list byte) (size : Z) (s : State) : State :=
  match encodeBinary bytes with
  | Some data => drain_submit (BinaryFrame data) size s
  | None => drain_catch (Error (lit "Invalid character")) s
  end.

Definition drain_loop (s : State) : State :=
  match sendQueue s with
  | (rawData, size) :: _ =>
      if isClosed s then set_drain DrainIdle (set_isSending false s)
      else match rawData with
           | PString text => drain_submit (TextFrame text) size s
           | PBlob bytes => set_drain (DrainAwaitBlob bytes size) s
           | PArrayBuffer bytes => drain_binary bytes size s
           | PView buffer byteOffset byteLength =>
               drain_binary (firstn byteLength (skipn byteOffset buffer)) size s
           | POther => drain_catch (Error (lit "Unsupported data type")) s
           end
  | [] => set_drain DrainIdle (set_isSending false s)
  end.

Definition drain_acked (size : Z) (s : State) : State :=
  let s := log Shift (set_sendQueue (tl (sendQueue s)) s) in
  let b := (bufferedAmount s - size)%Z in
  drain_loop (set_bufferedAmount (if (b <? 0)%Z then 0%Z else b) s).

Definition flushQueue (s : State) : State :=
  if isSending s || (match sendQueue s with [] => true | _ => false end) || isClosed s
  then s
  else drain_loop (set_isSending true s).

(** [queueSend] (lines 216-224), which is all of [socket.send]. *)
Definition queueSend (rawData : Payload) (s : State) : Completion * State :=
  if negb (ReadyState_eqb (readyState s) OPEN)
  then (Throw (Error (lit "WebSocket is not open")), s)
  else
    let size := calculateSize rawData in
    let s := log (Push rawData size) (set_sendQueue (sendQueue s ++ [(rawData, size)]) s) in
    let s := set_bufferedAmount (bufferedAmount s + size)%Z s in
    (Normal, flushQueue s).

Definition send (data : Payload) (s : State) : Completion * State :=
  queueSend data s.

(** The poll loop of [startPolling] (lines 353-377) *)
Definition poll_result (messages : option (list InboundMessage)) (s : State) : State :=
  let messages := match messages with Some l => l | None => [] end in
  poll_loop (fold_left (fun st m => handleMessage m st) messages s).

Definition poll_catch (err : JsError) (s : State) : State :=
  set_polling false (if isClosed s then s else handleError err s).

(** [socket.close] (lines 383-404) *)
Definition close_finish (code : Z) (reason : jsstring) (s : State) : State :=
  handleClose code reason (code =? 1000)%Z s.

Definition close (code : option Z) (reason : option jsstring) (s : State) : State :=
  let code := match code with Some c => c | None => 1000%Z end in
  let reason := match reason with Some r => r | None => [] end in
  if isClosed s || ReadyState_eqb (readyState s) CLOSING then s
  else
    let s := changeState CLOSING s in
    if truthy (connId s)
    then set_closing (closing s ++ [(code, reason)])
           (fetch (SendRequest (connId s) (CloseFrame code reason)) s)
    else close_finish code reason s.

(** A call made by a listener.  What [send] throws goes to the listener, and
    from there, if the listener lets it, to the [catch] of [emit] (lines
    100-102): the socket is as [send] left it. *)
Definition call (s : State) (c : Call) : State :=
  match c with
  | Send data => snd (send data s)
  | Close code reason => close code reason s
  | AssignBinaryType value => set_binaryType_property value s
  end.

(** One turn. *)
Definition step (s : State) (i : Input) : option State :=
  match i with
  | CallSend data => Some (snd (send data s))
  | CallClose code reason => Some (close code reason s)
  | SetBinaryType value => Some (set_binaryType_property value s)
  | ConnectOk id negotiated =>
      if connecting s
      then Some (startPolling (handleOpen negotiated (set_connId id (set_connecting false s))))
      else None
  | ConnectFail f =>
      if connecting s
      then Some (handleError (connect_error f) (set_connecting false s))
      else None
  | BlobRead =>
      match drain s with
      | DrainAwaitBlob bytes size => Some (drain_binary bytes size s)
      | _ => None
      end
  | BlobFail e =>
      match drain s with
      | DrainAwaitBlob _ _ => Some (drain_catch e s)
      | _ => None
      end
  | SendOk =>
      match drain s with
      | DrainAwaitFetch size => Some (drain_acked size s)
      | _ => None
      end
  | SendFail f =>
      match drain s with
      | DrainAwaitFetch _ => Some (drain_catch (send_error f) s)
      | _ => None
      end
  | PollOk messages => if polling s then Some (poll_result messages s) else None
  | PollFail f => if polling s then Some (poll_catch (poll_error f) s) else None
  | CloseSettled =>
      match closing s with
      | (code, reason) :: rest => Some (close_finish code reason (set_closing rest s))
      | [] => None
      end
  end.

End Operations.

(** The delivery of an event: it enters the record, then the listeners make
    their calls, one after the other, each of which may deliver events in its
    turn.  [n] bounds the depth of deliveries inside deliveries; at depth 0
    the listeners are not run. *)
Fixpoint deliver (n : nat) (L : Listeners) (e : Event) (s : State) : State :=
  match n with
  | 0 => Socket.emit e s
  | S n => fold_left (call (deliver n L)) (L (Socket.emit e s) e) (Socket.emit e s)
  end.

(** Deliveries are never more than three deep (a listener of any event sends
    an unsupported payload, a listener of the error event that follows calls
    [close], and the close event is delivered): [ReentrantFacts.deliver_enough]. *)
Definition depth : nat := 3.

(** [emit] (lines 94-116) *)
Definition emit (L : Listeners) : Event -> State -> State := deliver depth L.

Fixpoint run (L : Listeners) (s : State) (inputs : list Input) : option State :=
  match inputs with
  | [] => Some s
  | i :: rest =>
      match step (emit L) s i with
      | Some s' => run L s' rest
      | None => None
      end
  end.

(** Listeners that call nothing. *)
Definition passive : Listeners := fun _ _ => [].

(** The code and the reason of the first call of [close] among the calls,
    with the defaults of [close]. *)
Fixpoint first_close (calls : list Call) : option (Z * jsstring) :=
  match calls with
  | [] => None
  | Close code reason :: _ =>
      Some (match code with Some c => c | None => 1000%Z end,
            match reason with Some r => r | None => [] end)
  | _ :: rest => first_close rest
  end.

Definition is_error (e : Event) : bool :=
  match e with ErrorEvent _ => true | _ => false end.

End Reentrant.

(** ** Event dispatch *)

(** The listener registry of the socket and [emit] as the source has them.
    [Socket.emit] above records that an event was delivered; here is the
    delivery itself: to the listeners registered for the type of the event,
    then to the handler slot. *)
Module Dispatch.

(** What the application passes where a function is expected.  Functions are
    compared by identity: [Function f] is the function object number [f]. *)
Inductive Value := Function (f : nat) | NotFunction.

(** A [Map] keyed by strings, as an association list in insertion order with
    one entry per key. *)
Fixpoint map_get {V : Type} (k : jsstring) (m : list (jsstring * V)) : option V :=
  match m with
  | [] => None
  | (k', v) :: r => if jsstring_eqb k' k then Some v else map_get k r
  end.

(** [m.set(k, v)]: an existing key keeps its place. *)
Fixpoint map_set {V : Type} (k : jsstring) (v : V) (m : list (jsstring * V))
    : list (jsstring * V) :=
  match m with
  | [] => [(k, v)]
  | (k', v') :: r => if jsstring_eqb k' k then (k', v) :: r else (k', v') :: map_set k v r
  end.

Fixpoint map_delete {V : Type} (k : jsstring) (m : list (jsstring * V))
    : list (jsstring * V) :=
  match m with
  | [] => []
  | (k', v') :: r => if jsstring_eqb k' k then r else (k', v') :: map_delete k r
  end.

(** A [Set] of functions, in insertion order. *)
Definition set_has (f : nat) (s : list nat) : bool := existsb (Nat.eqb f) s.

Definition set_add (f : nat) (s : list nat) : list nat :=
  if set_has f s then s else s ++ [f].

Definition set_delete (v : Value) (s : list nat) : list nat :=
  match v with
  | Function f => filter (fun g => negb (Nat.eqb g f)) s
  | NotFunction => s
  end.

Record Registry := {
  listeners : list (jsstring * list nat);   (* const listeners = new Map() *)
  handlers : list (jsstring * option nat)   (* const handlers = Object.create(null) *)
}.

Definition empty : Registry := {| listeners := []; handlers := [] |}.

(** [socket.addEventListener] (lines 187-195) *)
Definition addEventListener (type : jsstring) (listener : Value) (r : Registry)
    : Registry :=
  match listener with
  | NotFunction => r
  | Function f =>
      let m := match map_get type (listeners r) with
               | Some _ => listeners r
               | None => map_set type [] (listeners r)
               end in
      let set := match map_get type m with Some s => s | None => [] end in
      {| listeners := map_set type (set_add f set) m; handlers := handlers r |}
  end.

(** [socket.removeEventListener] (lines 197-206) *)
Definition removeEventListener (type : jsstring) (listener : Value) (r : Registry)
    : Registry :=
  match map_get type (listeners r) with
  | None => r
  | Some set =>
      let set' := set_delete listener set in
      {| listeners := match set' with
                      | [] => map_delete type (listeners r)
                      | _ :: _ => map_set type set' (listeners r)
                      end;
         handlers := handlers r |}
  end.

(** The types for which [defineEventHandler] gives the socket an [on...]
    property (lines 132-135). *)
Definition handler_type (type : jsstring) : bool :=
  jsstring_eqb type (lit "open") || jsstring_eqb type (lit "message")
  || jsstring_eqb type (lit "error") || jsstring_eqb type (lit "close").

(** The setter of [defineEventHandler] (lines 39-41): [socket.on<type> = fn]. *)
Definition set_handler (type : jsstring) (fn : Value) (r : Registry) : Registry :=
  if handler_type type
  then {| listeners := listeners r;
          handlers := map_set type
                        (match fn with Function f => Some f | NotFunction => None end)
                        (handlers r) |}
  else r.

(** [handlers[type] || null], which is also what [emit] tests. *)
Definition get_handler (type : jsstring) (r : Registry) : option nat :=
  match map_get type (handlers r) with
  | Some (Some f) => Some f
  | _ => None
  end.

(** The listeners registered for a type, in the order they are called. *)
Definition registered (type : jsstring) (r : Registry) : list nat :=
  match map_get type (listeners r) with
  | Some s => s
  | None => []
  end.

(** An event: its [type] and which event it is. *)
Record DomEvent := { ev_type : jsstring; ev_id : nat }.

(** What a function of the application does when it is called with an event:
    calls of the registry of the socket, and whether it then throws. *)
Inductive Action :=
| DoAdd (type : jsstring) (listener : Value)
| DoRemove (type : jsstring) (listener : Value)
| DoAssign (type : jsstring) (fn : Value).

Record Behaviour := { does : list Action; throws : bool }.

Definition Program := nat -> DomEvent -> Behaviour.

Definition perform (r : Registry) (a : Action) : Registry :=
  match a with
  | DoAdd type v => addEventListener type v r
  | DoRemove type v => removeEventListener type v r
  | DoAssign type v => set_handler type v r
  end.

Inductive Entry :=
| Called (f : nat) (e : DomEvent)
| ConsoleError (f : nat).

(** [try { f.call(target, event) } catch (err) { console.error(...) }] *)
Definition call (P : Program) (e : DomEvent) (st : Registry * list Entry) (f : nat)
    : Registry * list Entry :=
  (fold_left perform (does (P f e)) (fst st),
   snd st ++ Called f e :: (if throws (P f e) then [ConsoleError f] else [])).

(** The [for] loop of [emit] over [Array.from(listeners)]. *)
Definition deliver_to_listeners (P : Program) (e : DomEvent)
    (st : Registry * list Entry) : Registry * list Entry :=
  fold_left (call P e) (registered (ev_type e) (fst st)) st.

(** [emit] (lines 94-116), and so [socket.dispatchEvent]. *)
Definition emit (P : Program) (e : DomEvent) (st : Registry * list Entry)
    : Registry * list Entry :=
  let st := deliver_to_listeners P e st in
  match get_handler (ev_type e) (fst st) with
  | Some h => call P e st h
  | None => st
  end.

(** The functions called, in order. *)
Definition called (log : list Entry) : list nat :=
  flat_map (fun x => match x with Called f _ => [f] | ConsoleError _ => [] end) log.

Definition console_errors (log : list Entry) : list nat :=
  flat_map (fun x => match x with Called _ _ => [] | ConsoleError f => [f] end) log.

(** A registry as the operations build it: one entry per type, and for each
    type a set that is not empty and holds a function once. *)
Definition well_formed (r : Registry) : Prop :=
  NoDup (map fst (listeners r))
  /\ Forall (fun kv => snd kv <> [] /\ NoDup (snd kv)) (listeners r).

End Dispatch.

(** ** Routing *)

(** [isSameOrigin] and the constructor that replaces [window.WebSocket].
    Parsing the address ([new URL(url, window.location.href)]) belongs to the
    platform: the functions take what it yields. *)
Module Origin.

Fixpoint starts_with (pattern s : jsstring) : bool :=
  match pattern, s with
  | [], _ => true
  | _ :: _, [] => false
  | p :: pattern', c :: s' => N.eqb p c && starts_with pattern' s'
  end.

(** [s.replace(pattern, replacement)] for a string pattern, and a replacement
    without [$]: the first occurrence is replaced. *)
Fixpoint replace (pattern replacement s : jsstring) : jsstring :=
  match s with
  | [] => if starts_with pattern [] then replacement else []
  | c :: r =>
      if starts_with pattern s
      then replacement ++ skipn (length pattern) s
      else c :: replace pattern replacement r
  end.

(** The [protocol] and [origin] properties of a parsed address. *)
Record URL := { url_protocol : jsstring; url_origin : jsstring }.

(** [isSameOrigin] (lines 16-30); [parsed] is [None] when [new URL] throws. *)
Definition isSameOrigin (parsed : option URL) (currentOrigin : jsstring) : bool :=
  match parsed with
  | None => false
  | Some wsUrl =>
      let wsOrigin :=
        if jsstring_eqb (url_protocol wsUrl) (lit "ws:")
        then replace (lit "ws:") (lit "http:") (url_origin wsUrl)
        else if jsstring_eqb (url_protocol wsUrl) (lit "wss:")
        then replace (lit "wss:") (lit "https:") (url_origin wsUrl)
        else url_origin wsUrl in
      jsstring_eqb wsOrigin currentOrigin
  end.

(** What the replaced constructor returns. *)
Inductive Routed :=
| Bridge (s : Socket.State)
| Native (url : jsstring) (protocols : Socket.Protocols).

(** [window.WebSocket] (lines 433-440) *)
Definition WebSocket (parsed : option URL) (currentOrigin : jsstring)
    (url : jsstring) (protocols : Socket.Protocols) : Routed :=
  if isSameOrigin parsed currentOrigin
  then Bridge (Socket.createHttpBridgeWebSocket url protocols)
  else Native url protocols.

End Origin.

(** ** What the further properties speak of *)

Module Observations.
Import Codec Socket.

(** *** Events *)

Definition is_message (e : Event) : bool :=
  match e with MessageEvent _ => true | _ => false end.

(** How a session ends: with a close event, which follows the error event
    when the session failed. *)
Definition ending (l : list Event) : bool :=
  match l with
  | [CloseEvent _ _ _] => true
  | [ErrorEvent _; CloseEvent code _ wasClean] => (code =? 1006)%Z && negb wasClean
  | _ => false
  end.

(** Message events, then perhaps the ending. *)
Fixpoint session (l : list Event) : bool :=
  match l with
  | [] => true
  | MessageEvent _ :: r => session r
  | _ => ending l
  end.

(** The sequences of events a socket emits: nothing yet; the open event and
    a session; the ending alone; or a close event and then the open event,
    when the connect request succeeds after [close] finalized the socket. *)
Definition event_order (l : list Event) : bool :=
  match l with
  | [] => true
  | OpenEvent :: r => session r
  | [CloseEvent _ _ _; OpenEvent] => true
  | _ => ending l
  end.


(** *** Requests *)

Definition is_poll (r : Request) : bool :=
  match r with PollRequest _ => true | _ => false end.

(** The poll requests made. *)
Definition poll_count (s : State) : nat := length (filter is_poll (requests s)).

Definition poll_settle1 (i : Input) : nat :=
  match i with PollOk _ | PollFail _ => 1 | _ => 0 end.

(** The poll requests that settled. *)
Fixpoint poll_settled (inputs : list Input) : nat :=
  match inputs with [] => 0 | i :: r => poll_settle1 i + poll_settled r end.

(** The poll requests awaited. *)
Definition poll_pending (s : State) : nat := if polling s then 1 else 0.

(** A request made on the connection [c]. *)
Definition carries (c : ConnId) (r : Request) : Prop :=
  match r with
  | ConnectRequest _ _ => False
  | SendRequest c' _ | PollRequest c' => c' = c
  end.

(** *** Payloads and frames *)

(** Payloads the drain encodes without awaiting anything. *)
Definition immediate (d : Payload) : bool :=
  match d with
  | PString _ | PArrayBuffer _ | PView _ _ _ => true
  | PBlob _ | POther => false
  end.

(** A character of radix-64 text. *)
Definition radix64_char (c : N) : Prop := b64_value c <> None \/ c = b64_pad.

(** *** Events, with listeners that call the socket *)

(** Error events, then the close event. *)
Fixpoint ends_after_errors (l : list Event) : bool :=
  match l with
  | [CloseEvent _ _ _] => true
  | ErrorEvent _ :: r => ends_after_errors r
  | _ => false
  end.

(** Message events, then perhaps such an ending. *)
Fixpoint session_with_listeners (l : list Event) : bool :=
  match l with
  | [] => true
  | MessageEvent _ :: r => session_with_listeners r
  | _ => ends_after_errors l
  end.

(** The sequences of events that a socket emits to listeners that call it. *)
Definition event_order_with_listeners (l : list Event) : bool :=
  match l with
  | [] => true
  | OpenEvent :: r => session_with_listeners r
  | [CloseEvent _ _ _; OpenEvent] => true
  | _ => ends_after_errors l
  end.

(** *** Calls *)

(** The payload of a call of [send] made while the socket is OPEN. *)
Definition sent1 (s : State) (i : Input) : list Payload :=
  match i with
  | CallSend data => if ReadyState_eqb (readyState s) OPEN then [data] else []
  | _ => []
  end.

(** The payloads of the calls of [send] that the application made while the
    socket was OPEN, in order: read off the inputs and the state each call
    was made in. *)
Fixpoint sent_while_open (s : State) (inputs : list Input) : list Payload :=
  match inputs with
  | [] => []
  | i :: rest =>
      match step s i with
      | Some s' => sent1 s i ++ sent_while_open s' rest
      | None => []
      end
  end.

(** The size of a payload in the words of the specification: the length of
    the UTF-8 encoding of a text, the length in bytes of a binary payload;
    what is neither counts for nothing. *)
Definition byte_length (d : Payload) : Z :=
  match d with
  | PString text => Z.of_nat (length (textEncoder_encode text))
  | PArrayBuffer bytes | PBlob bytes => Z.of_nat (length bytes)
  | PView _ _ byteLength => Z.of_nat byteLength
  | POther => 0
  end.

Definition total_bytes (l : list Payload) : Z :=
  fold_right (fun d n => (byte_length d + n)%Z) 0%Z l.

End Observations.

(** ** The codec round trip *)

Module CodecFacts.
Import Codec.
Local Open Scope N_scope.

Lemma u8_to_N (b : byte) : u8 (Byte.to_N b) = b.
Proof.
  unfold u8. pose proof (Byte.to_N_bounded b) as Hb.
  rewrite N.mod_small by lia. now rewrite Byte.of_to_N.
Qed.

Lemma map_u8_fromCharCode (bytes : list byte) : map u8 (fromCharCode bytes) = bytes.
Proof.
  unfold fromCharCode. induction bytes as [|b r IH]; simpl; [reflexivity|].
  now rewrite u8_to_N, IH.
Qed.

Lemma fromCharCode_app (x y : list byte) :
  fromCharCode (x ++ y) = fromCharCode x ++ fromCharCode y.
Proof. apply map_app. Qed.

Lemma fromCharCode_bounded (bytes : list byte) :
  Forall (fun c => c <= 255) (fromCharCode bytes).
Proof.
  unfold fromCharCode. induction bytes as [|b r IH]; simpl; constructor; auto.
  apply Byte.to_N_bounded.
Qed.

Lemma chunkSize_pos : (0 < chunkSize)%nat.
Proof. apply Nat.ltb_lt. vm_compute. reflexivity. Qed.

(** The loop leaves the code units of all the bytes from [i] on behind what
    it was given, whenever the fuel covers the bytes that are left. *)
Lemma encodeBinary_loop_spec (bytes : list byte) :
  forall fuel i binary,
    (length bytes <= i + fuel * chunkSize)%nat ->
    encodeBinary_loop fuel bytes i binary = binary ++ fromCharCode (skipn i bytes).
Proof.
  induction fuel as [|fuel IH]; intros i binary Hlen; simpl.
  - rewrite skipn_all2 by lia. simpl. now rewrite app_nil_r.
  - destruct (i <? length bytes)%nat eqn:Hi.
    + rewrite IH by lia.
      rewrite <- app_assoc, <- fromCharCode_app. f_equal. f_equal.
      unfold subarray. replace (i + chunkSize - i)%nat with chunkSize by lia.
      replace (i + chunkSize)%nat with (chunkSize + i)%nat by lia.
      rewrite <- skipn_skipn. apply firstn_skipn.
    + apply Nat.ltb_ge in Hi. rewrite skipn_all2 by lia. simpl. now rewrite app_nil_r.
Qed.

Lemma encodeBinary_loop_all (bytes : list byte) :
  encodeBinary_loop (length bytes) bytes 0 [] = fromCharCode bytes.
Proof.
  rewrite encodeBinary_loop_spec; [reflexivity|].
  pose proof chunkSize_pos. nia.
Qed.

(** *** Radix-64: decoding undoes encoding *)

(** Facts about one or two bytes are checked on every value below 256. *)
Definition below (n : nat) : list N := map N.of_nat (seq 0 n).

Lemma below_in (n : nat) (x : N) : x < N.of_nat n -> In x (below n).
Proof.
  intros Hx. unfold below. apply in_map_iff. exists (N.to_nat x). split.
  - apply N2Nat.id.
  - apply in_seq. lia.
Qed.

Definition all1 (P : N -> bool) : bool := forallb P (below 256).
Definition all2 (P : N -> N -> bool) : bool := all1 (fun a => all1 (P a)).

Lemma all1_spec (P : N -> bool) :
  all1 P = true -> forall x, x <= 255 -> P x = true.
Proof.
  unfold all1. intros H x Hx. rewrite forallb_forall in H. apply H.
  apply below_in. lia.
Qed.

Lemma all2_spec (P : N -> N -> bool) :
  all2 P = true -> forall x y, x <= 255 -> y <= 255 -> P x y = true.
Proof.
  unfold all2. intros H x y Hx Hy.
  apply (all1_spec (P x)); [|exact Hy].
  apply (all1_spec (fun a => all1 (P a)) H x Hx).
Qed.

Definition sextet0 (a : N) : N := N.shiftr a 2.
Definition sextet1 (a b : N) : N := N.lor (N.shiftl (N.land a 3) 4) (N.shiftr b 4).
Definition sextet2 (b c : N) : N := N.lor (N.shiftl (N.land b 15) 2) (N.shiftr c 6).
Definition sextet3 (c : N) : N := N.land c 63.

Definition octet0 (s0 s1 : N) : N := N.lor (N.shiftl s0 2) (N.shiftr s1 4).
Definition octet1 (s1 s2 : N) : N := N.lor (N.shiftl (N.land s1 15) 4) (N.shiftr s2 2).
Definition octet2 (s2 s3 : N) : N := N.lor (N.shiftl (N.land s2 3) 6) s3.

Definition first_pair_ok (a b : N) : bool :=
  (sextet0 a <? 64) && (sextet1 a b <? 64)
  && (octet0 (sextet0 a) (sextet1 a b) =? a)
  && (N.land (sextet1 a b) 15 =? N.shiftr b 4).

Definition last_pair_ok (b c : N) : bool :=
  (sextet2 b c <? 64) && (sextet3 c <? 64)
  && (N.shiftr (sextet2 b c) 2 =? N.land b 15)
  && (octet2 (sextet2 b c) (sextet3 c) =? c).

Definition nibbles_ok (b _ : N) : bool :=
  N.lor (N.shiftl (N.shiftr b 4) 4) (N.shiftr (N.shiftl (N.land b 15) 2) 2) =? b.

Lemma first_pair (a b : N) :
  a <= 255 -> b <= 255 ->
  sextet0 a < 64 /\ sextet1 a b < 64
  /\ octet0 (sextet0 a) (sextet1 a b) = a
  /\ N.land (sextet1 a b) 15 = N.shiftr b 4.
Proof.
  intros Ha Hb.
  assert (H : all2 first_pair_ok = true) by (vm_compute; reflexivity).
  apply all2_spec with (x := a) (y := b) in H; [|assumption..].
  unfold first_pair_ok in H.
  repeat (apply andb_prop in H; destruct H as [H ?]).
  repeat split; try (now apply N.ltb_lt); now apply N.eqb_eq.
Qed.

Lemma last_pair (b c : N) :
  b <= 255 -> c <= 255 ->
  sextet2 b c < 64 /\ sextet3 c < 64
  /\ N.shiftr (sextet2 b c) 2 = N.land b 15
  /\ octet2 (sextet2 b c) (sextet3 c) = c.
Proof.
  intros Hb Hc.
  assert (H : all2 last_pair_ok = true) by (vm_compute; reflexivity).
  apply all2_spec with (x := b) (y := c) in H; [|assumption..].
  unfold last_pair_ok in H.
  repeat (apply andb_prop in H; destruct H as [H ?]).
  repeat split; try (now apply N.ltb_lt); now apply N.eqb_eq.
Qed.

Lemma nibbles (b : N) :
  b <= 255 ->
  N.lor (N.shiftl (N.shiftr b 4) 4) (N.shiftr (N.shiftl (N.land b 15) 2) 2) = b.
Proof.
  intros Hb.
  assert (H : all1 (fun x => nibbles_ok x 0) = true) by (vm_compute; reflexivity).
  apply all1_spec with (x := b) in H; [|assumption].
  now apply N.eqb_eq.
Qed.

Lemma middle_octet (a b c : N) :
  a <= 255 -> b <= 255 -> c <= 255 ->
  octet1 (sextet1 a b) (sextet2 b c) = b.
Proof.
  intros Ha Hb Hc. unfold octet1.
  destruct (first_pair a b Ha Hb) as (_ & _ & _ & ->).
  destruct (last_pair b c Hb Hc) as (_ & _ & -> & _).
  pose proof (nibbles b Hb) as Hn.
  assert (Hs : N.shiftr (N.shiftl (N.land b 15) 2) 2 = N.land b 15)
    by (rewrite N.shiftr_shiftl_l by lia; apply N.shiftl_0_r).
  now rewrite Hs in Hn.
Qed.

(** Lists are taken three code units at a time, as [btoa_units] does. *)
Lemma list_ind3 (A : Type) (P : list A -> Prop) :
  P [] -> (forall a, P [a]) -> (forall a b, P [a; b]) ->
  (forall a b c r, P r -> P (a :: b :: c :: r)) ->
  forall l, P l.
Proof.
  intros H0 H1 H2 H3.
  assert (H : forall l, P l /\ (forall a, P (a :: l)) /\ (forall a b, P (a :: b :: l))).
  { induction l as [|c r (IH0 & IH1 & IH2)]; [now auto|].
    repeat split; auto. }
  intros l. apply H.
Qed.

(** The radix-64 digits of a string, and the padding that follows them. *)
Fixpoint sextets (s : jsstring) : list N :=
  match s with
  | [] => []
  | [a] => [sextet0 a; sextet1 a 0]
  | [a; b] => [sextet0 a; sextet1 a b; sextet2 b 0]
  | a :: b :: c :: r =>
      sextet0 a :: sextet1 a b :: sextet2 b c :: sextet3 c :: sextets r
  end.

Fixpoint padding (s : jsstring) : jsstring :=
  match s with
  | [] => []
  | [a] => [b64_pad; b64_pad]
  | [a; b] => [b64_pad]
  | a :: b :: c :: r => padding r
  end.

Lemma btoa_units_split (s : jsstring) :
  btoa_units s = map b64_char (sextets s) ++ padding s.
Proof.
  induction s as [|a|a b|a b c r IH] using list_ind3; try reflexivity.
  - cbn [btoa_units sextets padding map app]. unfold sextet1, sextet0.
    now rewrite N.lor_0_r.
  - cbn [btoa_units sextets padding map app]. unfold sextet2.
    now rewrite N.lor_0_r.
  - cbn [btoa_units sextets padding map app]. now rewrite IH.
Qed.

Lemma sextets_bounded (s : jsstring) :
  Forall (fun c => c <= 255) s -> Forall (fun v => v < 64) (sextets s).
Proof.
  induction s as [|a|a b|a b c r IH] using list_ind3; intros H; cbn [sextets].
  - constructor.
  - inversion_clear H as [|? ? Ha _].
    destruct (first_pair a 0 Ha ltac:(lia)) as (? & ? & _).
    repeat constructor; assumption.
  - inversion_clear H as [|? ? Ha H']. inversion_clear H' as [|? ? Hb _].
    destruct (first_pair a b Ha Hb) as (? & ? & _).
    destruct (last_pair b 0 Hb ltac:(lia)) as (? & _).
    repeat constructor; assumption.
  - inversion_clear H as [|? ? Ha H']. inversion_clear H' as [|? ? Hb H''].
    inversion_clear H'' as [|? ? Hc Hr].
    destruct (first_pair a b Ha Hb) as (? & ? & _).
    destruct (last_pair b c Hb Hc) as (? & ? & _).
    repeat (constructor; [assumption|]). auto.
Qed.

Lemma atob_units_sextets (s : jsstring) :
  Forall (fun c => c <= 255) s -> atob_units (sextets s) = s.
Proof.
  induction s as [|a|a b|a b c r IH] using list_ind3; intros H; cbn [sextets].
  - reflexivity.
  - inversion_clear H as [|? ? Ha _].
    destruct (first_pair a 0 Ha ltac:(lia)) as (_ & _ & E & _).
    cbn [atob_units]. fold (octet0 (sextet0 a) (sextet1 a 0)). now rewrite E.
  - inversion_clear H as [|? ? Ha H']. inversion_clear H' as [|? ? Hb _].
    destruct (first_pair a b Ha Hb) as (_ & _ & E & _).
    pose proof (middle_octet a b 0 Ha Hb ltac:(lia)) as E'.
    cbn [atob_units].
    fold (octet0 (sextet0 a) (sextet1 a b)).
    fold (octet1 (sextet1 a b) (sextet2 b 0)). now rewrite E, E'.
  - inversion_clear H as [|? ? Ha H']. inversion_clear H' as [|? ? Hb H''].
    inversion_clear H'' as [|? ? Hc Hr].
    destruct (first_pair a b Ha Hb) as (_ & _ & E & _).
    destruct (last_pair b c Hb Hc) as (_ & _ & _ & E'').
    pose proof (middle_octet a b c Ha Hb Hc) as E'.
    cbn [atob_units].
    fold (octet0 (sextet0 a) (sextet1 a b)).
    fold (octet1 (sextet1 a b) (sextet2 b c)).
    fold (octet2 (sextet2 b c) (sextet3 c)).
    now rewrite E, E', E'', IH.
Qed.

Definition digit_ok (v _ : N) : bool :=
  if v <? 64 then
    match b64_value (b64_char v) with Some w => w =? v | None => false end
    && negb (is_ascii_whitespace (b64_char v))
    && negb (b64_char v =? b64_pad)
  else true.

Lemma digit (v : N) :
  v < 64 ->
  b64_value (b64_char v) = Some v
  /\ is_ascii_whitespace (b64_char v) = false
  /\ (b64_char v =? b64_pad) = false.
Proof.
  intros Hv.
  assert (H : all1 (fun x => digit_ok x 0) = true) by (vm_compute; reflexivity).
  apply all1_spec with (x := v) in H; [|lia].
  unfold digit_ok in H. apply N.ltb_lt in Hv. rewrite Hv in H.
  repeat (apply andb_prop in H; destruct H as [H ?]).
  destruct (b64_value (b64_char v)) as [w|]; [|discriminate].
  apply N.eqb_eq in H. subst w.
  repeat split; now apply negb_true_iff.
Qed.

Lemma b64_values_digits (vs : list N) :
  Forall (fun v => v < 64) vs -> b64_values (map b64_char vs) = Some vs.
Proof.
  induction 1 as [|v vs Hv _ IH]; simpl; [reflexivity|].
  destruct (digit v Hv) as (-> & _). now rewrite IH.
Qed.

Lemma padding_cases (s : jsstring) :
  padding s = [] \/ padding s = [b64_pad] \/ padding s = [b64_pad; b64_pad].
Proof.
  induction s as [|a|a b|a b c r IH] using list_ind3; cbn [padding]; auto.
Qed.

Lemma no_whitespace (vs : list N) (s : jsstring) :
  Forall (fun v => v < 64) vs ->
  filter (fun c => negb (is_ascii_whitespace c)) (map b64_char vs ++ padding s)
  = map b64_char vs ++ padding s.
Proof.
  intros H. rewrite filter_app. f_equal.
  - induction H as [|v vs Hv _ IH]; simpl; [reflexivity|].
    destruct (digit v Hv) as (_ & -> & _). simpl. now rewrite IH.
  - destruct (padding_cases s) as [-> | [-> | ->]]; reflexivity.
Qed.

Ltac Zify.zify_post_hook ::= Z.to_euclidean_division_equations.

Lemma sextets_length (s : jsstring) :
  N.of_nat (length (sextets s)) mod 4 <> 1
  /\ N.of_nat (length (sextets s) + length (padding s)) mod 4 = 0.
Proof.
  induction s as [|a|a b|a b c r IH] using list_ind3;
    cbn [sextets padding length]; try (split; [discriminate|reflexivity]).
  destruct IH as [IH1 IH2]. cbn [Nat.add]. split; lia.
Qed.

Lemma strip_padding_btoa (s : jsstring) :
  Forall (fun v => v < 64) (sextets s) ->
  strip_padding (map b64_char (sextets s) ++ padding s) = map b64_char (sextets s).
Proof.
  intros H. unfold strip_padding.
  rewrite length_app, length_map.
  destruct (sextets_length s) as [_ ->]. cbn [N.eqb].
  rewrite rev_app_distr, <- map_rev.
  apply Forall_rev in H.
  assert (Hrev : map b64_char (sextets s) = rev (map b64_char (rev (sextets s))))
    by (now rewrite map_rev, rev_involutive).
  destruct (padding_cases s) as [-> | [-> | ->]]; cbn [rev app].
  - rewrite app_nil_r.
    destruct (rev (sextets s)) as [|v r]; [reflexivity|].
    inversion_clear H as [|? ? Hv _]. cbn [map].
    now destruct (digit v Hv) as (_ & _ & ->).
  - rewrite N.eqb_refl.
    destruct (rev (sextets s)) as [|v r]; cbn [map]; [exact (eq_sym Hrev)|].
    inversion_clear H as [|? ? Hv _].
    destruct (digit v Hv) as (_ & _ & ->). exact (eq_sym Hrev).
  - rewrite !N.eqb_refl. exact (eq_sym Hrev).
Qed.

(** [atob] undoes [btoa] on every string that [btoa] accepts. *)
Lemma atob_btoa (s : jsstring) :
  Forall (fun c => c <= 255) s -> atob (btoa_units s) = Some s.
Proof.
  intros H. pose proof (sextets_bounded s H) as Hs.
  unfold atob. rewrite btoa_units_split, no_whitespace by assumption.
  rewrite strip_padding_btoa by assumption.
  rewrite length_map.
  destruct (sextets_length s) as [Hl _].
  apply N.eqb_neq in Hl. rewrite Hl.
  rewrite b64_values_digits by assumption.
  now rewrite atob_units_sextets.
Qed.

Lemma btoa_accepts (s : jsstring) :
  Forall (fun c => c <= 255) s -> btoa s = Some (btoa_units s).
Proof.
  intros H. unfold btoa.
  assert (E : forallb (fun c => c <=? 255) s = true).
  { apply forallb_forall. rewrite Forall_forall in H.
    intros c Hc. apply N.leb_le. now apply H. }
  now rewrite E.
Qed.

Lemma encodeBinary_value (bytes : list byte) :
  encodeBinary bytes = Some (btoa_units (fromCharCode bytes)).
Proof.
  unfold encodeBinary. rewrite encodeBinary_loop_all.
  apply btoa_accepts, fromCharCode_bounded.
Qed.

End CodecFacts.

(** ** Invariants of the socket *)

Module SocketFacts.
Import Codec Socket.

(** The close event was emitted if and only if the closed flag is set. *)
Definition closed_once (s : State) : Prop :=
  close_count s = if isClosed s then 1 else 0.

(** Unfold the operations down to the setters of [State]. *)
Ltac ops :=
  unfold send, queueSend, flushQueue, drain_acked, drain_loop, drain_binary, drain_submit,
    drain_catch, poll_result, poll_catch, startPolling, poll_loop, close, close_finish,
    set_binaryType_property, handleOpen, handleError, handleClose,
    changeState, emit, fetch in *.

(** Read fields through setters. *)
Ltac sim :=
  cbn [readyState binaryType protocol connId isClosed isSending bufferedAmount sendQueue
       connecting drain polling closing trace
       set_readyState set_binaryType set_protocol set_connId set_isClosed set_isSending
       set_bufferedAmount set_sendQueue set_connecting set_drain set_polling set_closing log
       fst snd ReadyState_eqb negb orb andb] in *.

Ltac split_on x := destruct x eqn:?; sim.

(** Case analysis on what the code branches on. *)
Ltac break_match :=
  repeat (sim; match goal with
  | |- context [ReadyState_eqb ?x _] => split_on x
  | H : context [ReadyState_eqb ?x _] |- _ => split_on x
  | |- context [if ?x then _ else _] => split_on x
  | |- context [match ?x with _ => _ end] => split_on x
  | H : context [if ?x then _ else _] |- _ => split_on x
  | H : context [match ?x with _ => _ end] |- _ => split_on x
  end).

Ltac count_events :=
  unfold closed_once, close_count, events in *; sim;
  rewrite ?flat_map_app, ?filter_app, ?length_app in *;
  cbn [flat_map filter is_close length app] in *.

(** One case for each input that is enabled. *)
Ltac step_cases Hs :=
  match type of Hs with
  | step _ ?i = Some _ => destruct i; cbn [step] in Hs
  end;
  repeat match type of Hs with
  | (if ?b then _ else _) = Some _ => destruct b eqn:?; [|try discriminate Hs]
  | match ?x with _ => _ end = Some _ => destruct x eqn:?; try discriminate Hs
  end;
  try (injection Hs as <-).

Lemma handleClose_closed_once c r w s : closed_once s -> closed_once (handleClose c r w s).
Proof.
  intros H. count_events. ops. break_match; count_events; try congruence; try lia.
Qed.

Lemma handleMessage_closed_once m s : closed_once s -> closed_once (handleMessage m s).
Proof.
  intros H. count_events. unfold handleMessage. ops. break_match; count_events; try congruence; try lia.
Qed.

Lemma fold_handleMessage (P : State -> Prop) :
  (forall m s, P s -> P (handleMessage m s)) ->
  forall l s, P s -> P (fold_left (fun st m => handleMessage m st) l s).
Proof.
  intros HP. induction l as [|m l IH]; intros s Hs; cbn [fold_left]; auto.
Qed.

Lemma step_closed_once s i s' : closed_once s -> step s i = Some s' -> closed_once s'.
Proof.
  intros H Hs. step_cases Hs.
  10:{ unfold poll_result.
       assert (H' := fold_handleMessage closed_once handleMessage_closed_once
                       (match messages with Some l => l | None => [] end) s H).
       revert H'. generalize (fold_left (fun st m => handleMessage m st)
                 match messages with Some l => l | None => [] end s).
       clear. intros s H. count_events. ops. break_match; count_events; try congruence; try lia. }
  all: count_events; ops; break_match; count_events; try congruence; try lia.
Qed.

Lemma final_app a l1 l2 : final a (l1 ++ l2) = final (final a l1) l2.
Proof. revert a. induction l1 as [|x l1 IH]; intros a; cbn; auto. Qed.

(** *** The life cycle *)

(** CLOSED is only entered with the closed flag; while the connect request is
    awaited there is no connection id and no poll, and an unfinalized socket
    is CONNECTING; a poll awaited while OPEN means the flag is not set; an
    unfinalized CLOSING socket awaits its close frame; and the record of
    [changeState] ends in [readyState]. *)
Definition life (s : State) : Prop :=
  (readyState s = CLOSED -> isClosed s = true)
  /\ (connecting s = true -> connId s = None /\ polling s = false)
  /\ (connecting s = true -> isClosed s = false -> readyState s = CONNECTING)
  /\ (polling s = true -> readyState s = OPEN -> isClosed s = false)
  /\ (readyState s = CLOSING -> isClosed s = false -> closing s <> [])
  /\ final CONNECTING (states s) = readyState s.


Lemma snoc_not_nil (A : Type) (l : list A) (x : A) : l ++ [x] <> [].
Proof. destruct l; discriminate. Qed.

Ltac forward :=
  repeat match goal with
  | H : ?a -> _, H' : ?a |- _ => specialize (H H')
  | H : ?x = ?x -> _ |- _ => specialize (H eq_refl)
  | H : _ /\ _ |- _ => destruct H
  | E : connId _ = None, H : context [truthy (connId _)] |- _ => rewrite E in H; cbn [truthy] in H
  end.

Ltac life_norm :=
  unfold life, states in *; sim;
  rewrite ?flat_map_app in *;
  cbn [flat_map app] in *;
  rewrite ?app_nil_r, ?final_app in *;
  cbn [final] in *.

Ltac life_fin :=
  life_norm; cbn [truthy] in *;
  repeat match goal with
  | H : _ /\ _ |- _ => destruct H
  end;
  try discriminate;
  repeat split; intros; forward; try congruence; try discriminate;
  try apply snoc_not_nil;
  try solve [intuition congruence].

Lemma handleMessage_life m s : life s -> life (handleMessage m s).
Proof.
  intros H. life_norm. unfold handleMessage. ops. break_match; life_fin.
Qed.

Lemma step_life s i s' : life s -> step s i = Some s' -> life s'.
Proof.
  intros H Hs. step_cases Hs.
  10:{ unfold poll_result.
       assert (H' := fold_handleMessage life handleMessage_life
                       (match messages with Some l => l | None => [] end) s H).
       assert (Hp : polling (fold_left (fun st m => handleMessage m st)
                 match messages with Some l => l | None => [] end s) = true). 
       { apply (fold_handleMessage (fun st => polling st = true)); auto.
         intros m0 s0 Hp. unfold handleMessage. ops. break_match; auto. }
       revert H' Hp. generalize (fold_left (fun st m => handleMessage m st)
                 match messages with Some l => l | None => [] end s).
       clear. intros s H Hp. life_norm. ops. break_match; life_fin. }
  all: life_norm; ops; break_match; life_fin.
Qed.

(** *** The queue and its drain *)

(** Each item of the queue carries the size computed for its payload. *)
Definition sized (q : list (Payload * Z)) : Prop :=
  Forall (fun x => snd x = calculateSize (fst x)) q.

(** What the drain has done with the head of the queue, [done] being the
    payloads already taken off the queue. *)
Definition drain_position (done : list Payload) (s : State) : Prop :=
  match drain s with
  | DrainAwaitFetch size =>
      exists d rest, sendQueue s = (d, size) :: rest
        /\ map Some (submitted s) = map frame_of (done ++ [d])
  | DrainAwaitBlob bytes size =>
      exists rest, sendQueue s = (PBlob bytes, size) :: rest
        /\ map Some (submitted s) = map frame_of done
  | DrainIdle =>
      map Some (submitted s) = map frame_of done
      \/ (isClosed s = true
          /\ exists d size rest, sendQueue s = (d, size) :: rest
               /\ map Some (submitted s) = map frame_of (done ++ [d]))
  end.

(** The queue after [nack] acknowledgments and [nset] responses: [isSending]
    tells whether a drain is suspended, the buffered amount is the total of
    the queue, an idle drain of an unfinalized socket has emptied the queue,
    all submissions but the one in flight have their response, and the
    accepted payloads are those taken off the queue followed by the queue. *)
Definition queue_inv (nack nset : nat) (s : State) : Prop :=
  (isSending s = false <-> drain s = DrainIdle)
  /\ sized (sendQueue s)
  /\ bufferedAmount s = total_size (sendQueue s)
  /\ (drain s = DrainIdle -> isClosed s = false -> sendQueue s = [])
  /\ length (submitted s) = nset + inflight s
  /\ exists done, accepted s = done ++ map fst (sendQueue s)
       /\ length done = nack /\ drain_position done s.

(** An operation that leaves the queue and its drain alone. *)
Definition same_queue (s s' : State) : Prop :=
  sendQueue s' = sendQueue s /\ drain s' = drain s /\ isSending s' = isSending s
  /\ bufferedAmount s' = bufferedAmount s /\ accepted s' = accepted s
  /\ submitted s' = submitted s /\ (isClosed s = true -> isClosed s' = true).

Lemma same_queue_refl s : same_queue s s.
Proof. repeat split; auto. Qed.

Lemma same_queue_trans s1 s2 s3 : same_queue s1 s2 -> same_queue s2 s3 -> same_queue s1 s3.
Proof. unfold same_queue. intuition congruence. Qed.

Lemma same_queue_inv a b s s' : same_queue s s' -> queue_inv a b s -> queue_inv a b s'.
Proof.
  intros (Hq & Hd & Hs & Hb & Ha & Hsub & Hc) (I1 & I2 & I3 & I4 & I5 & done & I6 & I7 & I8).
  unfold queue_inv, inflight, drain_position in *.
  rewrite Hq, Hd, Hs, Hb, Ha, Hsub.
  repeat split; try tauto.
  - intros E1 E2. apply I4; auto. destruct (isClosed s); auto. now rewrite Hc in E2.
  - exists done. repeat split; auto.
    destruct (drain s); auto. destruct I8 as [I8 | (I8 & I9)]; auto.
Qed.

Ltac queue_norm :=
  unfold same_queue, accepted, submitted in *; sim;
  rewrite ?flat_map_app in *;
  cbn [flat_map app] in *;
  rewrite ?app_nil_r in *.

Lemma handleClose_same_queue c r w s : same_queue s (handleClose c r w s).
Proof. queue_norm; ops; break_match; queue_norm; repeat split; intros; auto; try congruence. Qed.

Lemma handleError_same_queue e s : same_queue s (handleError e s).
Proof. queue_norm; ops; break_match; queue_norm; repeat split; intros; auto; try congruence. Qed.

Lemma handleMessage_same_queue m s : same_queue s (handleMessage m s).
Proof. queue_norm; unfold handleMessage; ops; break_match; queue_norm; repeat split; intros; auto; try congruence. Qed.

Lemma fold_handleMessage_same_queue l s :
  same_queue s (fold_left (fun st m => handleMessage m st) l s).
Proof.
  revert s. induction l as [|m l IH]; intros s; cbn [fold_left].
  - apply same_queue_refl.
  - eapply same_queue_trans; [apply handleMessage_same_queue | apply IH].
Qed.

Lemma poll_loop_same_queue s : same_queue s (poll_loop s).
Proof. queue_norm; ops; break_match; queue_norm; repeat split; intros; auto; try congruence. Qed.

Lemma close_same_queue c r s : same_queue s (close c r s).
Proof. queue_norm; ops; break_match; queue_norm; repeat split; intros; auto; try congruence. Qed.

Lemma calculateSize_nonneg d : (0 <= calculateSize d)%Z.
Proof. destruct d; cbn; lia. Qed.

Lemma total_size_nonneg q : sized q -> (0 <= total_size q)%Z.
Proof.
  induction 1 as [|[d size] q Hd _ IH]; cbn in *; [lia|].
  subst size. pose proof (calculateSize_nonneg d). lia.
Qed.

Lemma submitted_fetch_text s c text :
  submitted (fetch (SendRequest c (TextFrame text)) s) = submitted s ++ [TextFrame text].
Proof. unfold submitted, fetch. sim. now rewrite flat_map_app. Qed.

Lemma submitted_fetch_binary s c data :
  submitted (fetch (SendRequest c (BinaryFrame data)) s) = submitted s ++ [BinaryFrame data].
Proof. unfold submitted, fetch. sim. now rewrite flat_map_app. Qed.

(** The drain at the test of its loop: [done] is off the queue and nothing
    is being submitted. *)
Definition at_loop (nack nset : nat) (s : State) : Prop :=
  isSending s = true
  /\ sized (sendQueue s)
  /\ bufferedAmount s = total_size (sendQueue s)
  /\ length (submitted s) = nset
  /\ exists done, accepted s = done ++ map fst (sendQueue s)
       /\ length done = nack
       /\ map Some (submitted s) = map frame_of done.

Lemma drain_catch_inv a b e s :
  sized (sendQueue s) ->
  bufferedAmount s = total_size (sendQueue s) ->
  length (submitted s) = b ->
  (exists done, accepted s = done ++ map fst (sendQueue s)
       /\ length done = a
       /\ (map Some (submitted s) = map frame_of done
           \/ exists d size rest, sendQueue s = (d, size) :: rest
               /\ map Some (submitted s) = map frame_of (done ++ [d]))) ->
  queue_inv a b (drain_catch e s).
Proof.
  intros H1 H2 H3 (done & H4 & H5 & H6).
  pose proof (handleError_same_queue e s) as (Q1 & Q2 & Q3 & Q4 & Q5 & Q6 & Q7).
  assert (Hc : isClosed (handleError e s) = true).
  { clear. ops. break_match; auto. }
  unfold queue_inv, drain_catch, inflight, drain_position. sim.
  unfold accepted, submitted in *. sim.
  rewrite Q1, Q4, Q5, Q6.
  repeat split; auto; try congruence; try lia.
  exists done. repeat split; auto.
  destruct H6 as [H6 | H6]; auto.
Qed.

Definition data_frame (body : Frame) : Prop :=
  match body with
  | CloseFrame _ _ => False
  | _ => True
  end.

Lemma frame_of_data d body : frame_of d = Some body -> data_frame body.
Proof.
  destruct d; cbn; try discriminate.
  1: intros [= <-]; exact I.
  all: destruct (encodeBinary _); cbn; try discriminate; intros [= <-]; exact I.
Qed.

Lemma drain_submit_spec body size s :
  data_frame body ->
  sendQueue (drain_submit body size s) = sendQueue s
  /\ isSending (drain_submit body size s) = isSending s
  /\ bufferedAmount (drain_submit body size s) = bufferedAmount s
  /\ isClosed (drain_submit body size s) = isClosed s
  /\ accepted (drain_submit body size s) = accepted s
  /\ drain (drain_submit body size s) = DrainAwaitFetch size
  /\ submitted (drain_submit body size s) = submitted s ++ [body].
Proof.
  intros Hb. unfold drain_submit, fetch, accepted, submitted. sim.
  rewrite !flat_map_app. cbn [flat_map app]. rewrite !app_nil_r.
  repeat split. destruct body; [reflexivity | reflexivity | destruct Hb].
Qed.

Lemma drain_submit_inv a b body size d rest s :
  frame_of d = Some body ->
  sendQueue s = (d, size) :: rest ->
  at_loop a b s ->
  queue_inv a b (drain_submit body size s).
Proof.
  intros Hf Hq (H0 & H1 & H2 & H3 & done & H4 & H5 & H6).
  destruct (drain_submit_spec body size s (frame_of_data d body Hf))
    as (E1 & E2 & E3 & E4 & E5 & E6 & E7).
  unfold queue_inv, drain_position, inflight.
  rewrite E1, E2, E3, E5, E6, E7.
  repeat split; try congruence; auto.
  - rewrite length_app. cbn. lia.
  - exists done. repeat split; auto.
    exists d, rest. split; [exact Hq|].
    rewrite !map_app, H6. cbn. now rewrite Hf.
Qed.

Lemma drain_end_inv a b s :
  (sendQueue s = [] \/ isClosed s = true) ->
  at_loop a b s ->
  queue_inv a b (set_drain DrainIdle (set_isSending false s)).
Proof.
  intros Hq (H0 & H1 & H2 & H3 & done & H4 & H5 & H6).
  unfold queue_inv, drain_position, inflight, accepted, submitted in *. sim.
  repeat split; auto; try lia.
  - intros _ E. destruct Hq; congruence.
  - exists done. auto.
Qed.

Lemma at_loop_catch a b e s : at_loop a b s -> queue_inv a b (drain_catch e s).
Proof.
  intros (H0 & H1 & H2 & H3 & done & H4 & H5 & H6).
  apply drain_catch_inv; auto. exists done. auto.
Qed.

Lemma drain_binary_inv a b bytes d size rest s :
  frame_of d = option_map BinaryFrame (encodeBinary bytes) ->
  sendQueue s = (d, size) :: rest ->
  at_loop a b s ->
  queue_inv a b (drain_binary bytes size s).
Proof.
  intros Hf Hq H. unfold drain_binary.
  destruct (encodeBinary bytes) as [data|]; cbn in Hf.
  - eapply drain_submit_inv; eauto.
  - now apply at_loop_catch.
Qed.

Lemma drain_loop_inv a b s : at_loop a b s -> queue_inv a b (drain_loop s).
Proof.
  intros H. unfold drain_loop.
  destruct (sendQueue s) as [|[d size] rest] eqn:Hq.
  - apply drain_end_inv; auto.
  - destruct (isClosed s) eqn:Hc; [apply drain_end_inv; auto|].
    destruct d.
    + eapply drain_submit_inv; eauto. reflexivity.
    + eapply drain_binary_inv; eauto. reflexivity.
    + eapply drain_binary_inv; eauto. reflexivity.
    + destruct H as (H0 & H1 & H2 & H3 & done & H4 & H5 & H6).
      unfold queue_inv, drain_position, inflight, accepted, submitted in *. sim.
      repeat split; auto; try congruence; try lia.
      exists done. repeat split; auto. exists rest. auto.
    + now apply at_loop_catch.
Qed.

Lemma total_size_app q1 q2 : total_size (q1 ++ q2) = (total_size q1 + total_size q2)%Z.
Proof. induction q1 as [|[d size] q1 IH]; cbn; lia. Qed.

Lemma queueSend_inv a b d s : queue_inv a b s -> queue_inv a b (snd (queueSend d s)).
Proof.
  intros (I1 & I2 & I3 & I4 & I5 & done & I6 & I7 & I8).
  unfold queueSend.
  destruct (negb (ReadyState_eqb (readyState s) OPEN)); cbn [snd].
  { repeat split; try tauto. exists done; auto. }
  set (size := calculateSize d).
  set (s1 := set_bufferedAmount _ _).
  assert (Hq : sendQueue s1 = sendQueue s ++ [(d, size)]) by reflexivity.
  assert (Hacc : accepted s1 = accepted s ++ [d]).
  { unfold accepted, s1. sim. rewrite flat_map_app. reflexivity. }
  assert (Hsub : submitted s1 = submitted s).
  { unfold submitted, s1. sim. rewrite flat_map_app. cbn [flat_map app]. now rewrite app_nil_r. }
  assert (Hsized : sized (sendQueue s1)).
  { rewrite Hq. apply Forall_app. split; auto. }
  assert (Hbuf : bufferedAmount s1 = total_size (sendQueue s1)).
  { rewrite Hq, total_size_app. unfold s1. sim. cbn. lia. }
  assert (Hdone : accepted s1 = done ++ map fst (sendQueue s1)).
  { rewrite Hacc, Hq, I6, map_app, app_assoc. reflexivity. }
  unfold flushQueue.
  change (isSending s1) with (isSending s). change (isClosed s1) with (isClosed s).
  destruct (isSending s) eqn:Hs; cbn [orb].
  { (* a drain is suspended: the frame waits behind it *)
    assert (Hd : drain s <> DrainIdle) by (intros E; apply I1 in E; discriminate).
    unfold queue_inv, inflight, drain_position.
    change (drain s1) with (drain s). change (isSending s1) with (isSending s).
    change (isClosed s1) with (isClosed s).
    rewrite Hsub. repeat split; auto; try tauto; try (intros; congruence).
    exists done. repeat split; auto.
    unfold drain_position in I8. rewrite Hq.
    destruct (drain s); [congruence| |].
    - destruct I8 as (rest & E1 & E2). exists (rest ++ [(d, size)]). now rewrite E1.
    - destruct I8 as (d0 & rest & E1 & E2). exists d0, (rest ++ [(d, size)]). now rewrite E1. }
  assert (Hd : drain s = DrainIdle) by (now apply I1).
  assert (Hm : match sendQueue s1 with [] => true | _ :: _ => false end = false)
    by (rewrite Hq; now destruct (sendQueue s)).
  rewrite Hm. cbn [orb].
  destruct (isClosed s) eqn:Hc.
  { unfold queue_inv, inflight, drain_position.
    change (drain s1) with (drain s). change (isSending s1) with (isSending s).
    change (isClosed s1) with (isClosed s).
    rewrite Hsub, Hd, Hc. repeat split; auto; try congruence.
    - rewrite I5. unfold inflight. now rewrite Hd.
    - exists done. repeat split; auto.
      unfold drain_position in I8. rewrite Hd in I8.
      destruct I8 as [I8 | (_ & d0 & size0 & rest & E1 & E2)]; auto.
      right. split; auto. exists d0, size0, (rest ++ [(d, size)]).
      rewrite Hq, E1. auto. }
  apply drain_loop_inv. unfold at_loop.
  change (sendQueue (set_isSending true s1)) with (sendQueue s1).
  change (bufferedAmount (set_isSending true s1)) with (bufferedAmount s1).
  change (accepted (set_isSending true s1)) with (accepted s1).
  change (submitted (set_isSending true s1)) with (submitted s1).
  repeat split; auto.
  - rewrite Hsub, I5. unfold inflight. rewrite Hd. lia.
  - exists done. repeat split; auto. rewrite Hsub.
    unfold drain_position in I8. rewrite Hd in I8.
    destruct I8 as [I8 | (E & _)]; [auto | congruence].
Qed.

Lemma drain_acked_inv a b size s :
  drain s = DrainAwaitFetch size -> queue_inv a b s ->
  queue_inv (a + 1) (b + 1) (drain_acked size s).
Proof.
  intros Hd (I1 & I2 & I3 & I4 & I5 & done & I6 & I7 & I8).
  unfold drain_position in I8. rewrite Hd in I8.
  destruct I8 as (d & rest & Hq & Hsub).
  unfold inflight in I5. rewrite Hd in I5.
  unfold drain_acked. apply drain_loop_inv.
  rewrite Hq in I2. inversion_clear I2 as [|? ? Hsz Hrest].
  pose proof (total_size_nonneg rest Hrest) as Hnn.
  unfold at_loop, accepted, submitted in *. sim.
  rewrite !flat_map_app. cbn [flat_map app]. rewrite !app_nil_r.
  rewrite Hq in *. cbn [tl total_size map fst] in *.
  assert (E : (bufferedAmount s - size)%Z = total_size rest) by lia.
  rewrite E. destruct (total_size rest <? 0)%Z eqn:Hneg; [lia|].
  repeat split; auto.
  - destruct (isSending s) eqn:Hs; auto. destruct I1 as [I1 _]. specialize (I1 eq_refl). congruence.
  - exists (done ++ [d]). rewrite <- app_assoc. cbn. repeat split; auto.
    rewrite length_app. cbn. lia.
Qed.

Lemma sending_of_drain a b s :
  queue_inv a b s -> drain s <> DrainIdle -> isSending s = true.
Proof.
  intros (I1 & _) Hd. destruct (isSending s); auto. destruct I1 as [I1 _].
  now specialize (I1 eq_refl).
Qed.

Lemma step_queue_inv a b s i s' :
  queue_inv a b s -> step s i = Some s' ->
  queue_inv (a + ack1 i) (b + settle1 i) s'.
Proof.
  intros H Hs. step_cases Hs; cbn [ack1 settle1]; rewrite ?Nat.add_0_r.
  - now apply queueSend_inv.
  - eapply same_queue_inv; [apply close_same_queue | exact H].
  - eapply same_queue_inv; [|exact H].
    unfold set_binaryType_property. destruct (jsstring_eqb _ _); repeat split; auto.
  - eapply same_queue_inv; [|exact H].
    queue_norm; ops; break_match; queue_norm; repeat split; intros; auto; try congruence.
  - eapply same_queue_inv; [|exact H].
    eapply same_queue_trans; [|apply handleError_same_queue]. repeat split; auto.
  - (* BlobRead *)
    pose proof (sending_of_drain a b s H ltac:(congruence)) as Hsend.
    destruct H as (I1 & I2 & I3 & I4 & I5 & done & I6 & I7 & I8).
    unfold drain_position in I8. unfold inflight in I5. rewrite Heqd in I8, I5.
    destruct I8 as (rest & Hq & Hsub).
    eapply drain_binary_inv; [|exact Hq|].
    + reflexivity.
    + repeat split; auto; try lia. exists done. auto.
  - (* BlobFail *)
    destruct H as (I1 & I2 & I3 & I4 & I5 & done & I6 & I7 & I8).
    unfold drain_position in I8. unfold inflight in I5. rewrite Heqd in I8, I5.
    destruct I8 as (rest & Hq & Hsub).
    apply drain_catch_inv; auto; try lia. exists done. auto.
  - now apply drain_acked_inv.
  - (* SendFail *)
    destruct H as (I1 & I2 & I3 & I4 & I5 & done & I6 & I7 & I8).
    unfold drain_position in I8. unfold inflight in I5. rewrite Heqd in I8, I5.
    destruct I8 as (d & rest & Hq & Hsub).
    apply drain_catch_inv; auto. exists done. repeat split; auto.
    right. exists d, size, rest. auto.
  - eapply same_queue_inv; [|exact H]. unfold poll_result.
    eapply same_queue_trans; [apply fold_handleMessage_same_queue | apply poll_loop_same_queue].
  - eapply same_queue_inv; [|exact H]. unfold poll_catch.
    destruct (isClosed s) eqn:Hc; [repeat split; auto|].
    eapply same_queue_trans; [apply handleError_same_queue|]. repeat split; auto.
  - eapply same_queue_inv; [|exact H]. unfold close_finish.
    eapply same_queue_trans; [|apply handleClose_same_queue]. repeat split; auto.
Qed.

(** *** The walk of [readyState] *)

(** From [s] to [s'] the state took only transitions of [allowed_by_design]. *)
Definition moves (s s' : State) : Prop :=
  exists new, states s' = states s ++ new
    /\ chain allowed_by_design (readyState s) new = true.

Lemma chain_app rel a l1 l2 :
  chain rel a (l1 ++ l2) = chain rel a l1 && chain rel (final a l1) l2.
Proof.
  revert a. induction l1 as [|x l1 IH]; intros a; [reflexivity|].
  cbn [app chain final]. now rewrite IH, andb_assoc.
Qed.

Lemma moves_refl s : moves s s.
Proof. exists []. now rewrite app_nil_r. Qed.

Lemma moves_trans s1 s2 s3 :
  life s1 -> life s2 -> moves s1 s2 -> moves s2 s3 -> moves s1 s3.
Proof.
  intros L1 L2 (n1 & E1 & C1) (n2 & E2 & C2).
  exists (n1 ++ n2). split; [now rewrite E2, E1, app_assoc|].
  rewrite chain_app, C1. cbn [andb].
  replace (final (readyState s1) n1) with (readyState s2); [exact C2|].
  destruct L1 as (_ & _ & _ & _ & _ & <-), L2 as (_ & _ & _ & _ & _ & <-).
  rewrite E1. apply final_app.
Qed.

Ltac moves_fin :=
  unfold moves; life_norm;
  eexists; split;
  [ first [ rewrite <- ?app_assoc; cbn [app]; reflexivity | symmetry; apply app_nil_r ]
  | cbn [chain allowed_by_design allowed andb]; rewrite ?orb_true_r, ?orb_false_r in *;
    forward; try reflexivity; try congruence;
    try solve [intuition congruence] ].

Lemma handleClose_moves c r w s : life s -> moves s (handleClose c r w s).
Proof.
  intros L. unfold moves. life_norm. ops. destruct (readyState s) eqn:Hr; break_match; moves_fin.
Qed.

Lemma handleError_moves e s : life s -> moves s (handleError e s).
Proof.
  intros L. unfold moves. life_norm. ops. destruct (readyState s) eqn:Hr; break_match; moves_fin.
Qed.

Lemma handleMessage_moves m s : life s -> moves s (handleMessage m s).
Proof.
  intros L. unfold moves. life_norm. unfold handleMessage. ops. destruct (readyState s) eqn:Hr; break_match; moves_fin.
Qed.

Lemma fold_handleMessage_moves l s :
  life s -> moves s (fold_left (fun st m => handleMessage m st) l s).
Proof.
  revert s. induction l as [|m l IH]; intros s L; cbn [fold_left].
  - apply moves_refl.
  - pose proof (handleMessage_life m s L) as L'.
    eapply moves_trans;
      [exact L | exact L' | now apply handleMessage_moves | now apply IH].
Qed.

Lemma poll_loop_moves s : life s -> moves s (poll_loop s).
Proof. intros L. unfold moves. life_norm. ops. break_match; moves_fin. Qed.

Lemma step_moves s i s' :
  life s -> late_open s i = false -> step s i = Some s' -> moves s s'.
Proof.
  intros L Hl Hs. step_cases Hs; cbn [late_open] in Hl.
  10:{ unfold poll_result.
       pose proof (fold_handleMessage_moves
                     (match messages with Some l => l | None => [] end) s L) as M.
       pose proof (fold_handleMessage life handleMessage_life
                     (match messages with Some l => l | None => [] end) s L) as L'.
       eapply moves_trans; [exact L | exact L' | exact M |].
       now apply poll_loop_moves. }
  all: unfold moves; life_norm; ops; destruct (readyState s) eqn:Hr; break_match; moves_fin.
Qed.

(** *** Runs *)

Lemma create_closed_once url p : closed_once (createHttpBridgeWebSocket url p).
Proof. reflexivity. Qed.

Lemma create_life url p : life (createHttpBridgeWebSocket url p).
Proof. unfold life. cbn. repeat split; auto; discriminate. Qed.

Lemma create_queue_inv url p : queue_inv 0 0 (createHttpBridgeWebSocket url p).
Proof.
  unfold queue_inv, inflight, drain_position. cbn. repeat split; auto.
  - constructor.
  - exists []. auto.
Qed.

Lemma run_closed_once inputs : forall s s',
  closed_once s -> run s inputs = Some s' -> closed_once s'.
Proof.
  induction inputs as [|i r IH]; intros s s' H Hr; cbn [run] in Hr.
  - now injection Hr as <-.
  - destruct (step s i) as [s1|] eqn:Hs; [|discriminate].
    eapply IH; [|exact Hr]. eapply step_closed_once; eauto.
Qed.

Lemma run_life inputs : forall s s', life s -> run s inputs = Some s' -> life s'.
Proof.
  induction inputs as [|i r IH]; intros s s' H Hr; cbn [run] in Hr.
  - now injection Hr as <-.
  - destruct (step s i) as [s1|] eqn:Hs; [|discriminate].
    eapply IH; [|exact Hr]. eapply step_life; eauto.
Qed.

Lemma run_queue_inv inputs : forall s s' a b,
  queue_inv a b s -> run s inputs = Some s' ->
  queue_inv (a + acks inputs) (b + settled inputs) s'.
Proof.
  induction inputs as [|i r IH]; intros s s' a b H Hr; cbn [run acks settled] in *.
  - injection Hr as <-. now rewrite !Nat.add_0_r.
  - destruct (step s i) as [s1|] eqn:Hs; [|discriminate].
    rewrite !Nat.add_assoc. eapply IH; [|exact Hr]. eapply step_queue_inv; eauto.
Qed.

Lemma run_moves inputs : forall s s',
  life s -> run s inputs = Some s' -> no_late_open s inputs = true -> moves s s'.
Proof.
  induction inputs as [|i r IH]; intros s s' L Hr Hn; cbn [run no_late_open] in *.
  - injection Hr as <-. apply moves_refl.
  - destruct (step s i) as [s1|] eqn:Hs; [|discriminate].
    apply andb_prop in Hn as [Hl Hn]. apply negb_true_iff in Hl.
    pose proof (step_life s i s1 L Hs) as L1.
    eapply moves_trans; [exact L | exact L1 | eapply step_moves; eauto | eauto].
Qed.

Lemma reachable_invariants s :
  reachable s -> closed_once s /\ life s /\ exists a b, queue_inv a b s.
Proof.
  induction 1 as [url p | s i s' _ (IH1 & IH2 & a & b & IH3) Hs].
  - split; [apply create_closed_once|]. split; [apply create_life|].
    exists 0, 0. apply create_queue_inv.
  - split; [eapply step_closed_once; eauto|]. split; [eapply step_life; eauto|].
    eexists _, _. eapply step_queue_inv; eauto.
Qed.

Lemma run_reachable inputs : forall s s',
  reachable s -> run s inputs = Some s' -> reachable s'.
Proof.
  induction inputs as [|i r IH]; intros s s' H Hr; cbn [run] in Hr.
  - now injection Hr as <-.
  - destruct (step s i) as [s1|] eqn:Hs; [|discriminate].
    eapply IH; [|exact Hr]. eapply reachable_step; eauto.
Qed.

Lemma sum_sizes_queue q : sized q -> total_size q = sum_sizes (map fst q).
Proof.
  induction 1 as [|[d size] q Hd _ IH]; cbn in *; [reflexivity|]. now rewrite IH, Hd.
Qed.

Lemma fifo_of_position a b s :
  queue_inv a b s ->
  map Some (submitted s) = map frame_of (firstn (length (submitted s)) (accepted s))
  /\ map fst (sendQueue s) = skipn a (accepted s)
  /\ a <= length (submitted s) <= a + 1.
Proof.
  intros (I1 & I2 & I3 & I4 & I5 & done & I6 & I7 & I8).
  assert (Hlen : forall l, map Some (submitted s) = map frame_of l ->
                           length (submitted s) = length l).
  { intros l E. apply (f_equal (@length _)) in E. now rewrite !length_map in E. }
  split; [|split].
  - unfold drain_position in I8. rewrite I6.
    destruct (drain s).
    + destruct I8 as [E | (_ & d & size & rest & Hq & E)].
      * rewrite (Hlen _ E), firstn_app, firstn_all, Nat.sub_diag. cbn. now rewrite app_nil_r.
      * rewrite (Hlen _ E), Hq. cbn [map fst].
        change (done ++ d :: map fst rest) with (done ++ [d] ++ map fst rest).
        rewrite app_assoc, firstn_app, firstn_all, Nat.sub_diag. cbn. now rewrite app_nil_r.
    + destruct I8 as (rest & Hq & E).
      rewrite (Hlen _ E), firstn_app, firstn_all, Nat.sub_diag. cbn. now rewrite app_nil_r.
    + destruct I8 as (d & rest & Hq & E).
      rewrite (Hlen _ E), Hq. cbn [map fst].
      change (done ++ d :: map fst rest) with (done ++ [d] ++ map fst rest).
      rewrite app_assoc, firstn_app, firstn_all, Nat.sub_diag. cbn. now rewrite app_nil_r.
  - rewrite I6, <- I7, skipn_app, skipn_all, Nat.sub_diag. reflexivity.
  - unfold drain_position in I8. subst a.
    destruct (drain s).
    + destruct I8 as [E | (_ & d & size & rest & Hq & E)]; rewrite (Hlen _ E), ?length_app; cbn; lia.
    + destruct I8 as (rest & Hq & E). rewrite (Hlen _ E). lia.
    + destruct I8 as (d & rest & Hq & E). rewrite (Hlen _ E), length_app. cbn. lia.
Qed.

End SocketFacts.

(** ** Further invariants of the socket *)

Module SessionFacts.
Import Codec Socket SocketFacts Observations.

(** *** Tactics *)

(** Read the record of a state through the operations. *)
Ltac trace_norm :=
  unfold events, requests, states, accepted, submitted in *; sim;
  rewrite ?flat_map_app in *; cbn [flat_map app] in *;
  rewrite ?app_nil_r in *.

Ltac fin := try congruence; try (rewrite ?orb_true_r, ?orb_false_r in *; congruence).

(** The case of an input that is given. *)
Ltac step_at Hs :=
  cbn [step] in Hs;
  repeat match type of Hs with
  | (if ?b then _ else _) = Some _ => destruct b eqn:?; [|try discriminate Hs]
  | match ?x with _ => _ end = Some _ => destruct x eqn:?; try discriminate Hs
  end;
  try (injection Hs as <-).

(** *** After finalization *)

Lemma handleMessage_not_open m s : readyState s <> OPEN -> handleMessage m s = s.
Proof. intros H. unfold handleMessage. destruct (readyState s); auto; congruence. Qed.

Lemma fold_handleMessage_not_open l s :
  readyState s <> OPEN -> fold_left (fun st m => handleMessage m st) l s = s.
Proof.
  induction l as [|m l IH]; intros H; cbn [fold_left]; [reflexivity|].
  rewrite handleMessage_not_open by exact H. now apply IH.
Qed.

Lemma step_inert s i s' :
  life s -> isClosed s = true -> connecting s = false -> step s i = Some s' ->
  events s' = events s /\ readyState s' = readyState s
  /\ isClosed s' = true /\ connecting s' = false.
Proof.
  intros L Hc Hn Hs. step_cases Hs; try congruence.
  8:{ destruct L as (_ & _ & _ & L4 & _).
      assert (Hno : readyState s <> OPEN).
      { intros Ho. specialize (L4 Heqb Ho). congruence. }
      unfold poll_result. rewrite fold_handleMessage_not_open by exact Hno.
      unfold poll_loop. rewrite Hc. auto. }
  all: clear L; trace_norm; ops; break_match; trace_norm; auto; fin.
Qed.

(** Nothing is pending and the socket is closed. *)
Definition settled_closed (s : State) : Prop :=
  isClosed s = true /\ readyState s = CLOSED /\ connecting s = false
  /\ drain s = DrainIdle /\ polling s = false /\ closing s = [].

Lemma step_settled_closed s i s' :
  settled_closed s -> step s i = Some s' ->
  settled_closed s' /\ trace s' = trace s /\ sendQueue s' = sendQueue s
  /\ bufferedAmount s' = bufferedAmount s.
Proof.
  intros (H1 & H2 & H3 & H4 & H5 & H6) Hs. unfold settled_closed.
  step_cases Hs; try congruence.
  all: ops; break_match; repeat split; auto; fin.
Qed.

(** *** Polls *)

Lemma handleMessage_no_request m s :
  requests (handleMessage m s) = requests s /\ polling (handleMessage m s) = polling s
  /\ connId (handleMessage m s) = connId s /\ connecting (handleMessage m s) = connecting s.
Proof. unfold handleMessage. trace_norm. ops. break_match; trace_norm; auto. Qed.

Lemma fold_handleMessage_no_request l s :
  requests (fold_left (fun st m => handleMessage m st) l s) = requests s
  /\ polling (fold_left (fun st m => handleMessage m st) l s) = polling s
  /\ connId (fold_left (fun st m => handleMessage m st) l s) = connId s
  /\ connecting (fold_left (fun st m => handleMessage m st) l s) = connecting s.
Proof.
  revert s. induction l as [|m l IH]; intros s; cbn [fold_left]; [auto|].
  destruct (handleMessage_no_request m s) as (A & B & C & D).
  destruct (IH (handleMessage m s)) as (A' & B' & C' & D').
  repeat split; congruence.
Qed.

Ltac poll_norm :=
  unfold poll_count, poll_pending, requests in *; sim;
  rewrite ?flat_map_app, ?filter_app, ?length_app in *;
  cbn [flat_map filter is_poll length app poll_settle1] in *.

Lemma step_poll_count s i s' :
  life s -> step s i = Some s' ->
  poll_count s' + poll_pending s = poll_count s + poll_settle1 i + poll_pending s'.
Proof.
  intros L Hs. destruct L as (_ & L2 & _).
  step_cases Hs.
  10:{ unfold poll_result.
       destruct (fold_handleMessage_no_request
                   (match messages with Some l => l | None => [] end) s) as (A & B & _).
       revert A B. generalize (fold_left (fun st m => handleMessage m st)
                 match messages with Some l => l | None => [] end s).
       intros t A B. unfold poll_count at 2. rewrite <- A. fold (poll_count t).
       rewrite Heqb in B. unfold poll_pending at 1. rewrite Heqb.
       clear - B. poll_norm. ops. break_match; poll_norm; try lia; fin. }
  all: poll_norm; ops; break_match; poll_norm; forward; try lia; fin.
Qed.

(** *** The connection of a request *)

(** From [s] to [s'] the connection is the same and what was posted was
    posted on it. *)
Definition posts_on_connection (s s' : State) : Prop :=
  connecting s' = connecting s /\ connId s' = connId s
  /\ exists new, requests s' = requests s ++ new /\ Forall (carries (connId s)) new.

Lemma posts_refl s : posts_on_connection s s.
Proof. repeat split. exists []. now rewrite app_nil_r. Qed.

Lemma posts_trans s1 s2 s3 :
  posts_on_connection s1 s2 -> posts_on_connection s2 s3 -> posts_on_connection s1 s3.
Proof.
  intros (A1 & B1 & n1 & C1 & D1) (A2 & B2 & n2 & C2 & D2).
  repeat split; try congruence.
  exists (n1 ++ n2). split; [now rewrite C2, C1, app_assoc|].
  apply Forall_app. split; [exact D1|]. now rewrite <- B1.
Qed.

Ltac posts_fin :=
  unfold posts_on_connection; trace_norm;
  split; [reflexivity|]; split; [reflexivity|];
  eexists; split;
  [ first [ rewrite <- ?app_assoc; cbn [app]; reflexivity | symmetry; apply app_nil_r ]
  | repeat constructor ].

Lemma handleMessage_posts m s : posts_on_connection s (handleMessage m s).
Proof. unfold handleMessage. ops. break_match; posts_fin. Qed.

Lemma fold_handleMessage_posts l s :
  posts_on_connection s (fold_left (fun st m => handleMessage m st) l s).
Proof.
  revert s. induction l as [|m l IH]; intros s; cbn [fold_left].
  - apply posts_refl.
  - eapply posts_trans; [apply handleMessage_posts | apply IH].
Qed.

Lemma poll_loop_posts s : posts_on_connection s (poll_loop s).
Proof. ops. break_match; posts_fin. Qed.

Lemma step_posts s i s' :
  connecting s = false -> step s i = Some s' -> posts_on_connection s s'.
Proof.
  intros Hc Hs. step_cases Hs; try congruence.
  8:{ unfold poll_result.
      eapply posts_trans; [apply fold_handleMessage_posts | apply poll_loop_posts]. }
  all: ops; break_match; posts_fin.
Qed.

Definition before_connection (first : Request) (s : State) : Prop :=
  connecting s = true /\ requests s = [first] /\ connId s = None
  /\ drain s = DrainIdle /\ polling s = false /\ readyState s <> OPEN.

Definition on_connection (first : Request) (s : State) : Prop :=
  connecting s = false
  /\ exists rest, requests s = first :: rest /\ Forall (carries (connId s)) rest.

Lemma step_before_connection first s i s' :
  before_connection first s -> step s i = Some s' ->
  before_connection first s' \/ on_connection first s'.
Proof.
  intros (H1 & H2 & H3 & H4 & H5 & H6) Hs.
  unfold before_connection, on_connection.
  step_cases Hs; try congruence.
  - (* send *) left. unfold send, queueSend.
    destruct (readyState s) eqn:Hr; cbn [ReadyState_eqb negb snd]; try congruence;
      repeat split; auto; congruence.
  - (* close *) left. ops. trace_norm. rewrite ?H3. cbn [truthy].
    destruct (readyState s) eqn:Hr; break_match; trace_norm; repeat split; auto; fin.
  - left. unfold set_binaryType_property. break_match; repeat split; auto.
  - (* the connect request succeeds *) right.
    ops. trace_norm. break_match; trace_norm; rewrite H2; (split; [reflexivity|]);
      eexists; (split; [reflexivity|]); repeat constructor.
  - right. ops. trace_norm. break_match; trace_norm; rewrite H2; (split; [reflexivity|]);
      exists []; (split; [reflexivity|]); constructor.
  - left. ops. trace_norm. break_match; trace_norm; repeat split; auto; fin.
Qed.

Lemma step_on_connection first s i s' :
  on_connection first s -> step s i = Some s' -> on_connection first s'.
Proof.
  intros (H1 & rest & H2 & H3) Hs.
  destruct (step_posts s i s' H1 Hs) as (A & B & new & C & D).
  split; [congruence|]. exists (rest ++ new). split.
  - now rewrite C, H2.
  - rewrite B. apply Forall_app. auto.
Qed.

(** *** Deliveries *)




(** *** The drain *)

Lemma run_app a : forall s b,
  run s (a ++ b) = match run s a with Some t => run t b | None => None end.
Proof.
  induction a as [|i a IH]; intros s b; cbn [app run]; [reflexivity|].
  destruct (step s i); [apply IH | reflexivity].
Qed.

Lemma drain_loop_immediate s d size q :
  sendQueue s = (d, size) :: q -> isClosed s = false -> immediate d = true ->
  exists f, frame_of d = Some f /\ drain_loop s = drain_submit f size s
            /\ submitted (drain_submit f size s) = submitted s ++ [f].
Proof.
  intros Hq Hc Hi. unfold drain_loop. rewrite Hq, Hc.
  destruct d; try discriminate; cbn [frame_of]; unfold drain_binary;
    rewrite ?CodecFacts.encodeBinary_value; cbn [option_map];
    eexists; (split; [reflexivity|]); (split; [reflexivity|]);
    unfold drain_submit, fetch, submitted; sim; rewrite flat_map_app; reflexivity.
Qed.

Lemma acknowledgments_drain q : forall s d size,
  sendQueue s = (d, size) :: q -> drain s = DrainAwaitFetch size ->
  isClosed s = false ->
  Forall (fun x => immediate (fst x) = true) q ->
  sized ((d, size) :: q) -> bufferedAmount s = total_size ((d, size) :: q) ->
  exists s' fs,
    run s (repeat SendOk (S (length q))) = Some s'
    /\ submitted s' = submitted s ++ fs
    /\ map Some fs = map frame_of (map fst q)
    /\ sendQueue s' = [] /\ drain s' = DrainIdle /\ isSending s' = false
    /\ bufferedAmount s' = 0%Z /\ isClosed s' = false
    /\ readyState s' = readyState s /\ events s' = events s.
Proof.
  induction q as [|[d' size'] q IH]; intros s d size Hq Hd Hc Himm Hsz Hb.
  - exists (drain_acked size s), []. cbn [repeat length run step]. rewrite Hd.
    unfold drain_acked, drain_loop. sim. rewrite Hq. cbn [tl]. sim.
    cbn [total_size] in Hb. rewrite app_nil_r.
    repeat split; auto; unfold submitted, events; sim; rewrite ?flat_map_app;
      cbn [flat_map app]; rewrite ?app_nil_r; auto.
    replace (bufferedAmount s - size)%Z with 0%Z by lia. reflexivity.
  - inversion_clear Himm as [|? ? Hi Himm']. cbn [fst] in Hi.
    inversion_clear Hsz as [|? ? Hs0 Hsz'].
    pose proof (total_size_nonneg _ Hsz') as Hnn.
    set (s0 := set_bufferedAmount (total_size ((d', size') :: q))
                 (log Shift (set_sendQueue ((d', size') :: q) s))).
    assert (E : drain_acked size s = drain_loop s0).
    { unfold drain_acked, s0. sim. rewrite Hq. cbn [tl].
      replace (bufferedAmount s - size)%Z with (total_size ((d', size') :: q))
        by (cbn [total_size] in *; lia).
      destruct (total_size ((d', size') :: q) <? 0)%Z eqn:Hneg; [lia | reflexivity]. }
    destruct (drain_loop_immediate s0 d' size' q eq_refl Hc Hi) as (f & Hf & Hl & Hsub).
    set (s1 := drain_submit f size' s0) in *.
    destruct (IH s1 d' size' eq_refl eq_refl Hc Himm' Hsz' eq_refl)
      as (s' & fs & R & S1 & S2 & S3 & S4 & S5 & S6 & S7 & S8 & S9).
    exists s', (f :: fs).
    split.
    { change (repeat SendOk (S (length ((d', size') :: q))))
        with (SendOk :: repeat SendOk (S (length q))).
      cbn [run step]. rewrite Hd, E, Hl. exact R. }
    split.
    { rewrite S1, Hsub. unfold s0, submitted. sim. rewrite flat_map_app.
      cbn [flat_map app]. rewrite app_nil_r, <- app_assoc. reflexivity. }
    split; [cbn [map fst]; now rewrite Hf, S2|].
    repeat split; auto.
    rewrite S9. unfold s1, s0, drain_submit, fetch, events. sim.
    rewrite !flat_map_app. cbn [flat_map app]. now rewrite !app_nil_r.
Qed.

Lemma sends_wait_behind_the_drain l : forall s,
  readyState s = OPEN -> isSending s = true ->
  exists s',
    run s (map CallSend l) = Some s'
    /\ sendQueue s' = sendQueue s ++ map (fun d => (d, calculateSize d)) l
    /\ bufferedAmount s' = (bufferedAmount s + sum_sizes l)%Z
    /\ drain s' = drain s /\ isClosed s' = isClosed s /\ isSending s' = true
    /\ readyState s' = OPEN /\ submitted s' = submitted s /\ events s' = events s.
Proof.
  induction l as [|d l IH]; intros s Ho Hs.
  - exists s. cbn [map run sum_sizes]. rewrite app_nil_r.
    repeat split; auto. lia.
  - set (s1 := set_bufferedAmount (bufferedAmount s + calculateSize d)
                 (log (Push d (calculateSize d))
                    (set_sendQueue (sendQueue s ++ [(d, calculateSize d)]) s))).
    assert (E : step s (CallSend d) = Some s1).
    { cbn [step]. unfold send, queueSend, flushQueue. rewrite Ho.
      cbn [ReadyState_eqb negb snd]. sim. rewrite Hs. reflexivity. }
    destruct (IH s1 Ho Hs) as (s' & R & Q1 & Q2 & Q3 & Q4 & Q5 & Q6 & Q7 & Q8).
    exists s'. cbn [map run]. rewrite E.
    split; [exact R|]. rewrite Q1, Q2, Q3, Q4, Q7, Q8.
    unfold s1, submitted, events. sim. rewrite !flat_map_app. cbn [flat_map app map sum_sizes].
    rewrite !app_nil_r, <- app_assoc.
    repeat split; auto. lia.
Qed.

(** *** Explicit close *)





(** *** The order of events *)

Lemma session_app m l : forallb is_message m = true -> session (m ++ l) = session l.
Proof.
  induction m as [|e m IH]; intros H; [reflexivity|].
  cbn [forallb] in H. apply andb_prop in H as [H1 H2].
  destruct e; try discriminate. cbn [app session]. auto.
Qed.

Lemma session_ending l : ending l = true -> session l = true.
Proof. destruct l as [|[] ?]; try discriminate; auto. Qed.

Lemma session_messages m : forallb is_message m = true -> session m = true.
Proof. intros H. rewrite <- (app_nil_r m). now rewrite session_app. Qed.

(** From an unfinalized socket: message events, then perhaps the ending,
    with which the socket is finalized. *)
Definition grows (s s' : State) : Prop :=
  connecting s' = connecting s
  /\ ((isClosed s' = false
       /\ exists m, events s' = events s ++ m /\ forallb is_message m = true)
      \/ (isClosed s' = true
          /\ exists m tail, events s' = events s ++ m ++ tail
                            /\ forallb is_message m = true /\ ending tail = true)).

Ltac grows_fin :=
  try solve [exfalso; fin];
  unfold grows; trace_norm; (split; [reflexivity|]);
  first
  [ left; split; [solve [fin]|]; exists [];
    split; [symmetry; apply app_nil_r | reflexivity]
  | right; split; [solve [fin]|]; exists []; eexists;
    split; [cbn [app]; rewrite <- ?app_assoc; cbn [app]; reflexivity
           | split; reflexivity] ].

Lemma fold_handleMessage_grows l : forall s,
  isClosed s = false -> grows s (fold_left (fun st m => handleMessage m st) l s).
Proof.
  induction l as [|m l IH]; intros s Hc; cbn [fold_left].
  - split; [reflexivity|]. left. split; [exact Hc|]. exists [].
    now rewrite app_nil_r.
  - unfold handleMessage at 2.
    destruct (negb (ReadyState_eqb (readyState s) OPEN)); [now apply IH|].
    destruct (is_string (msg_type m) "close").
    + rewrite fold_handleMessage_not_open
        by (unfold handleClose; rewrite Hc; cbn; discriminate).
      unfold handleClose. rewrite Hc. ops. grows_fin.
    + destruct (decodeMessage m s) as [data|]; [|now apply IH].
      destruct (IH (emit (MessageEvent data) s) Hc) as (A & [(B & x & C & D) | (B & x & t & C & D & E)]).
      * split; [exact A|]. left. split; [exact B|]. exists (MessageEvent data :: x).
        split; [|exact D]. rewrite C. unfold emit. trace_norm.
        now rewrite <- app_assoc.
      * split; [exact A|]. right. split; [exact B|].
        exists (MessageEvent data :: x), t.
        split; [|split; [exact D | exact E]]. rewrite C. unfold emit. trace_norm.
        now rewrite <- app_assoc.
Qed.

Lemma step_grows s i s' :
  connecting s = false -> isClosed s = false -> step s i = Some s' -> grows s s'.
Proof.
  intros Hn Hc Hs. step_cases Hs; try congruence.
  8:{ unfold poll_result.
      destruct (fold_handleMessage_grows
                  (match messages with Some l => l | None => [] end) s Hc) as (A & B).
      revert A B. generalize (fold_left (fun st m => handleMessage m st)
                 match messages with Some l => l | None => [] end s).
      intros t A B.
      assert (P : connecting (poll_loop t) = connecting t
                  /\ isClosed (poll_loop t) = isClosed t
                  /\ events (poll_loop t) = events t).
      { clear. unfold poll_loop, fetch. destruct (isClosed t) eqn:E; trace_norm; auto. }
      destruct P as (P1 & P2 & P3). unfold grows. rewrite P1, P2, P3.
      split; assumption. }
  all: ops; break_match; grows_fin.
Qed.

(** Where a socket is in its life, with the events of each place. *)
Definition order_inv (s : State) : Prop :=
  (connecting s = true /\ isClosed s = false /\ events s = []
   /\ connId s = None /\ drain s = DrainIdle /\ polling s = false /\ closing s = []
   /\ readyState s = CONNECTING)
  \/ (connecting s = false /\ isClosed s = false
      /\ exists m, events s = OpenEvent :: m /\ forallb is_message m = true)
  \/ (connecting s = true /\ isClosed s = true
      /\ drain s = DrainIdle /\ polling s = false /\ closing s = []
      /\ readyState s = CLOSED
      /\ exists c r w, events s = [CloseEvent c r w])
  \/ (connecting s = false /\ isClosed s = true /\ event_order (events s) = true).

Lemma order_inv_event_order s : order_inv s -> event_order (events s) = true.
Proof.
  intros [(_ & _ & E & _) | [(_ & _ & m & E & M) | [(_ & _ & _ & _ & _ & _ & c & r & w & E) | (_ & _ & E)]]].
  - now rewrite E.
  - rewrite E. cbn [event_order]. now apply session_messages.
  - now rewrite E.
  - exact E.
Qed.

Lemma step_order_inv s i s' :
  life s -> order_inv s -> step s i = Some s' -> order_inv s'.
Proof.
  intros L [A | [B | [D | F]]] Hs; unfold order_inv.
  - destruct A as (H1 & H2 & H3 & H4 & H5 & H6 & H7 & H8).
    unfold events in H3.
    step_cases Hs; try congruence.
    + (* send *) left. unfold send, queueSend. rewrite H8. cbn. repeat split; auto.
    + (* close *) right. right. left. ops. sim. rewrite ?H2, ?H8. sim.
      rewrite ?H4. cbn [truthy]. sim. rewrite ?H2. trace_norm. rewrite ?H3. cbn [app].
      repeat split; auto. eexists _, _, _. reflexivity.
    + left. ops. break_match; trace_norm; repeat split; auto.
    + (* the connect request succeeds *) right. left. ops. sim. rewrite H2.
      trace_norm. rewrite H3. cbn [app]. repeat split; auto. exists []. split; reflexivity.
    + right. right. right. ops. sim. rewrite H2. trace_norm. rewrite H3.
      cbn [app]. repeat split; auto.
  - destruct B as (H1 & H2 & m & H3 & H4).
    destruct (step_grows s i s' H1 H2 Hs) as (G1 & [(G2 & x & G3 & G4) | (G2 & x & t & G3 & G4 & G5)]).
    + right. left. split; [congruence|]. split; [exact G2|].
      exists (m ++ x). split; [now rewrite G3, H3|].
      rewrite forallb_app, H4, G4. reflexivity.
    + right. right. right. split; [congruence|]. split; [exact G2|].
      rewrite G3, H3. cbn [app event_order].
      rewrite session_app by exact H4. rewrite session_app by exact G4.
      now apply session_ending.
  - destruct D as (H1 & H2 & H5 & H6 & H7 & H8 & c & r & w & H3).
    unfold events in H3.
    step_cases Hs; try congruence.
    + right. right. left. unfold send, queueSend. rewrite H8. cbn.
      repeat split; auto. eexists _, _, _. exact H3.
    + right. right. left. ops. rewrite H2. cbn [orb].
      repeat split; auto. eexists _, _, _. exact H3.
    + right. right. left. ops. break_match; trace_norm; repeat split; auto;
        eexists _, _, _; exact H3.
    + right. right. right. ops. sim. rewrite H2. trace_norm. rewrite H3.
      cbn [app]. repeat split; auto.
    + right. right. right. ops. sim. rewrite H2. trace_norm. rewrite H3.
      repeat split; auto.
  - destruct F as (H1 & H2 & H3).
    destruct (step_inert s i s' L H2 H1 Hs) as (E1 & _ & E3 & E4).
    right. right. right. rewrite E1. auto.
Qed.

(** *** Before the connection *)

(** The socket awaits its connect response and was not closed: nothing was
    emitted, queued or posted but the connect request. *)
Definition unopened (first : Request) (s : State) : Prop :=
  connecting s = true /\ isClosed s = false
  /\ events s = [] /\ requests s = [first] /\ accepted s = []
  /\ sendQueue s = [] /\ bufferedAmount s = 0%Z
  /\ connId s = None /\ drain s = DrainIdle /\ polling s = false /\ closing s = []
  /\ readyState s = CONNECTING.





(** *** What [send] accepted *)

Lemma handleMessage_accepted m s : accepted (handleMessage m s) = accepted s.
Proof. unfold handleMessage. ops. break_match; trace_norm; reflexivity. Qed.

Lemma step_accepted s i s' :
  step s i = Some s' -> accepted s' = accepted s ++ sent1 s i.
Proof.
  intros Hs. step_cases Hs; cbn [sent1]; rewrite ?app_nil_r.
  10:{ unfold poll_result.
       pose proof (fold_handleMessage (fun t => accepted t = accepted s)
                     (fun m t H => eq_trans (handleMessage_accepted m t) H)
                     (match messages with Some l => l | None => [] end) s eq_refl) as H.
       revert H. generalize (fold_left (fun st m => handleMessage m st)
                 match messages with Some l => l | None => [] end s).
       intros t H. rewrite <- H. unfold poll_loop, fetch.
       destruct (isClosed t); trace_norm; reflexivity. }
  all: ops; break_match; trace_norm; try reflexivity; fin.
Qed.

Lemma run_accepted inputs : forall s s',
  run s inputs = Some s' -> accepted s' = accepted s ++ sent_while_open s inputs.
Proof.
  induction inputs as [|i r IH]; intros s s' Hr; cbn [run sent_while_open] in *.
  - injection Hr as <-. now rewrite app_nil_r.
  - destruct (step s i) as [s1|] eqn:Hs; [|discriminate].
    rewrite (IH s1 s' Hr), (step_accepted s i s1 Hs). now rewrite app_assoc.
Qed.

Lemma sum_sizes_total_bytes l : sum_sizes l = total_bytes l.
Proof.
  induction l as [|d l IH]; [reflexivity|].
  cbn [sum_sizes total_bytes fold_right]. fold (total_bytes l). rewrite IH.
  now destruct d.
Qed.

(** *** The order of events, over runs *)

Lemma run_event_order url protocols inputs s :
  run (createHttpBridgeWebSocket url protocols) inputs = Some s ->
  event_order (events s) = true.
Proof.
  intros Hr. apply order_inv_event_order.
  assert (G : forall l t t', life t -> order_inv t -> run t l = Some t' -> order_inv t').
  { induction l as [|i r IH]; intros t t' L O Hrun; cbn [run] in Hrun.
    - now injection Hrun as <-.
    - destruct (step t i) as [t1|] eqn:Hs; [|discriminate].
      apply (IH t1 t' (step_life t i t1 L Hs) (step_order_inv t i t1 L O Hs) Hrun). }
  apply (G inputs _ s (create_life url protocols)); [|exact Hr].
  left. cbn. repeat split.
Qed.

End SessionFacts.

(** ** Sizes and alphabets of the codec *)

Module EncodingFacts.
Import Codec Socket CodecFacts Observations.
Local Open Scope N_scope.

Lemma utf8_of_code_point_length cp :
  length (utf8_of_code_point cp)
  = if cp <? 0x80 then 1%nat else if cp <? 0x800 then 2%nat
    else if cp <? 0x10000 then 3%nat else 4%nat.
Proof.
  unfold utf8_of_code_point.
  destruct (cp <? 0x80); [reflexivity|].
  destruct (cp <? 0x800); [reflexivity|].
  destruct (cp <? 0x10000); reflexivity.
Qed.

Definition utf8_length (s : jsstring) : nat := length (textEncoder_encode s).

Lemma utf8_length_cons_eq c r :
  utf8_length (c :: r)
  = if is_high c then
      match r with
      | d :: r' => if is_low d then (4 + utf8_length r')%nat else (3 + utf8_length r)%nat
      | [] => 3%nat
      end
    else if is_low c then (3 + utf8_length r)%nat
    else (length (utf8_of_code_point c) + utf8_length r)%nat.
Proof.
  unfold utf8_length, textEncoder_encode. cbn [code_points].
  destruct (is_high c) eqn:Hh.
  - destruct r as [|d r']; [reflexivity|].
    destruct (is_low d) eqn:Hl; cbn [flat_map]; rewrite length_app.
    + rewrite utf8_of_code_point_length.
      unfold is_high, is_low in *.
      apply andb_prop in Hh as [H1 H2]. apply andb_prop in Hl as [H3 H4].
      apply N.leb_le in H1, H2, H3, H4.
      repeat match goal with
      | |- context [?a <? ?b] => destruct (N.ltb_spec a b); try lia
      end.
    + reflexivity.
  - destruct (is_low c); cbn [flat_map]; rewrite length_app; reflexivity.
Qed.

Lemma utf8_length_bounds n : forall s,
  (length s <= n)%nat -> Forall (fun c => c < 65536) s ->
  (length s <= utf8_length s <= 3 * length s)%nat.
Proof.
  induction n as [|n IH]; intros s Hn Hall.
  - destruct s; [cbn; lia | cbn in Hn; lia].
  - destruct s as [|c r]; [cbn; lia|].
    inversion_clear Hall as [|? ? Hc Hr]. cbn [length] in *.
    rewrite utf8_length_cons_eq.
    pose proof (IH r ltac:(lia) Hr) as Br.
    destruct (is_high c) eqn:Hh.
    + destruct r as [|d r']; [cbn; lia|].
      inversion_clear Hr as [|? ? Hd Hr'].
      pose proof (IH r' ltac:(cbn [length] in *; lia) Hr') as Br'.
      destruct (is_low d); cbn [length] in *; lia.
    + destruct (is_low c) eqn:Hl; [lia|].
      rewrite utf8_of_code_point_length.
      repeat match goal with
      | |- context [?a <? ?b] => destruct (N.ltb_spec a b); try lia
      end.
Qed.

Lemma utf8_length_ascii s :
  Forall (fun c => c < 128) s -> utf8_length s = length s.
Proof.
  induction 1 as [|c r Hc _ IH]; [reflexivity|].
  rewrite utf8_length_cons_eq.
  assert (Hh : is_high c = false).
  { unfold is_high. destruct (N.leb_spec 0xD800 c); [lia | reflexivity]. }
  assert (Hl : is_low c = false).
  { unfold is_low. destruct (N.leb_spec 0xDC00 c); [lia | reflexivity]. }
  rewrite Hh, Hl, utf8_of_code_point_length, IH.
  destruct (N.ltb_spec c 0x80); [reflexivity | lia].
Qed.

Lemma btoa_units_length s :
  length (btoa_units s) = (4 * ((length s + 2) / 3))%nat.
Proof.
  induction s as [|a|a b|a b c r IH] using list_ind3; try reflexivity.
  cbn [btoa_units length]. rewrite IH.
  replace (S (S (S (length r))) + 2)%nat with (1 * 3 + (length r + 2))%nat by lia.
  rewrite Nat.div_add_l by lia. lia.
Qed.

Lemma btoa_units_alphabet s :
  Forall (fun c => c <= 255) s -> Forall radix64_char (btoa_units s).
Proof.
  intros H. rewrite btoa_units_split. apply Forall_app. split.
  - pose proof (sextets_bounded s H) as Hs.
    induction Hs as [|v vs Hv _ IH]; cbn [map]; constructor; auto.
    left. destruct (digit v Hv) as (-> & _). discriminate.
  - destruct (padding_cases s) as [-> | [-> | ->]]; repeat constructor; now right.
Qed.

Lemma b64_values_stranger s c :
  In c s -> b64_value c = None -> b64_values s = None.
Proof.
  induction s as [|x r IH]; intros Hin Hc; [destruct Hin|].
  cbn [b64_values]. destruct Hin as [-> | Hin].
  - now rewrite Hc.
  - rewrite (IH Hin Hc). now destruct (b64_value x).
Qed.

Lemma strip_padding_keeps s c :
  In c s -> c <> b64_pad -> In c (strip_padding s).
Proof.
  intros Hin Hc. unfold strip_padding.
  destruct (N.of_nat (length s) mod 4 =? 0); [|exact Hin].
  apply in_rev in Hin.
  destruct (rev s) as [|c1 r1] eqn:E; [destruct Hin|].
  destruct (N.eqb_spec c1 b64_pad) as [-> | _].
  - destruct Hin as [Hin | Hin]; [congruence|].
    destruct r1 as [|c2 r2]; [destruct Hin|].
    destruct (N.eqb_spec c2 b64_pad) as [-> | _].
    + destruct Hin as [Hin | Hin]; [congruence|]. now apply in_rev in Hin.
    + now apply in_rev in Hin.
  - rewrite <- E in Hin. now apply in_rev in Hin.
Qed.

Lemma atob_stranger data c :
  In c data -> b64_value c = None -> is_ascii_whitespace c = false -> c <> b64_pad ->
  atob data = None.
Proof.
  intros Hin Hv Hw Hp. unfold atob.
  assert (H1 : In c (filter (fun x => negb (is_ascii_whitespace x)) data))
    by (apply filter_In; split; [exact Hin | now rewrite Hw]).
  pose proof (strip_padding_keeps _ c H1 Hp) as H2.
  destruct (_ mod 4 =? 1); [reflexivity|].
  now rewrite (b64_values_stranger _ c H2 Hv).
Qed.

End EncodingFacts.

(** ** Facts about event dispatch *)

Module DispatchFacts.
Import Dispatch.

Lemma jsstring_eqb_eq a : forall b, jsstring_eqb a b = true <-> a = b.
Proof.
  induction a as [|x a IH]; intros [|y b]; cbn [jsstring_eqb]; split;
    try discriminate; try reflexivity.
  - intros H. apply andb_prop in H as [H1 H2].
    apply N.eqb_eq in H1. apply IH in H2. now subst.
  - intros [= -> ->]. rewrite N.eqb_refl. now apply IH.
Qed.

Lemma jsstring_eqb_refl a : jsstring_eqb a a = true.
Proof. now apply jsstring_eqb_eq. Qed.

Lemma jsstring_eqb_neq a b : a <> b -> jsstring_eqb a b = false.
Proof.
  intros H. destruct (jsstring_eqb a b) eqn:E; [|reflexivity].
  now apply jsstring_eqb_eq in E.
Qed.

Section Maps.
Context {V : Type}.
Implicit Types (m : list (jsstring * V)) (k : jsstring) (v : V).

Lemma map_get_set_same k v m : map_get k (map_set k v m) = Some v.
Proof.
  induction m as [|[k' v'] m IH]; cbn [map_set map_get].
  - now rewrite jsstring_eqb_refl.
  - destruct (jsstring_eqb k' k) eqn:E; cbn [map_get]; now rewrite E.
Qed.

Lemma map_get_set_other k k' v m : k' <> k -> map_get k' (map_set k v m) = map_get k' m.
Proof.
  intros Hne. induction m as [|[k0 v0] m IH]; cbn [map_set map_get].
  - rewrite jsstring_eqb_neq by congruence. reflexivity.
  - destruct (jsstring_eqb k0 k) eqn:E; cbn [map_get].
    + apply jsstring_eqb_eq in E. subst k0.
      now rewrite jsstring_eqb_neq by congruence.
    + now rewrite IH.
Qed.

Lemma map_get_none_keys k m : map_get k m = None <-> ~ In k (map fst m).
Proof.
  induction m as [|[k0 v0] m IH]; cbn [map_get map fst In]; [tauto|].
  destruct (jsstring_eqb k0 k) eqn:E.
  - apply jsstring_eqb_eq in E. split; [discriminate | tauto].
  - assert (k0 <> k) by (intros ->; now rewrite jsstring_eqb_refl in E). tauto.
Qed.

Lemma map_get_in k v m : map_get k m = Some v -> In (k, v) m.
Proof.
  induction m as [|[k0 v0] m IH]; cbn [map_get]; [discriminate|].
  destruct (jsstring_eqb k0 k) eqn:E.
  - apply jsstring_eqb_eq in E. intros [= ->]. subst. now left.
  - intros H. right. auto.
Qed.

Lemma map_set_same_value k v m : map_get k m = Some v -> map_set k v m = m.
Proof.
  induction m as [|[k0 v0] m IH]; cbn [map_get map_set]; [discriminate|].
  destruct (jsstring_eqb k0 k); [now intros [= ->] | intros H; now rewrite IH].
Qed.

Lemma map_set_twice k v v' m : map_set k v (map_set k v' m) = map_set k v m.
Proof.
  induction m as [|[k0 v0] m IH]; cbn [map_set].
  - now rewrite jsstring_eqb_refl.
  - destruct (jsstring_eqb k0 k) eqn:E; cbn [map_set]; rewrite E; [reflexivity|].
    now rewrite IH.
Qed.

Lemma map_delete_set_new k v m : map_get k m = None -> map_delete k (map_set k v m) = m.
Proof.
  induction m as [|[k0 v0] m IH]; cbn [map_get map_set map_delete].
  - now rewrite jsstring_eqb_refl.
  - destruct (jsstring_eqb k0 k) eqn:E; [discriminate|].
    intros H. cbn [map_delete]. rewrite E. now rewrite IH.
Qed.

Lemma map_get_delete_other k k' m : k' <> k -> map_get k' (map_delete k m) = map_get k' m.
Proof.
  intros Hne. induction m as [|[k0 v0] m IH]; cbn [map_delete map_get]; [reflexivity|].
  destruct (jsstring_eqb k0 k) eqn:E; cbn [map_get].
  - apply jsstring_eqb_eq in E. subst k0. now rewrite jsstring_eqb_neq by congruence.
  - now rewrite IH.
Qed.

Lemma map_get_delete_same k m : NoDup (map fst m) -> map_get k (map_delete k m) = None.
Proof.
  induction m as [|[k0 v0] m IH]; cbn [map_delete map_get map fst]; [reflexivity|].
  intros Hnd. inversion_clear Hnd as [|? ? Hnotin Hnd'].
  destruct (jsstring_eqb k0 k) eqn:E; cbn [map_get].
  - apply jsstring_eqb_eq in E. subst k0. now apply map_get_none_keys.
  - rewrite E. auto.
Qed.

Lemma keys_map_set k v m :
  map fst (map_set k v m)
  = match map_get k m with Some _ => map fst m | None => map fst m ++ [k] end.
Proof.
  induction m as [|[k0 v0] m IH]; cbn [map_set map_get map fst app]; [reflexivity|].
  destruct (jsstring_eqb k0 k) eqn:E; cbn [map fst]; [reflexivity|].
  rewrite IH. now destruct (map_get k m).
Qed.

Lemma in_map_set kv k v m : In kv (map_set k v m) -> kv = (k, v) \/ In kv m.
Proof.
  induction m as [|[k0 v0] m IH]; cbn [map_set].
  - intros [<- | []]. now left.
  - destruct (jsstring_eqb k0 k) eqn:E.
    + apply jsstring_eqb_eq in E. subst k0. intros [<- | H]; [now left | right; now right].
    + intros [<- | H]; [right; now left|]. destruct (IH H); [now left | right; now right].
Qed.

Lemma in_map_delete kv k m : In kv (map_delete k m) -> In kv m.
Proof.
  induction m as [|[k0 v0] m IH]; cbn [map_delete]; [tauto|].
  destruct (jsstring_eqb k0 k); [now right|].
  intros [<- | H]; [now left | right; auto].
Qed.

Lemma keys_map_delete k m : NoDup (map fst m) -> NoDup (map fst (map_delete k m)).
Proof.
  induction m as [|[k0 v0] m IH]; cbn [map_delete map fst]; [auto|].
  intros Hnd. inversion_clear Hnd as [|? ? Hnotin Hnd'].
  destruct (jsstring_eqb k0 k); [exact Hnd'|].
  cbn [map fst]. constructor; [|auto].
  intros Hin. apply Hnotin. apply in_map_iff in Hin as ([k1 v1] & <- & Hin).
  apply in_map_iff. exists (k1, v1). split; [reflexivity|]. now apply in_map_delete in Hin.
Qed.

End Maps.

Lemma set_has_in f s : set_has f s = true <-> In f s.
Proof.
  unfold set_has. rewrite existsb_exists. split.
  - intros (x & Hx & E). apply Nat.eqb_eq in E. now subst.
  - intros H. exists f. split; [exact H | apply Nat.eqb_refl].
Qed.

Lemma set_add_nodup f s : NoDup s -> NoDup (set_add f s).
Proof.
  intros H. unfold set_add. destruct (set_has f s) eqn:E; [exact H|].
  apply NoDup_app; [exact H | repeat constructor; intros [] |].
  intros x Hx [<- | []].
  apply set_has_in in Hx. congruence.
Qed.

Lemma set_add_not_empty f s : set_add f s <> [].
Proof.
  unfold set_add. destruct (set_has f s) eqn:E.
  - apply set_has_in in E. now destruct s.
  - now destruct s.
Qed.

Lemma set_delete_added f s :
  set_has f s = false -> set_delete (Function f) (s ++ [f]) = s.
Proof.
  intros H. cbn [set_delete]. rewrite filter_app. cbn [filter].
  rewrite Nat.eqb_refl. cbn [negb]. rewrite app_nil_r.
  apply forallb_filter_id. apply forallb_forall. intros g Hg.
  apply negb_true_iff, Nat.eqb_neq. intros ->.
  apply set_has_in in Hg. congruence.
Qed.

End DispatchFacts.

(** ** Facts about routing *)

Module OriginFacts.
Import Origin.

Lemma starts_with_prefix pattern rest : starts_with pattern (pattern ++ rest) = true.
Proof.
  induction pattern as [|p pattern IH]; [reflexivity|].
  cbn [app starts_with]. now rewrite N.eqb_refl, IH.
Qed.

Lemma replace_prefix pattern replacement rest :
  replace pattern replacement (pattern ++ rest) = replacement ++ rest.
Proof.
  destruct (pattern ++ rest) as [|c r] eqn:E.
  - apply app_eq_nil in E as [-> ->]. cbn. now rewrite app_nil_r.
  - cbn [replace]. rewrite <- E, starts_with_prefix.
    f_equal. rewrite skipn_app, skipn_all, Nat.sub_diag. reflexivity.
Qed.

End OriginFacts.

(** ** Facts about listeners that call the socket *)

Module ReentrantFacts.
Import Codec Socket SocketFacts Observations SessionFacts.

(** Unfold the operations down to the setters of [State] and to the
    deliveries. *)
Ltac rops :=
  unfold Reentrant.call, Reentrant.send, Reentrant.queueSend, Reentrant.flushQueue,
    Reentrant.drain_acked, Reentrant.drain_loop, Reentrant.drain_binary,
    Reentrant.drain_catch, Reentrant.poll_result, Reentrant.poll_catch,
    Reentrant.close, Reentrant.close_finish, Reentrant.handleOpen,
    Reentrant.handleError, Reentrant.handleClose,
    drain_submit, startPolling, poll_loop, set_binaryType_property,
    changeState, emit, fetch in *.

(** *** The operations of [Socket] are those of listeners that call nothing *)

Ltac ext_fin H :=
  repeat (rewrite ?H; try reflexivity;
          match goal with
          | |- context [match ?x with _ => _ end] => destruct x eqn:?
          end).

Lemma handleMessage_ext E1 E2 :
  (forall e s, E1 e s = E2 e s) ->
  forall m s, Reentrant.handleMessage E1 m s = Reentrant.handleMessage E2 m s.
Proof.
  intros H m s. unfold Reentrant.handleMessage, Reentrant.handleClose. ext_fin H.
Qed.

Lemma fold_handleMessage_ext E1 E2 :
  (forall e s, E1 e s = E2 e s) ->
  forall l s, fold_left (fun st m => Reentrant.handleMessage E1 m st) l s
              = fold_left (fun st m => Reentrant.handleMessage E2 m st) l s.
Proof.
  intros H. induction l as [|m l IH]; intros s; cbn [fold_left]; [reflexivity|].
  now rewrite (handleMessage_ext E1 E2 H), IH.
Qed.

Lemma handleError_ext E1 E2 :
  (forall e s, E1 e s = E2 e s) ->
  forall err s, Reentrant.handleError E1 err s = Reentrant.handleError E2 err s.
Proof.
  intros H err s. unfold Reentrant.handleError, Reentrant.handleClose. ext_fin H.
Qed.

Lemma drain_loop_ext E1 E2 :
  (forall e s, E1 e s = E2 e s) ->
  forall s, Reentrant.drain_loop E1 s = Reentrant.drain_loop E2 s.
Proof.
  intros H s. unfold Reentrant.drain_loop, Reentrant.drain_binary, Reentrant.drain_catch.
  ext_fin (handleError_ext E1 E2 H).
Qed.

Lemma step_ext E1 E2 :
  (forall e s, E1 e s = E2 e s) ->
  forall s i, Reentrant.step E1 s i = Reentrant.step E2 s i.
Proof.
  intros H s i. destruct i; cbn [Reentrant.step];
    unfold Reentrant.send, Reentrant.queueSend, Reentrant.flushQueue, Reentrant.close,
      Reentrant.close_finish, Reentrant.handleOpen, Reentrant.drain_acked,
      Reentrant.drain_binary, Reentrant.drain_catch, Reentrant.poll_result,
      Reentrant.poll_catch, Reentrant.handleClose;
    rewrite ?(drain_loop_ext E1 E2 H), ?(handleError_ext E1 E2 H),
      ?(fold_handleMessage_ext E1 E2 H); ext_fin H;
    rewrite ?(drain_loop_ext E1 E2 H); reflexivity.
Qed.

Lemma step_observers s i : Reentrant.step emit s i = step s i.
Proof. destruct i; reflexivity. Qed.

Lemma deliver_observers n L e s :
  (forall t, L t e = []) -> Reentrant.deliver n L e s = emit e s.
Proof. intros H. destruct n; cbn [Reentrant.deliver]; [|rewrite H]; reflexivity. Qed.

Lemma run_observers L :
  (forall t e, L t e = []) ->
  forall inputs s, Reentrant.run L s inputs = run s inputs.
Proof.
  intros H. induction inputs as [|i r IH]; intros s; cbn [Reentrant.run run]; [reflexivity|].
  rewrite (step_ext (Reentrant.emit L) emit), step_observers.
  - destruct (step s i); [apply IH | reflexivity].
  - intros e t. apply deliver_observers. intros u. apply H.
Qed.

(** *** Calls on a finalized socket *)

(** Nothing moved but, perhaps, [binaryType] and, on a socket whose
    [readyState] is OPEN, the queue. *)
Definition still (s s' : State) : Prop :=
  isClosed s' = isClosed s /\ readyState s' = readyState s /\ connId s' = connId s
  /\ connecting s' = connecting s /\ isSending s' = isSending s /\ drain s' = drain s
  /\ polling s' = polling s /\ closing s' = closing s
  /\ events s' = events s /\ requests s' = requests s /\ states s' = states s
  /\ (readyState s <> OPEN ->
      sendQueue s' = sendQueue s /\ bufferedAmount s' = bufferedAmount s
      /\ accepted s' = accepted s).

Lemma still_refl s : still s s.
Proof. repeat split. Qed.

Lemma still_trans s1 s2 s3 : still s1 s2 -> still s2 s3 -> still s1 s3.
Proof.
  intros (A1 & A2 & A3 & A4 & A5 & A6 & A7 & A8 & A9 & A10 & A11 & A12)
         (B1 & B2 & B3 & B4 & B5 & B6 & B7 & B8 & B9 & B10 & B11 & B12).
  split; [congruence|]. split; [congruence|]. split; [congruence|].
  split; [congruence|]. split; [congruence|]. split; [congruence|].
  split; [congruence|]. split; [congruence|]. split; [congruence|].
  split; [congruence|]. split; [congruence|].
  intros Hn. destruct (A12 Hn) as (C1 & C2 & C3).
  assert (Hn2 : readyState s2 <> OPEN) by congruence.
  destruct (B12 Hn2) as (D1 & D2 & D3). repeat split; congruence.
Qed.

Lemma call_closed E s c : isClosed s = true -> still s (Reentrant.call E s c).
Proof.
  intros Hc. unfold still. destruct c; rops; trace_norm; rewrite ?Hc;
    rewrite ?orb_true_r; break_match; trace_norm; repeat split; auto; fin.
Qed.

Lemma fold_call_closed E calls : forall s,
  isClosed s = true -> still s (fold_left (Reentrant.call E) calls s).
Proof.
  induction calls as [|c l IH]; intros s Hc; cbn [fold_left]; [apply still_refl|].
  pose proof (call_closed E s c Hc) as H.
  eapply still_trans; [exact H|]. apply IH. destruct H as (H & _). congruence.
Qed.

Lemma deliver_closed n L e s :
  isClosed s = true -> still (emit e s) (Reentrant.deliver n L e s).
Proof.
  intros Hc. destruct n; cbn [Reentrant.deliver]; [apply still_refl|].
  now apply fold_call_closed.
Qed.

(** *** Calls on a socket that is not finalized *)

(** From [s], not finalized, to [t]: either nothing was emitted, or the socket
    was finalized, with error events and then the close event, which is that
    of [handleError] when the socket has a connection id. *)
Definition outcome (s t : State) : Prop :=
  connId t = connId s /\ connecting t = connecting s
  /\ ((isClosed t = false /\ events t = events s)
      \/ (isClosed t = true /\ readyState t = CLOSED
          /\ exists errs c r w,
               events t = events s ++ errs ++ [CloseEvent c r w]
               /\ forallb Reentrant.is_error errs = true
               /\ (truthy (connId s) = true -> c = 1006%Z /\ w = false))).

Lemma outcome_same s t :
  connId t = connId s -> connecting t = connecting s -> isClosed t = false ->
  events t = events s -> outcome s t.
Proof. intros. split; [|split]; auto. Qed.

Lemma outcome_from s s' t :
  connId s' = connId s -> connecting s' = connecting s -> events s' = events s ->
  outcome s' t -> outcome s t.
Proof.
  intros A B C (D1 & D2 & D3). split; [congruence|]. split; [congruence|].
  rewrite <- C, <- A. exact D3.
Qed.

Lemma outcome_still s u v :
  outcome s u -> isClosed u = true -> still u v -> outcome s v.
Proof.
  intros (A1 & A2 & [(A3 & _) | (A3 & A4 & A5)]) Hc; [congruence|].
  intros (B1 & B2 & B3 & B4 & _ & _ & _ & _ & B9 & _).
  split; [congruence|]. split; [congruence|]. right.
  split; [congruence|]. split; [congruence|]. now rewrite B9.
Qed.

Lemma outcome_trans s u v :
  outcome s u -> isClosed u = false -> outcome u v -> outcome s v.
Proof.
  intros (A1 & A2 & [(A3 & A4) | (A3 & _)]) Hc; [|congruence].
  intros (B1 & B2 & B3). split; [congruence|]. split; [congruence|].
  now rewrite <- A4, <- A1.
Qed.

Section Calls.

Variable E : Event -> State -> State.
Hypothesis E_open : forall e s, isClosed s = false -> outcome (emit e s) (E e s).
Hypothesis E_closed : forall e s, isClosed s = true -> still (emit e s) (E e s).

Lemma handleClose_open c r w s :
  isClosed s = false ->
  connId (Reentrant.handleClose E c r w s) = connId s
  /\ connecting (Reentrant.handleClose E c r w s) = connecting s
  /\ isClosed (Reentrant.handleClose E c r w s) = true
  /\ readyState (Reentrant.handleClose E c r w s) = CLOSED
  /\ events (Reentrant.handleClose E c r w s) = events s ++ [CloseEvent c r w].
Proof.
  intros Hc. unfold Reentrant.handleClose. rewrite Hc.
  destruct (E_closed (CloseEvent c r w) (changeState CLOSED (set_isClosed true s)) eq_refl)
    as (B1 & B2 & B3 & B4 & _ & _ & _ & _ & B9 & _).
  rewrite B1, B2, B3, B4, B9. unfold emit, changeState. trace_norm. repeat split.
Qed.

Lemma handleError_open err s :
  isClosed s = false ->
  connId (Reentrant.handleError E err s) = connId s
  /\ connecting (Reentrant.handleError E err s) = connecting s
  /\ isClosed (Reentrant.handleError E err s) = true
  /\ readyState (Reentrant.handleError E err s) = CLOSED
  /\ exists errs c r w,
       events (Reentrant.handleError E err s)
       = events s ++ ErrorEvent err :: errs ++ [CloseEvent c r w]
       /\ forallb Reentrant.is_error errs = true
       /\ (truthy (connId s) = true -> c = 1006%Z /\ w = false).
Proof.
  intros Hc. unfold Reentrant.handleError. rewrite Hc.
  destruct (E_open (ErrorEvent err) s Hc) as (A1 & A2 & A3).
  assert (He : events (emit (ErrorEvent err) s) = events s ++ [ErrorEvent err])
    by (unfold emit; trace_norm; reflexivity).
  change (connId (emit (ErrorEvent err) s)) with (connId s) in *.
  change (connecting (emit (ErrorEvent err) s)) with (connecting s) in *.
  rewrite He in A3.
  destruct A3 as [(A3 & A4) | (A3 & A4 & errs & c & r & w & A5 & A6 & A7)].
  - destruct (handleClose_open 1006 (error_reason err) false _ A3)
      as (B1 & B2 & B3 & B4 & B5).
    split; [congruence|]. split; [congruence|]. split; [exact B3|]. split; [exact B4|].
    exists [], 1006%Z, (error_reason err), false.
    rewrite B5, A4, <- app_assoc. cbn [app]. repeat split.
  - unfold Reentrant.handleClose. rewrite A3.
    split; [exact A1|]. split; [exact A2|]. split; [exact A3|]. split; [exact A4|].
    exists errs, c, r, w. rewrite A5, <- app_assoc. cbn [app]. repeat split; tauto.
Qed.

Lemma drain_catch_outcome err s :
  isClosed s = false -> outcome s (Reentrant.drain_catch E err s).
Proof.
  intros Hc. destruct (handleError_open err s Hc)
    as (A1 & A2 & A3 & A4 & errs & c & r & w & A5 & A6 & A7).
  unfold Reentrant.drain_catch.
  split; [exact A1|]. split; [exact A2|]. right.
  split; [exact A3|]. split; [exact A4|].
  exists (ErrorEvent err :: errs), c, r, w.
  change (events (set_drain DrainIdle
                    (set_isSending false (Reentrant.handleError E err s))))
    with (events (Reentrant.handleError E err s)).
  rewrite A5. cbn [app forallb Reentrant.is_error andb].
  repeat split; tauto.
Qed.

Lemma drain_loop_outcome s :
  isClosed s = false -> outcome s (Reentrant.drain_loop E s).
Proof.
  intros Hc. unfold Reentrant.drain_loop, Reentrant.drain_binary. rewrite Hc.
  repeat match goal with
  | |- context [match ?x with _ => _ end] => destruct x eqn:?
  end;
  try (now apply drain_catch_outcome);
  apply outcome_same; auto; unfold drain_submit, fetch; trace_norm; reflexivity.
Qed.

Lemma call_outcome s c :
  isClosed s = false -> outcome s (Reentrant.call E s c).
Proof.
  intros Hc. destruct c as [data | code reason | value]; cbn [Reentrant.call].
  - unfold Reentrant.send, Reentrant.queueSend.
    destruct (negb (ReadyState_eqb (readyState s) OPEN)); cbn [snd];
      [now apply outcome_same|].
    unfold Reentrant.flushQueue.
    match goal with |- context [if ?b then _ else _] => destruct b end.
    + apply outcome_same; auto. trace_norm. reflexivity.
    + eapply outcome_from; [| | |apply drain_loop_outcome; exact Hc];
        try reflexivity. trace_norm. reflexivity.
  - unfold Reentrant.close. rewrite Hc. cbn [orb].
    destruct (ReadyState_eqb (readyState s) CLOSING); [now apply outcome_same|].
    change (connId (changeState CLOSING s)) with (connId s).
    destruct (truthy (connId s)) eqn:Ht.
    + apply outcome_same; auto. unfold fetch, changeState. trace_norm. reflexivity.
    + unfold Reentrant.close_finish.
      destruct (handleClose_open
                  (match code with Some c => c | None => 1000%Z end)
                  (match reason with Some r => r | None => [] end)
                  ((match code with Some c => c | None => 1000%Z end) =? 1000)%Z
                  (changeState CLOSING s) Hc) as (B1 & B2 & B3 & B4 & B5).
      split; [exact B1|]. split; [exact B2|]. right.
      split; [exact B3|]. split; [exact B4|].
      eexists [], _, _, _. split; [|split; [reflexivity|]].
      * rewrite B5. unfold changeState. trace_norm. reflexivity.
      * rewrite Ht. discriminate.
  - unfold set_binaryType_property.
    destruct (jsstring_eqb value (lit "arraybuffer")); now apply outcome_same.
Qed.

Lemma fold_call_outcome calls : forall s,
  isClosed s = false -> outcome s (fold_left (Reentrant.call E) calls s).
Proof.
  induction calls as [|c l IH]; intros s Hc; cbn [fold_left].
  - now apply outcome_same.
  - pose proof (call_outcome s c Hc) as H.
    destruct (isClosed (Reentrant.call E s c)) eqn:Hu.
    + eapply outcome_still; [exact H | exact Hu |].
      now apply fold_call_closed.
    + eapply outcome_trans; [exact H | exact Hu |]. now apply IH.
Qed.

End Calls.

Lemma deliver_outcome n L : forall e s,
  isClosed s = false -> outcome (emit e s) (Reentrant.deliver n L e s).
Proof.
  induction n as [|n IH]; intros e s Hc; cbn [Reentrant.deliver].
  - now apply outcome_same.
  - apply fold_call_outcome; [exact IH | | exact Hc].
    intros e0 s0. apply deliver_closed.
Qed.

(** *** The depth of deliveries *)

(** A delivery inside a call happens in a state of lower level than the
    state of the call: [handleClose] sets the closed flag before it delivers,
    and the drain sets [isSending] before it can fail. *)
Definition level (s : State) : nat :=
  if isClosed s then 0 else if isSending s then 1 else 2.

Definition agree (m : nat) (E1 E2 : Event -> State -> State) : Prop :=
  forall e s, level s < m -> E1 e s = E2 e s.

Lemma level_closed s : isClosed s = true -> level s = 0.
Proof. intros H. unfold level. now rewrite H. Qed.

Lemma handleClose_agree m E1 E2 c r w s :
  agree m E1 E2 -> 0 < m ->
  Reentrant.handleClose E1 c r w s = Reentrant.handleClose E2 c r w s.
Proof.
  intros H Hm. unfold Reentrant.handleClose. destruct (isClosed s); [reflexivity|].
  apply H. rewrite level_closed by reflexivity. exact Hm.
Qed.

Lemma handleError_agree m E1 E2 err s :
  agree m E1 E2 -> level s < m ->
  Reentrant.handleError E1 err s = Reentrant.handleError E2 err s.
Proof.
  intros H Hm. unfold Reentrant.handleError. destruct (isClosed s); [reflexivity|].
  rewrite (H (ErrorEvent err) s Hm). apply (handleClose_agree m); [exact H | lia].
Qed.

Lemma drain_loop_agree m E1 E2 s :
  agree m E1 E2 -> level s < m ->
  Reentrant.drain_loop E1 s = Reentrant.drain_loop E2 s.
Proof.
  intros H Hm. unfold Reentrant.drain_loop, Reentrant.drain_binary, Reentrant.drain_catch.
  now rewrite !(handleError_agree m E1 E2 _ s H Hm).
Qed.

Lemma call_agree m E1 E2 s c :
  agree m E1 E2 -> level s <= m ->
  Reentrant.call E1 s c = Reentrant.call E2 s c.
Proof.
  intros H Hm. destruct c as [data | code reason | value]; cbn [Reentrant.call];
    [| |reflexivity].
  - unfold Reentrant.send, Reentrant.queueSend.
    destruct (negb (ReadyState_eqb (readyState s) OPEN)); [reflexivity|]. cbn [snd].
    unfold Reentrant.flushQueue. sim.
    destruct (isSending s) eqn:Hs; [reflexivity|].
    destruct (isClosed s) eqn:Hc; [now rewrite orb_true_r|].
    match goal with |- context [if ?b then _ else _] => destruct b end; [reflexivity|].
    apply (drain_loop_agree m); [exact H|].
    unfold level in *. sim. rewrite Hc, Hs in Hm. rewrite Hc. lia.
  - unfold Reentrant.close, Reentrant.close_finish.
    destruct (isClosed s) eqn:Hc; [reflexivity|]. cbn [orb].
    destruct (ReadyState_eqb (readyState s) CLOSING); [reflexivity|].
    destruct (truthy (connId (changeState CLOSING s))); [reflexivity|].
    apply (handleClose_agree m); [exact H|].
    unfold level in Hm. rewrite Hc in Hm. destruct (isSending s); lia.
Qed.

(** A delivery does not clear [isSending]. *)
Definition keeps_sending (E : Event -> State -> State) : Prop :=
  forall e s, isSending s = true -> isSending (E e s) = true.

Lemma call_keeps_sending E s c :
  keeps_sending E -> isSending s = true -> isSending (Reentrant.call E s c) = true.
Proof.
  intros HE Hs. destruct c as [data | code reason | value]; cbn [Reentrant.call].
  - unfold Reentrant.send, Reentrant.queueSend.
    destruct (negb (ReadyState_eqb (readyState s) OPEN)); [exact Hs|]. cbn [snd].
    unfold Reentrant.flushQueue. sim. rewrite Hs. exact Hs.
  - unfold Reentrant.close, Reentrant.close_finish, Reentrant.handleClose.
    destruct (isClosed s) eqn:Hc; [exact Hs|]. cbn [orb].
    destruct (ReadyState_eqb (readyState s) CLOSING); [exact Hs|].
    destruct (truthy (connId (changeState CLOSING s))); [exact Hs|].
    change (isClosed (changeState CLOSING s)) with (isClosed s). rewrite Hc.
    apply HE. exact Hs.
  - unfold set_binaryType_property.
    destruct (jsstring_eqb value (lit "arraybuffer")); exact Hs.
Qed.

Lemma deliver_keeps_sending n L : keeps_sending (Reentrant.deliver n L).
Proof.
  induction n as [|n IH]; intros e s Hs; cbn [Reentrant.deliver]; [exact Hs|].
  assert (G : forall calls t, isSending t = true ->
                isSending (fold_left (Reentrant.call (Reentrant.deliver n L)) calls t) = true).
  { induction calls as [|c l IHl]; intros t Ht; cbn [fold_left]; [exact Ht|].
    apply IHl. now apply call_keeps_sending. }
  apply G. exact Hs.
Qed.

Lemma call_level n L s c :
  level (Reentrant.call (Reentrant.deliver n L) s c) <= level s.
Proof.
  unfold level at 2. destruct (isClosed s) eqn:Hc.
  - destruct (call_closed (Reentrant.deliver n L) s c Hc) as (A & _).
    rewrite level_closed; [cbv iota; lia | congruence].
  - destruct (isSending s) eqn:Hs.
    + pose proof (call_keeps_sending _ s c (deliver_keeps_sending n L) Hs) as H.
      unfold level. rewrite H.
      destruct (isClosed (Reentrant.call (Reentrant.deliver n L) s c)); lia.
    + unfold level.
      destruct (isClosed (Reentrant.call (Reentrant.deliver n L) s c)); [lia|].
      destruct (isSending (Reentrant.call (Reentrant.deliver n L) s c)); lia.
Qed.

Lemma fold_call_agree m n L E1 calls : forall s,
  agree m E1 (Reentrant.deliver n L) -> level s <= m ->
  fold_left (Reentrant.call E1) calls s
  = fold_left (Reentrant.call (Reentrant.deliver n L)) calls s.
Proof.
  induction calls as [|c l IH]; intros s H Hm; cbn [fold_left]; [reflexivity|].
  rewrite (call_agree m E1 (Reentrant.deliver n L) s c H Hm).
  apply IH; [exact H|]. pose proof (call_level n L s c). lia.
Qed.

Lemma deliver_agree L n : agree n (Reentrant.deliver n L) (Reentrant.deliver (S n) L).
Proof.
  induction n as [|n IH]; intros e s Hl; [lia|].
  change (fold_left (Reentrant.call (Reentrant.deliver n L)) (L (emit e s) e) (emit e s)
          = fold_left (Reentrant.call (Reentrant.deliver (S n) L)) (L (emit e s) e)
              (emit e s)).
  apply (fold_call_agree n); [exact IH|].
  change (level (emit e s)) with (level s). lia.
Qed.

Lemma level_bounded s : level s < 3.
Proof. unfold level. destruct (isClosed s), (isSending s); lia. Qed.

(** Three levels of delivery are all there are. *)
Lemma deliver_enough L n e s :
  Reentrant.depth <= n -> Reentrant.deliver n L e s = Reentrant.emit L e s.
Proof.
  unfold Reentrant.emit, Reentrant.depth. induction 1 as [|n Hn IH]; [reflexivity|].
  rewrite <- IH. symmetry. apply deliver_agree.
  pose proof (level_bounded s). lia.
Qed.

(** *** A failure where the listeners of the error event call nothing *)

Lemma handleError_observed L err s :
  isClosed s = false -> (forall t, L t (ErrorEvent err) = []) ->
  events (Reentrant.handleError (Reentrant.emit L) err s)
  = events s ++ [ErrorEvent err; CloseEvent 1006 (error_reason err) false].
Proof.
  intros Hc HL. unfold Reentrant.handleError. rewrite Hc.
  unfold Reentrant.emit at 2. rewrite (deliver_observers _ L _ _ HL).
  destruct (handleClose_open (Reentrant.emit L)
              (fun e t => deliver_closed Reentrant.depth L e t)
              1006 (error_reason err) false (emit (ErrorEvent err) s) Hc)
    as (_ & _ & _ & _ & B5).
  rewrite B5. unfold emit. trace_norm. now rewrite <- app_assoc.
Qed.

(** *** A socket that never had a connection *)

(** What calls and deliveries leave alone on a socket that is not OPEN. *)
Definition same_socket (s t : State) : Prop :=
  connId t = connId s /\ connecting t = connecting s /\ isSending t = isSending s
  /\ drain t = drain s /\ polling t = polling s /\ closing t = closing s
  /\ requests t = requests s /\ accepted t = accepted s
  /\ sendQueue t = sendQueue s /\ bufferedAmount t = bufferedAmount s.

Lemma same_socket_refl s : same_socket s s.
Proof. repeat split. Qed.

Lemma same_socket_trans s t u : same_socket s t -> same_socket t u -> same_socket s u.
Proof.
  intros (A1 & A2 & A3 & A4 & A5 & A6 & A7 & A8 & A9 & A10)
         (B1 & B2 & B3 & B4 & B5 & B6 & B7 & B8 & B9 & B10).
  repeat split; congruence.
Qed.

Lemma still_same_socket s t : still s t -> readyState s <> OPEN -> same_socket s t.
Proof.
  intros (_ & _ & A3 & A4 & A5 & A6 & A7 & A8 & _ & A10 & _ & A12) Hn.
  destruct (A12 Hn) as (B1 & B2 & B3). repeat split; assumption.
Qed.

Section NeverConnected.

Variable E : Event -> State -> State.
Hypothesis E_closed : forall e s, isClosed s = true -> still (emit e s) (E e s).

(** [close] on a socket that is CONNECTING and has no connection id. *)
Lemma close_unconnected code reason s :
  isClosed s = false -> readyState s = CONNECTING -> connId s = None ->
  same_socket s (Reentrant.close E code reason s)
  /\ isClosed (Reentrant.close E code reason s) = true
  /\ readyState (Reentrant.close E code reason s) = CLOSED
  /\ events (Reentrant.close E code reason s)
     = events s
       ++ [CloseEvent (match code with Some c => c | None => 1000%Z end)
             (match reason with Some r => r | None => [] end)
             ((match code with Some c => c | None => 1000%Z end) =? 1000)%Z].
Proof.
  intros Hc Hr Hi. unfold Reentrant.close, Reentrant.close_finish, Reentrant.handleClose.
  rewrite Hc, Hr. cbn [orb ReadyState_eqb].
  change (connId (changeState CLOSING s)) with (connId s). rewrite Hi. cbn [truthy].
  change (isClosed (changeState CLOSING s)) with (isClosed s). rewrite Hc.
  match goal with |- context [E ?e ?v] => pose proof (E_closed e v eq_refl) as H end.
  pose proof (still_same_socket _ _ H ltac:(cbn; discriminate)) as S.
  destruct H as (B1 & B2 & _ & _ & _ & _ & _ & _ & B9 & _).
  split; [|split; [exact B1|split; [exact B2|]]].
  - eapply same_socket_trans; [|exact S]. clear.
    unfold same_socket, emit, changeState. trace_norm. repeat split.
  - rewrite B9. unfold emit, changeState. trace_norm. reflexivity.
Qed.

Lemma fold_call_unconnected calls : forall s,
  isClosed s = false -> readyState s = CONNECTING -> connId s = None ->
  same_socket s (fold_left (Reentrant.call E) calls s)
  /\ match Reentrant.first_close calls with
     | None =>
         isClosed (fold_left (Reentrant.call E) calls s) = false
         /\ readyState (fold_left (Reentrant.call E) calls s) = CONNECTING
         /\ events (fold_left (Reentrant.call E) calls s) = events s
     | Some (c, r) =>
         isClosed (fold_left (Reentrant.call E) calls s) = true
         /\ readyState (fold_left (Reentrant.call E) calls s) = CLOSED
         /\ events (fold_left (Reentrant.call E) calls s)
            = events s ++ [CloseEvent c r (c =? 1000)%Z]
     end.
Proof.
  induction calls as [|c l IH]; intros s Hc Hr Hi; cbn [fold_left Reentrant.first_close].
  - split; [apply same_socket_refl | auto].
  - destruct c as [data | code reason | value]; cbn [Reentrant.call].
    + unfold Reentrant.send, Reentrant.queueSend. rewrite Hr. cbn [ReadyState_eqb negb snd].
      now apply IH.
    + destruct (close_unconnected code reason s Hc Hr Hi) as (A1 & A2 & A3 & A4).
      pose proof (fold_call_closed E l _ A2) as H.
      pose proof (still_same_socket _ _ H ltac:(rewrite A3; discriminate)) as S.
      destruct H as (B1 & B2 & _ & _ & _ & _ & _ & _ & B9 & _).
      split; [eapply same_socket_trans; eassumption|].
      split; [congruence|]. split; [congruence|]. now rewrite B9, A4.
    + unfold set_binaryType_property.
      destruct (jsstring_eqb value (lit "arraybuffer")).
      * destruct (IH (set_binaryType arraybuffer s) Hc Hr Hi) as (A1 & A2).
        split; [exact A1 | exact A2].
      * destruct (IH (set_binaryType blob s) Hc Hr Hi) as (A1 & A2).
        split; [exact A1 | exact A2].
Qed.

End NeverConnected.

Lemma deliver_connecting n L e s :
  connecting (Reentrant.deliver n L e s) = connecting s.
Proof.
  destruct (isClosed s) eqn:Hc.
  - now destruct (deliver_closed n L e s Hc) as (_ & _ & _ & A & _).
  - now destruct (deliver_outcome n L e s Hc) as (_ & A & _).
Qed.

Lemma handleMessage_connecting E :
  (forall e s, connecting (E e s) = connecting s) ->
  forall m s, connecting (Reentrant.handleMessage E m s) = connecting s.
Proof.
  intros HE m s. unfold Reentrant.handleMessage, Reentrant.handleClose.
  repeat match goal with
  | |- context [match ?x with _ => _ end] => destruct x eqn:?
  end; rewrite ?HE; reflexivity.
Qed.

Lemma step_connecting E s i s' :
  (forall e s, connecting (E e s) = connecting s) ->
  connecting s = false -> Reentrant.step E s i = Some s' -> connecting s' = false.
Proof.
  intros HE Hn Hs.
  assert (Hf : forall l t, connecting (fold_left (fun st m => Reentrant.handleMessage E m st) l t)
                           = connecting t).
  { induction l as [|m l IH]; intros t; cbn [fold_left]; [reflexivity|].
    now rewrite IH, handleMessage_connecting. }
  destruct i; cbn [Reentrant.step] in Hs;
    repeat match type of Hs with
    | (if ?b then _ else _) = Some _ => destruct b eqn:?; [|try discriminate Hs]
    | match ?x with _ => _ end = Some _ => destruct x eqn:?; try discriminate Hs
    end;
    try congruence; injection Hs as <-; rewrite <- Hn.
  8:{ unfold Reentrant.poll_result, poll_loop, fetch.
      match goal with |- context [if ?b then _ else _] => destruct b end; sim; apply Hf. }
  all: rops;
    repeat match goal with
    | |- context [match ?x with _ => _ end] => destruct x eqn:?
    end;
    repeat (progress (sim; rewrite ?HE)); reflexivity.
Qed.

(** After the connect request failed, or failed to matter. *)
Lemma step_settled E s i : settled_closed s -> Reentrant.step E s i = step s i.
Proof.
  intros (H1 & H2 & H3 & H4 & H5 & H6).
  destruct i; cbn [Reentrant.step step]; rewrite ?H3, ?H4, ?H5, ?H6; try reflexivity.
  - unfold Reentrant.send, send, Reentrant.queueSend, queueSend. now rewrite H2.
  - unfold Reentrant.close, close. now rewrite H1.
Qed.

Lemma run_settled L inputs : forall s s',
  settled_closed s -> Reentrant.run L s inputs = Some s' ->
  settled_closed s' /\ trace s' = trace s.
Proof.
  induction inputs as [|i r IH]; intros s s' H Hr; cbn [Reentrant.run] in Hr.
  - injection Hr as <-. auto.
  - rewrite (step_settled _ s i H) in Hr.
    destruct (step s i) as [s1|] eqn:Hs; [|discriminate].
    destruct (step_settled_closed s i s1 H Hs) as (A & B & _).
    destruct (IH s1 s' A Hr) as (C & D). split; [exact C | congruence].
Qed.

(** [close] finalized the socket before the connect request settled. *)
Definition closed_unopened (first : Request) (s : State) : Prop :=
  connecting s = true /\ isClosed s = true /\ readyState s = CLOSED
  /\ connId s = None /\ drain s = DrainIdle /\ polling s = false /\ closing s = []
  /\ requests s = [first] /\ accepted s = []
  /\ exists c r, events s = [CloseEvent c r (c =? 1000)%Z].

Lemma step_before_settlement L first s i s' :
  unopened first s \/ closed_unopened first s \/ connecting s = false ->
  Reentrant.step (Reentrant.emit L) s i = Some s' ->
  unopened first s' \/ closed_unopened first s' \/ connecting s' = false.
Proof.
  intros [U | [U | U]] Hs.
  - destruct U as (H1 & H2 & H3 & H4 & H5 & H6 & H7 & H8 & H9 & H10 & H11 & H12).
    destruct i; cbn [Reentrant.step] in Hs; rewrite ?H1, ?H9, ?H10, ?H11 in Hs;
      try discriminate; injection Hs as <-.
    + left. unfold Reentrant.send, Reentrant.queueSend. rewrite H12. cbn.
      repeat split; auto.
    + right. left.
      destruct (close_unconnected (Reentrant.emit L)
                  (fun e t => deliver_closed Reentrant.depth L e t)
                  code reason s H2 H12 H8)
        as ((A1 & A2 & A3 & A4 & A5 & A6 & A7 & A8 & A9 & A10) & B1 & B2 & B3).
      unfold closed_unopened. rewrite B3, H3. cbn [app].
      repeat split; try congruence. eexists _, _. reflexivity.
    + left. unfold set_binaryType_property.
      destruct (jsstring_eqb value (lit "arraybuffer")); repeat split; auto.
    + right. right. unfold startPolling, poll_loop, Reentrant.handleOpen, fetch.
      match goal with |- context [if ?b then _ else _] => destruct b end; sim;
        unfold Reentrant.emit; rewrite deliver_connecting; reflexivity.
    + right. right.
      destruct (handleError_open (Reentrant.emit L)
                  (fun e t => deliver_outcome Reentrant.depth L e t)
                  (fun e t => deliver_closed Reentrant.depth L e t)
                  (connect_error f) (set_connecting false s) H2) as (_ & A & _).
      exact A.
  - destruct U as (H1 & H2 & H3 & H4 & H5 & H6 & H7 & H8 & H9 & H10).
    destruct i; cbn [Reentrant.step] in Hs; rewrite ?H1, ?H5, ?H6, ?H7 in Hs;
      try discriminate; injection Hs as <-.
    + right. left. unfold Reentrant.send, Reentrant.queueSend. rewrite H3. cbn.
      repeat split; auto.
    + right. left. unfold Reentrant.close. rewrite H2. cbn. repeat split; auto.
    + right. left. unfold set_binaryType_property.
      destruct (jsstring_eqb value (lit "arraybuffer")); repeat split; auto.
    + right. right. unfold startPolling, poll_loop, Reentrant.handleOpen, fetch.
      match goal with |- context [if ?b then _ else _] => destruct b end; sim;
        unfold Reentrant.emit; rewrite deliver_connecting; reflexivity.
    + right. right. unfold Reentrant.handleError. sim. now rewrite H2.
  - right. right. eapply step_connecting; [|exact U|exact Hs].
    intros e t. apply deliver_connecting.
Qed.

Lemma run_before_settlement L first inputs : forall s s',
  unopened first s \/ closed_unopened first s \/ connecting s = false ->
  Reentrant.run L s inputs = Some s' ->
  unopened first s' \/ closed_unopened first s' \/ connecting s' = false.
Proof.
  induction inputs as [|i r IH]; intros s s' H Hr; cbn [Reentrant.run] in Hr.
  - now injection Hr as <-.
  - destruct (Reentrant.step (Reentrant.emit L) s i) as [s1|] eqn:Hs; [|discriminate].
    apply (IH s1 s'); [|exact Hr]. eapply step_before_settlement; eauto.
Qed.

(** *** The order of events *)

Lemma ends_after_errors_app errs c r w :
  forallb Reentrant.is_error errs = true ->
  ends_after_errors (errs ++ [CloseEvent c r w]) = true.
Proof.
  induction errs as [|e errs IH]; intros H; [reflexivity|].
  cbn [forallb] in H. apply andb_prop in H as [H1 H2].
  destruct e; try discriminate. cbn [app ends_after_errors].
  rewrite IH by exact H2. now destruct errs.
Qed.

Lemma session_with_listeners_app m l :
  forallb is_message m = true ->
  session_with_listeners (m ++ l) = session_with_listeners l.
Proof.
  induction m as [|e m IH]; intros H; [reflexivity|].
  cbn [forallb] in H. apply andb_prop in H as [H1 H2].
  destruct e; try discriminate. cbn [app session_with_listeners]. auto.
Qed.

Lemma session_with_listeners_end l :
  ends_after_errors l = true -> session_with_listeners l = true.
Proof. destruct l as [|[] ?]; try discriminate; auto. Qed.

(** From [s], not finalized, to [t]: message events, and then perhaps error
    events and the close event, with which the socket is finalized. *)
Definition grows_to (s t : State) : Prop :=
  connecting t = connecting s
  /\ ((isClosed t = false
       /\ exists m, events t = events s ++ m /\ forallb is_message m = true)
      \/ (isClosed t = true /\ readyState t = CLOSED
          /\ exists m errs c r w,
               events t = events s ++ m ++ errs ++ [CloseEvent c r w]
               /\ forallb is_message m = true
               /\ forallb Reentrant.is_error errs = true)).

Lemma outcome_grows s t : outcome s t -> grows_to s t.
Proof.
  intros (_ & A & [(B & C) | (B & C & errs & c & r & w & D & F & _)]).
  - split; [exact A|]. left. split; [exact B|]. exists []. now rewrite app_nil_r.
  - split; [exact A|]. right. split; [exact B|]. split; [exact C|].
    exists [], errs, c, r, w. auto.
Qed.

Section Turns.

Variable E : Event -> State -> State.
Hypothesis E_open : forall e s, isClosed s = false -> outcome (emit e s) (E e s).
Hypothesis E_closed : forall e s, isClosed s = true -> still (emit e s) (E e s).

Lemma handleMessage_idle m s :
  readyState s <> OPEN -> Reentrant.handleMessage E m s = s.
Proof.
  intros H. unfold Reentrant.handleMessage. destruct (readyState s); auto; congruence.
Qed.

Lemma fold_handleMessage_idle l s :
  readyState s <> OPEN ->
  fold_left (fun st m => Reentrant.handleMessage E m st) l s = s.
Proof.
  induction l as [|m l IH]; intros H; cbn [fold_left]; [reflexivity|].
  rewrite handleMessage_idle by exact H. now apply IH.
Qed.

Lemma handleMessage_grows m s :
  isClosed s = false -> grows_to s (Reentrant.handleMessage E m s).
Proof.
  intros Hc. unfold Reentrant.handleMessage.
  destruct (negb (ReadyState_eqb (readyState s) OPEN));
    [apply outcome_grows; now apply outcome_same|].
  destruct (is_string (msg_type m) "close").
  - destruct (handleClose_open E E_closed (code_or_1000 (msg_code m))
                (reason_or_empty (msg_reason m)) (code_is_1000 (msg_code m)) s Hc)
      as (_ & B2 & B3 & B4 & B5).
    split; [exact B2|]. right. split; [exact B3|]. split; [exact B4|].
    eexists [], [], _, _, _. split; [exact B5|]. auto.
  - destruct (decodeMessage m s) as [data|];
      [|apply outcome_grows; now apply outcome_same].
    destruct (E_open (MessageEvent data) s Hc)
      as (_ & A & [(B & C) | (B & C & errs & c & r & w & D & F & _)]).
    + split; [exact A|]. left. split; [exact B|]. exists [MessageEvent data].
      split; [|reflexivity]. rewrite C. unfold emit. trace_norm. reflexivity.
    + split; [exact A|]. right. split; [exact B|]. split; [exact C|].
      exists [MessageEvent data], errs, c, r, w. split; [|auto].
      rewrite D. unfold emit. trace_norm. now rewrite <- app_assoc.
Qed.

Lemma grows_trans s u v :
  grows_to s u -> isClosed u = false -> grows_to u v -> grows_to s v.
Proof.
  intros (A1 & [(A2 & m & A3 & A4) | (A2 & _)]) Hc; [|congruence].
  intros (B1 & [(B2 & m' & B3 & B4) | (B2 & B5 & m' & errs & c & r & w & B3 & B4 & B6)]).
  - split; [congruence|]. left. split; [exact B2|]. exists (m ++ m').
    rewrite B3, A3, <- app_assoc, forallb_app, A4, B4. auto.
  - split; [congruence|]. right. split; [exact B2|]. split; [exact B5|].
    exists (m ++ m'), errs, c, r, w.
    rewrite B3, A3, <- !app_assoc, forallb_app, A4, B4. auto.
Qed.

Lemma fold_handleMessage_grows_to l : forall s,
  isClosed s = false ->
  grows_to s (fold_left (fun st m => Reentrant.handleMessage E m st) l s).
Proof.
  induction l as [|m l IH]; intros s Hc; cbn [fold_left].
  - apply outcome_grows. now apply outcome_same.
  - pose proof (handleMessage_grows m s Hc) as H.
    destruct (isClosed (Reentrant.handleMessage E m s)) eqn:Hu.
    + destruct H as (A & [(B & _) | (B & C & D)]); [congruence|].
      rewrite fold_handleMessage_idle by (rewrite C; discriminate).
      split; [exact A|]. right. auto.
    + eapply grows_trans; [exact H | exact Hu | now apply IH].
Qed.

Lemma drain_binary_outcome bytes size s :
  isClosed s = false -> outcome s (Reentrant.drain_binary E bytes size s).
Proof.
  intros Hc. unfold Reentrant.drain_binary. destruct (encodeBinary bytes).
  - apply outcome_same; auto. unfold drain_submit, fetch. trace_norm. reflexivity.
  - now apply drain_catch_outcome.
Qed.

(** A turn of a socket that is open to events. *)
Lemma step_grows_to s i s' :
  connecting s = false -> isClosed s = false ->
  Reentrant.step E s i = Some s' -> grows_to s s'.
Proof.
  intros Hn Hc Hs.
  destruct i; cbn [Reentrant.step] in Hs; rewrite ?Hn in Hs; try discriminate;
    repeat match type of Hs with
    | (if ?b then _ else _) = Some _ => destruct b eqn:?; [|try discriminate Hs]
    | match ?x with _ => _ end = Some _ => destruct x eqn:?; try discriminate Hs
    end;
    injection Hs as <-.
  - apply outcome_grows.
    apply (call_outcome E E_open E_closed s (Reentrant.Send data) Hc).
  - apply outcome_grows.
    apply (call_outcome E E_open E_closed s (Reentrant.Close code reason) Hc).
  - apply outcome_grows.
    apply (call_outcome E E_open E_closed s (Reentrant.AssignBinaryType value) Hc).
  - apply outcome_grows. now apply drain_binary_outcome.
  - apply outcome_grows. now apply drain_catch_outcome.
  - apply outcome_grows. unfold Reentrant.drain_acked.
    eapply outcome_from; [| | |apply (drain_loop_outcome E E_open E_closed); exact Hc];
      try reflexivity. trace_norm. reflexivity.
  - apply outcome_grows. now apply drain_catch_outcome.
  - unfold Reentrant.poll_result.
    pose proof (fold_handleMessage_grows_to
                  (match messages with Some l => l | None => [] end) s Hc) as H.
    revert H. generalize (fold_left (fun st m => Reentrant.handleMessage E m st)
                 match messages with Some l => l | None => [] end s).
    intros t (A & B).
    assert (P : connecting (poll_loop t) = connecting t
                /\ isClosed (poll_loop t) = isClosed t
                /\ readyState (poll_loop t) = readyState t
                /\ events (poll_loop t) = events t).
    { clear. unfold poll_loop, fetch. destruct (isClosed t) eqn:E0; trace_norm; auto. }
    destruct P as (P1 & P2 & P3 & P4). unfold grows_to. rewrite P1, P2, P3, P4.
    split; assumption.
  - unfold Reentrant.poll_catch. rewrite Hc.
    destruct (handleError_open E E_open E_closed (poll_error f) s Hc)
      as (A1 & A2 & A3 & A4 & errs & c & r & w & A5 & A6 & A7).
    split; [exact A2|]. right. split; [exact A3|]. split; [exact A4|].
    exists [], (ErrorEvent (poll_error f) :: errs), c, r, w.
    change (events (set_polling false (Reentrant.handleError E (poll_error f) s)))
      with (events (Reentrant.handleError E (poll_error f) s)).
    rewrite A5. cbn [app forallb Reentrant.is_error andb]. auto.
  - unfold Reentrant.close_finish.
    destruct (handleClose_open E E_closed z j (z =? 1000)%Z (set_closing l s) Hc)
      as (B1 & B2 & B3 & B4 & B5).
    split; [exact B2|]. right. split; [exact B3|]. split; [exact B4|].
    eexists [], [], _, _, _. split; [exact B5|]. auto.
Qed.

End Turns.

(** The session of a socket is on. *)
Definition in_session (s : State) : Prop :=
  connecting s = false /\ isClosed s = false
  /\ exists m, events s = OpenEvent :: m /\ forallb is_message m = true.

(** The socket is finalized and its connect request has settled. *)
Definition over (s : State) : Prop :=
  connecting s = false /\ isClosed s = true
  /\ event_order_with_listeners (events s) = true
  /\ (readyState s = OPEN -> polling s = false).

Definition session_inv (first : Request) (s : State) : Prop :=
  unopened first s \/ closed_unopened first s \/ in_session s \/ over s.

Lemma step_over E s i s' :
  over s -> Reentrant.step E s i = Some s' -> over s' /\ events s' = events s.
Proof.
  intros (H1 & H2 & H3 & H4) Hs.
  assert (G : connecting s' = false /\ isClosed s' = true /\ events s' = events s
              /\ (readyState s' = OPEN -> polling s' = false)).
  { destruct i; cbn [Reentrant.step] in Hs; rewrite ?H1 in Hs; try discriminate;
      repeat match type of Hs with
      | (if ?b then _ else _) = Some _ => destruct b eqn:?; [|try discriminate Hs]
      | match ?x with _ => _ end = Some _ => destruct x eqn:?; try discriminate Hs
      end;
      injection Hs as <-.
    1:{ pose proof (call_closed E s (Reentrant.Send data) H2) as K.
        cbn [Reentrant.call] in K.
        destruct K as (K1 & K2 & _ & K4 & _ & _ & K7 & _ & K9 & _).
        repeat split; try congruence. rewrite K2, K7. exact H4. }
    1:{ pose proof (call_closed E s (Reentrant.Close code reason) H2) as K.
        cbn [Reentrant.call] in K.
        destruct K as (K1 & K2 & _ & K4 & _ & _ & K7 & _ & K9 & _).
        repeat split; try congruence. rewrite K2, K7. exact H4. }
    1:{ pose proof (call_closed E s (Reentrant.AssignBinaryType value) H2) as K.
        cbn [Reentrant.call] in K.
        destruct K as (K1 & K2 & _ & K4 & _ & _ & K7 & _ & K9 & _).
        repeat split; try congruence. rewrite K2, K7. exact H4. }
    5:{ (* the poll result *)
        assert (Hno : readyState s <> OPEN)
          by (intros Ho; specialize (H4 Ho); congruence).
        unfold Reentrant.poll_result. rewrite fold_handleMessage_idle by exact Hno.
        unfold poll_loop. rewrite H2. repeat split; auto. }
    all: unfold Reentrant.drain_binary, Reentrant.drain_catch, Reentrant.drain_acked,
           Reentrant.drain_loop, Reentrant.poll_catch, Reentrant.close_finish,
           Reentrant.handleError, Reentrant.handleClose, drain_submit, fetch;
      sim; rewrite ?H2;
      repeat match goal with
      | |- context [match ?x with _ => _ end] => destruct x eqn:?
      end;
      trace_norm; repeat split; auto. }
  destruct G as (G1 & G2 & G3 & G4).
  split; [|exact G3]. split; [exact G1|]. split; [exact G2|]. split; [|exact G4].
  now rewrite G3.
Qed.

Lemma step_session L first s i s' :
  session_inv first s -> Reentrant.step (Reentrant.emit L) s i = Some s' ->
  session_inv first s'.
Proof.
  pose proof (fun e t => deliver_outcome Reentrant.depth L e t) as Eo.
  pose proof (fun e t => deliver_closed Reentrant.depth L e t) as Ec.
  fold (Reentrant.emit L) in Eo, Ec.
  intros [U | [U | [U | U]]] Hs; unfold session_inv.
  - destruct U as (H1 & H2 & H3 & H4 & H5 & H6 & H7 & H8 & H9 & H10 & H11 & H12).
    destruct i; cbn [Reentrant.step] in Hs; rewrite ?H1, ?H9, ?H10, ?H11 in Hs;
      try discriminate; injection Hs as <-.
    + left. unfold Reentrant.send, Reentrant.queueSend. rewrite H12. cbn.
      repeat split; auto.
    + right. left.
      destruct (close_unconnected (Reentrant.emit L) Ec code reason s H2 H12 H8)
        as ((A1 & A2 & A3 & A4 & A5 & A6 & A7 & A8 & A9 & A10) & B1 & B2 & B3).
      unfold closed_unopened. rewrite B3, H3. cbn [app].
      repeat split; try congruence. eexists _, _. reflexivity.
    + left. unfold set_binaryType_property.
      destruct (jsstring_eqb value (lit "arraybuffer")); repeat split; auto.
    + (* the connect request succeeds *)
      unfold Reentrant.handleOpen.
      match goal with |- context [Reentrant.emit L OpenEvent ?u] =>
        pose proof (Eo OpenEvent u H2) as (_ & A & B);
        assert (Hu : events (emit OpenEvent u) = [OpenEvent])
          by (unfold emit, changeState; trace_norm; rewrite H3; reflexivity);
        generalize dependent (Reentrant.emit L OpenEvent u)
      end.
      intros t A B. change (connecting (emit OpenEvent _)) with false in A.
      assert (P : connecting (startPolling t) = connecting t
                  /\ isClosed (startPolling t) = isClosed t
                  /\ readyState (startPolling t) = readyState t
                  /\ events (startPolling t) = events t
                  /\ (isClosed t = true -> polling (startPolling t) = false)).
      { clear. unfold startPolling, poll_loop, fetch.
        destruct (isClosed t) eqn:E0; trace_norm; repeat split; auto; discriminate. }
      destruct P as (P1 & P2 & P3 & P4 & P5).
      destruct B as [(B1 & B2) | (B1 & B2 & errs & c & r & w & B3 & B4 & _)].
      * right. right. left. split; [congruence|]. split; [congruence|].
        exists []. rewrite P4, B2, Hu. auto.
      * right. right. right. split; [congruence|]. split; [congruence|].
        rewrite P4, P3, B3, Hu. cbn [app event_order_with_listeners]. split.
        -- apply session_with_listeners_end. now apply ends_after_errors_app.
        -- rewrite B2. discriminate.
    + (* the connect request fails *)
      right. right. right.
      destruct (handleError_open (Reentrant.emit L) Eo Ec (connect_error f)
                  (set_connecting false s) H2)
        as (_ & A2 & A3 & A4 & errs & c & r & w & A5 & A6 & _).
      split; [exact A2|]. split; [exact A3|]. split.
      * rewrite A5. change (events (set_connecting false s)) with (events s).
        rewrite H3. cbn [app].
        apply (ends_after_errors_app (ErrorEvent (connect_error f) :: errs)).
        cbn [forallb Reentrant.is_error andb]. exact A6.
      * rewrite A4. discriminate.
  - destruct U as (H1 & H2 & H3 & H4 & H5 & H6 & H7 & H8 & H9 & c & r & H10).
    destruct i; cbn [Reentrant.step] in Hs; rewrite ?H1, ?H5, ?H6, ?H7 in Hs;
      try discriminate; injection Hs as <-.
    + right. left. unfold Reentrant.send, Reentrant.queueSend. rewrite H3. cbn.
      repeat split; auto. exists c, r. exact H10.
    + right. left. unfold Reentrant.close. rewrite H2. cbn.
      repeat split; auto. exists c, r. exact H10.
    + right. left. unfold set_binaryType_property.
      destruct (jsstring_eqb value (lit "arraybuffer")); repeat split; auto;
        exists c, r; exact H10.
    + (* the connect request succeeds on the finalized socket *)
      right. right. right. unfold Reentrant.handleOpen.
      match goal with |- context [Reentrant.emit L OpenEvent ?u] =>
        pose proof (Ec OpenEvent u H2) as (A1 & A2 & _ & A4 & _ & _ & A7 & _ & A9 & _);
        assert (Hu : events (emit OpenEvent u) = [CloseEvent c r (c =? 1000)%Z; OpenEvent])
          by (unfold emit, changeState; trace_norm; rewrite H10; reflexivity);
        generalize dependent (Reentrant.emit L OpenEvent u)
      end.
      intros t A1 A2 A4 A7 A9. cbn in A1, A2, A4, A7. rewrite H2 in A1.
      unfold startPolling, poll_loop. rewrite A1.
      split; [exact A4|]. split; [exact A1|]. split.
      * change (events (set_polling false t)) with (events t). rewrite A9, Hu. reflexivity.
      * reflexivity.
    + right. right. right. unfold Reentrant.handleError. sim. rewrite H2.
      split; [reflexivity|]. split; [exact H2|]. split.
      * change (events (set_connecting false s)) with (events s). rewrite H10. reflexivity.
      * sim. rewrite H3. discriminate.
  - destruct U as (H1 & H2 & m & H3 & H4).
    destruct (step_grows_to (Reentrant.emit L) Eo Ec s i s' H1 H2 Hs)
      as (G1 & [(G2 & x & G3 & G4) | (G2 & G5 & x & errs & c & r & w & G3 & G4 & G6)]).
    + right. right. left. split; [congruence|]. split; [exact G2|].
      exists (m ++ x). split; [now rewrite G3, H3|].
      rewrite forallb_app, H4, G4. reflexivity.
    + right. right. right. split; [congruence|]. split; [exact G2|]. split.
      * rewrite G3, H3. cbn [app event_order_with_listeners].
        rewrite session_with_listeners_app by exact H4.
        rewrite session_with_listeners_app by exact G4.
        apply session_with_listeners_end. now apply ends_after_errors_app.
      * rewrite G5. discriminate.
  - right. right. right. now destruct (step_over _ s i s' U Hs).
Qed.

Lemma run_session L first inputs : forall s s',
  session_inv first s -> Reentrant.run L s inputs = Some s' -> session_inv first s'.
Proof.
  induction inputs as [|i r IH]; intros s s' H Hr; cbn [Reentrant.run] in Hr.
  - now injection Hr as <-.
  - destruct (Reentrant.step (Reentrant.emit L) s i) as [s1|] eqn:Hs; [|discriminate].
    apply (IH s1 s'); [|exact Hr]. eapply step_session; eauto.
Qed.

Lemma session_inv_order first s :
  session_inv first s -> event_order_with_listeners (events s) = true.
Proof.
  intros [U | [U | [U | U]]].
  - destruct U as (_ & _ & H3 & _). now rewrite H3.
  - destruct U as (_ & _ & _ & _ & _ & _ & _ & _ & _ & c & r & H10). now rewrite H10.
  - destruct U as (_ & _ & m & H3 & H4). rewrite H3. cbn [event_order_with_listeners].
    rewrite <- (app_nil_r m). now rewrite session_with_listeners_app.
  - now destruct U as (_ & _ & H3 & _).
Qed.

End ReentrantFacts.

(** ** The properties of the specification *)

Import Socket.

(** A socket to try the statements on, and the answer that opens it. *)
Definition example_socket : State :=
  createHttpBridgeWebSocket (lit "ws://portal.example/chat") ProtocolAbsent.

Definition connected : Input := ConnectOk (Some (lit "c1")) None.

Definition runs (inputs : list Input) : bool :=
  match run example_socket inputs with
  | Some _ => true
  | None => false
  end.

Definition run_example (inputs : list Input) : State :=
  match run example_socket inputs with
  | Some s => s
  | None => example_socket
  end.

(** C1. The frames of the queue reach the send endpoint in the order of the
    accepted calls of [send]: what was submitted is the encoding of the first
    accepted payloads, one after the other.  One drain runs at a time
    ([isSending] is set exactly while its continuation is pending, and
    [flushQueue] then starts no other), and at most one of its submissions
    awaits a response.  A frame leaves the queue, and its size the buffered
    amount, once per acknowledgment, from the head; the next frame is submitted
    only after that.  ([submitted] lists the frames of the queue; the close
    frame that [close] posts is none of them.) *)
Theorem sends_submitted_in_order url protocols inputs s :
  run (createHttpBridgeWebSocket url protocols) inputs = Some s ->
  map Some (submitted s) = map frame_of (firstn (length (submitted s)) (accepted s))
  /\ (isSending s = false <-> drain s = DrainIdle)
  /\ (drain s <> DrainIdle -> flushQueue s = s)
  /\ length (submitted s) = settled inputs + inflight s
  /\ inflight s <= 1
  /\ map fst (sendQueue s) = skipn (acks inputs) (accepted s)
  /\ bufferedAmount s = sum_sizes (skipn (acks inputs) (accepted s))
  /\ acks inputs <= length (submitted s) <= acks inputs + 1.
Proof.
  intros Hr.
  pose proof (SocketFacts.run_queue_inv inputs _ _ 0 0
                (SocketFacts.create_queue_inv url protocols) Hr) as H.
  cbn [Nat.add] in H.
  destruct (SocketFacts.fifo_of_position _ _ _ H) as (F1 & F2 & F3).
  pose proof H as (I1 & I2 & I3 & _ & I5 & _).
  repeat split; try tauto; try lia.
  - intros Hd. unfold flushQueue.
    rewrite (SocketFacts.sending_of_drain _ _ _ H Hd). reflexivity.
  - unfold inflight. destruct (drain s); lia.
  - now rewrite <- F2, I3, SocketFacts.sum_sizes_queue.
Qed.

Lemma run_example_eq (inputs : list Input) :
  runs inputs = true ->
  run (createHttpBridgeWebSocket (lit "ws://portal.example/chat") ProtocolAbsent) inputs
  = Some (run_example inputs).
Proof.
  unfold runs, run_example. fold example_socket.
  destruct (run example_socket inputs); [reflexivity | discriminate].
Qed.

Lemma run_example_reachable (inputs : list Input) :
  runs inputs = true ->
  reachable (run_example inputs).
Proof.
  intros H. apply (SocketFacts.run_reachable inputs example_socket).
  - constructor.
  - now apply run_example_eq.
Qed.

Lemma sends_submitted_in_order_witness :
  accepted (run_example
    [connected; CallSend (PString (lit "a")); CallSend (PBlob [x01; x02]); SendOk])
  = [PString (lit "a"); PBlob [x01; x02]]
  /\ map Some (submitted (run_example
       [connected; CallSend (PString (lit "a")); CallSend (PBlob [x01; x02]); SendOk]))
     = map frame_of
         (firstn (length (submitted (run_example
            [connected; CallSend (PString (lit "a")); CallSend (PBlob [x01; x02]); SendOk])))
            (accepted (run_example
            [connected; CallSend (PString (lit "a")); CallSend (PBlob [x01; x02]); SendOk]))).
Proof.
  split; [vm_compute; reflexivity|].
  refine (proj1 (sends_submitted_in_order (lit "ws://portal.example/chat") ProtocolAbsent
                  [connected; CallSend (PString (lit "a")); CallSend (PBlob [x01; x02]); SendOk]
                  _ (run_example_eq _ _))).
  vm_compute; reflexivity.
Defined.

(** The close frame is posted by the activity of [close] itself, beside the
    drain: it can await its response while a frame of the queue awaits its
    own. *)
Lemma close_frame_beside_a_submission :
  requests (run_example [connected; CallSend (PString (lit "a")); CallClose None None])
  = [ConnectRequest (lit "ws://portal.example/chat") [];
     PollRequest (Some (lit "c1"));
     SendRequest (Some (lit "c1")) (TextFrame (lit "a"));
     SendRequest (Some (lit "c1")) (CloseFrame 1000 [])]
  /\ inflight (run_example [connected; CallSend (PString (lit "a")); CallClose None None]) = 1
  /\ closing (run_example [connected; CallSend (PString (lit "a")); CallClose None None])
     = [(1000%Z, [])].
Proof. repeat split; vm_compute; reflexivity. Qed.

(** C2. Finalization is idempotent.  With the closed flag set, [handleClose]
    does nothing, and neither do the error path and [close()] that lead to it.
    A socket has emitted one close event if its closed flag is set and none
    otherwise, and a set flag stays set: no turn adds a second close event.
    Two calls of [close()] leave one close event, at once when no close frame
    is sent, and when the pending close frame settles otherwise. *)
Theorem close_event_fires_once :
  (forall s code reason wasClean,
      isClosed s = true -> handleClose code reason wasClean s = s)
  /\ (forall s e, isClosed s = true -> handleError e s = s)
  /\ (forall s code reason, isClosed s = true -> close code reason s = s)
  /\ (forall s, reachable s -> close_count s = if isClosed s then 1 else 0)
  /\ (forall s i s',
         reachable s -> isClosed s = true -> step s i = Some s' ->
         isClosed s' = true /\ close_count s' = 1)
  /\ (forall s c1 r1 c2 r2,
         reachable s ->
         close_count (close c2 r2 (close c1 r1 s)) = 1
         \/ (close_count (close c2 r2 (close c1 r1 s)) = 0
             /\ exists s3, step (close c2 r2 (close c1 r1 s)) CloseSettled = Some s3
                           /\ close_count s3 = 1)).
Proof.
  assert (Hstay : forall s i s', isClosed s = true -> step s i = Some s' -> isClosed s' = true).
  { intros s i s' Hc Hs. pose proof (SocketFacts.fold_handleMessage (fun st => isClosed st = true)) as Hf.
    SocketFacts.step_cases Hs.
    10:{ unfold poll_result, poll_loop.
         assert (Ht : isClosed (fold_left (fun st m => handleMessage m st)
                                  match messages with Some l => l | None => [] end s) = true).
         { apply Hf; [|exact Hc].
           intros m s0 H0. unfold handleMessage. SocketFacts.ops.
           SocketFacts.break_match; auto. }
         rewrite Ht. exact Ht. }
    all: SocketFacts.ops; SocketFacts.break_match; auto; congruence. }
  split; [|split; [|split; [|split; [|split]]]].
  - intros s code reason wasClean Hc. unfold handleClose. now rewrite Hc.
  - intros s e Hc. unfold handleError. now rewrite Hc.
  - intros s code reason Hc. unfold close. now rewrite Hc.
  - intros s Hs. now destruct (SocketFacts.reachable_invariants s Hs) as (H & _).
  - intros s i s' Hs Hc Hstep. pose proof (Hstay _ _ _ Hc Hstep) as Hc'.
    split; [exact Hc'|].
    destruct (SocketFacts.reachable_invariants s' (reachable_step s i s' Hs Hstep)) as (H & _).
    unfold SocketFacts.closed_once in H. now rewrite Hc' in H.
  - intros s c1 r1 c2 r2 Hs.
    set (s2 := close c2 r2 (close c1 r1 s)).
    assert (R2 : reachable s2).
    { apply (reachable_step (close c1 r1 s) (CallClose c2 r2)); [|reflexivity].
      apply (reachable_step s (CallClose c1 r1)); [exact Hs | reflexivity]. }
    destruct (SocketFacts.reachable_invariants s2 R2) as (H & L & _).
    unfold SocketFacts.closed_once in H.
    destruct (isClosed s2) eqn:Hc; [now left|]. right. split; [exact H|].
    assert (Hstate : readyState s2 = CLOSING).
    { clear - Hc. subst s2. revert Hc. SocketFacts.ops.
      SocketFacts.break_match; intros; try congruence; auto;
        rewrite ?orb_true_r, ?orb_false_r in *; congruence. }
    destruct L as (_ & _ & _ & _ & L5 & _).
    specialize (L5 Hstate Hc).
    destruct (closing s2) as [|[code reason] rest] eqn:Hq; [congruence|].
    eexists. split; [cbn [step]; rewrite Hq; reflexivity|].
    unfold close_finish, handleClose. SocketFacts.sim. rewrite Hc.
    unfold close_count, events, emit, changeState in *. SocketFacts.sim.
    rewrite !flat_map_app, !filter_app, !length_app. cbn. lia.
Qed.

Lemma close_event_fires_once_witness :
  close_count (close None None (close None None (run_example [connected]))) = 0
  /\ exists s3,
       step (close None None (close None None (run_example [connected]))) CloseSettled
       = Some s3 /\ close_count s3 = 1.
Proof.
  assert (R : reachable (run_example [connected]))
    by (apply run_example_reachable; vm_compute; reflexivity).
  destruct (proj2 (proj2 (proj2 (proj2 (proj2 close_event_fires_once))))
              (run_example [connected]) None None None None R) as [H | H].
  - vm_compute in H. discriminate H.
  - exact H.
Defined.

(** C3, as the code has it.  Every change of [readyState] is one of
    CONNECTING to OPEN, OPEN to CLOSING, CONNECTING to CLOSING, CLOSING to
    CLOSED, OPEN to CLOSED and CONNECTING to CLOSED, in every execution in
    which the connect request does not succeed after the socket was
    finalized. *)
Theorem state_walk_by_design url protocols inputs s :
  run (createHttpBridgeWebSocket url protocols) inputs = Some s ->
  no_late_open (createHttpBridgeWebSocket url protocols) inputs = true ->
  chain allowed_by_design CONNECTING (states s) = true
  /\ readyState s = final CONNECTING (states s).
Proof.
  intros Hr Hn.
  pose proof (SocketFacts.create_life url protocols) as L.
  destruct (SocketFacts.run_moves inputs _ _ L Hr Hn) as (new & E & C).
  pose proof (SocketFacts.run_life inputs _ _ L Hr) as (_ & _ & _ & _ & _ & F).
  split; [|now rewrite F].
  change (states (createHttpBridgeWebSocket url protocols)) with (@nil ReadyState) in E.
  now rewrite E.
Qed.

Lemma state_walk_by_design_witness :
  states (run_example [connected; CallClose None None; CloseSettled])
  = [OPEN; CLOSING; CLOSED]
  /\ chain allowed_by_design CONNECTING
       (states (run_example [connected; CallClose None None; CloseSettled])) = true.
Proof.
  split; [vm_compute; reflexivity|].
  refine (proj1 (state_walk_by_design (lit "ws://portal.example/chat") ProtocolAbsent
                   [connected; CallClose None None; CloseSettled] _
                   (run_example_eq _ _) _)); vm_compute; reflexivity.
Defined.

(** The socket goes from OPEN to CLOSED at once when a poll fails: a
    transition the specification excludes. *)
Lemma open_to_closed_directly :
  states (run_example [connected; PollFail (BadStatus 500 [])]) = [OPEN; CLOSED]
  /\ chain allowed CONNECTING
       (states (run_example [connected; PollFail (BadStatus 500 [])])) = false.
Proof. split; vm_compute; reflexivity. Qed.

(** [handleOpen] does not look at the closed flag: a connect request that
    succeeds after [close()] takes the finalized socket from CLOSED to OPEN. *)
Lemma closed_to_open_after_close :
  states (run_example [CallClose None None; connected]) = [CLOSING; CLOSED; OPEN]
  /\ isClosed (run_example [CallClose None None; connected]) = true
  /\ readyState (run_example [CallClose None None; connected]) = OPEN.
Proof. repeat split; vm_compute; reflexivity. Qed.

(** A listener of the error event that closes the socket. *)
Definition closes_on_error : Reentrant.Listeners :=
  fun _ e => match e with
             | ErrorEvent _ => [Reentrant.Close None None]
             | _ => []
             end.

(** C4, as the code has it, whatever the listeners call on the socket while
    events are delivered to them.  When the open operation, the submission of
    a queued frame or the poll operation fails and the closed flag is not
    set, also while the socket is CLOSING, the error event of the failure is
    emitted and the socket is finalized in the same turn: the close event is
    the last event of the turn, and only error events come between the two.
    The close event has code 1006 and wasClean=false when the socket has a
    connection id; and when the listeners of the error event call nothing,
    the events of the turn are the error event and the close event with code
    1006, the message of the error and wasClean=false.  When the flag is set
    the failure adds no event.  The request that [close] makes for its close
    frame is no such operation: when it settles, failed or not, no error
    event is emitted, and the close event, if the flag is not set, has the
    code and the reason given to [close]. *)
Theorem transport_failure_is_fatal L :
  (forall s i s' err,
      failure_of i = Some err ->
      Reentrant.step (Reentrant.emit L) s i = Some s' ->
      if isClosed s
      then events s' = events s /\ readyState s' = readyState s /\ isClosed s' = true
      else isClosed s' = true /\ readyState s' = CLOSED
           /\ (exists errs c r w,
                  events s' = events s ++ ErrorEvent err :: errs ++ [CloseEvent c r w]
                  /\ forallb Reentrant.is_error errs = true
                  /\ (truthy (connId s) = true -> c = 1006%Z /\ w = false))
           /\ ((forall t, L t (ErrorEvent err) = []) ->
               events s'
               = events s ++ [ErrorEvent err; CloseEvent 1006 (error_reason err) false]))
  /\ (forall s code reason rest s',
         closing s = (code, reason) :: rest ->
         Reentrant.step (Reentrant.emit L) s CloseSettled = Some s' ->
         events s'
         = if isClosed s then events s
           else events s ++ [CloseEvent code reason (code =? 1000)%Z]).
Proof.
  pose proof (fun e t => ReentrantFacts.deliver_outcome Reentrant.depth L e t) as Eo.
  pose proof (fun e t => ReentrantFacts.deliver_closed Reentrant.depth L e t) as Ec.
  fold (Reentrant.emit L) in Eo, Ec.
  split.
  - intros s i s' err Hf Hs.
    assert (G : forall t, connId t = connId s -> events t = events s ->
                isClosed t = isClosed s -> readyState t = readyState s ->
                if isClosed s
                then events (Reentrant.handleError (Reentrant.emit L) err t) = events s
                     /\ readyState (Reentrant.handleError (Reentrant.emit L) err t)
                        = readyState s
                     /\ isClosed (Reentrant.handleError (Reentrant.emit L) err t) = true
                else isClosed (Reentrant.handleError (Reentrant.emit L) err t) = true
                     /\ readyState (Reentrant.handleError (Reentrant.emit L) err t) = CLOSED
                     /\ (exists errs c r w,
                            events (Reentrant.handleError (Reentrant.emit L) err t)
                            = events s ++ ErrorEvent err :: errs ++ [CloseEvent c r w]
                            /\ forallb Reentrant.is_error errs = true
                            /\ (truthy (connId s) = true -> c = 1006%Z /\ w = false))
                     /\ ((forall u, L u (ErrorEvent err) = []) ->
                         events (Reentrant.handleError (Reentrant.emit L) err t)
                         = events s
                           ++ [ErrorEvent err; CloseEvent 1006 (error_reason err) false])).
    { intros t A B C D. destruct (isClosed s) eqn:Hc.
      - unfold Reentrant.handleError. rewrite C. auto.
      - destruct (ReentrantFacts.handleError_open (Reentrant.emit L) Eo Ec err t C)
          as (_ & _ & A3 & A4 & errs & c & r & w & A5 & A6 & A7).
        split; [exact A3|]. split; [exact A4|]. split.
        + exists errs, c, r, w. rewrite A in A7. rewrite A5, B. auto.
        + intros HL. rewrite (ReentrantFacts.handleError_observed L err t C HL). now rewrite B. }
    destruct i; cbn [failure_of] in Hf; try discriminate; injection Hf as <-;
      cbn [Reentrant.step] in Hs.
    + destruct (connecting s); [|discriminate]. injection Hs as <-.
      apply (G (set_connecting false s)); reflexivity.
    + destruct (drain s); try discriminate. injection Hs as <-.
      unfold Reentrant.drain_catch.
      apply (G s); reflexivity.
    + destruct (polling s); [|discriminate]. injection Hs as <-.
      unfold Reentrant.poll_catch.
      pose proof (G s eq_refl eq_refl eq_refl eq_refl) as H.
      destruct (isClosed s) eqn:Hc; [repeat split; auto|].
      exact H.
  - intros s code reason rest s' Hq Hs. cbn [Reentrant.step] in Hs. rewrite Hq in Hs.
    injection Hs as <-. unfold Reentrant.close_finish.
    destruct (isClosed s) eqn:Hc.
    + unfold Reentrant.handleClose. SocketFacts.sim. now rewrite Hc.
    + destruct (ReentrantFacts.handleClose_open (Reentrant.emit L) Ec code reason
                  (code =? 1000)%Z (set_closing rest s) Hc) as (_ & _ & _ & _ & A).
      exact A.
Qed.

Lemma transport_failure_is_fatal_witness :
  isClosed (run_example [connected]) = false
  /\ truthy (connId (run_example [connected])) = true
  /\ exists s',
       Reentrant.step (Reentrant.emit closes_on_error) (run_example [connected])
         (PollFail (BadStatus 500 [])) = Some s'
       /\ isClosed s' = true /\ readyState s' = CLOSED
       /\ exists errs c r w,
            events s'
            = events (run_example [connected])
              ++ ErrorEvent (Error (lit "Poll failed: 500")) :: errs ++ [CloseEvent c r w]
            /\ c = 1006%Z /\ w = false.
Proof.
  assert (Hc : isClosed (run_example [connected]) = false) by (vm_compute; reflexivity).
  assert (Ht : truthy (connId (run_example [connected])) = true)
    by (vm_compute; reflexivity).
  split; [exact Hc|]. split; [exact Ht|].
  destruct (Reentrant.step (Reentrant.emit closes_on_error) (run_example [connected])
              (PollFail (BadStatus 500 []))) as [s'|] eqn:Hs;
    [|vm_compute in Hs; discriminate Hs].
  exists s'. split; [reflexivity|].
  pose proof (proj1 (transport_failure_is_fatal closes_on_error)
                (run_example [connected]) (PollFail (BadStatus 500 [])) s'
                (Error (lit "Poll failed: 500")) eq_refl Hs) as T.
  rewrite Hc in T. destruct T as (A & B & (errs & c & r & w & C & _ & D) & _).
  split; [exact A|]. split; [exact B|].
  exists errs, c, r, w. split; [exact C|]. exact (D Ht).
Defined.

(** Without a connection id, [close] finalizes the socket at once: called by
    a listener of the error event of a failed connect request, it gives the
    close event its own code, and [handleError] finds the flag set. *)
Lemma error_listener_closes_first :
  option_map events
    (Reentrant.run closes_on_error example_socket
       [ConnectFail (BadStatus 502 (lit "Bad Gateway"))])
  = Some [ErrorEvent (Error (lit "Connection failed: 502 Bad Gateway"));
          CloseEvent 1000 [] true].
Proof. vm_compute. reflexivity. Qed.

(** A poll that fails while the socket is CLOSING is not suppressed: the
    error event and a close event with code 1006 are emitted. *)
Lemma failure_while_closing_is_reported :
  readyState (run_example [connected; CallClose None None]) = CLOSING
  /\ events (run_example [connected; CallClose None None; PollFail (BadStatus 500 [])])
     = [OpenEvent;
        ErrorEvent (Error (lit "Poll failed: 500"));
        CloseEvent 1006 (lit "Poll failed: 500") false].
Proof. split; vm_compute; reflexivity. Qed.

(** C5. In every state other than OPEN, [send] throws to its caller and
    leaves the socket as it was: the queue, the buffered amount, the state
    and the record. *)
Theorem send_rejected_unless_open data s :
  readyState s <> OPEN ->
  send data s = (Throw (Error (lit "WebSocket is not open")), s).
Proof.
  intros H. unfold send, queueSend.
  destruct (readyState s); [reflexivity | congruence | reflexivity | reflexivity].
Qed.

Lemma send_rejected_unless_open_witness :
  readyState example_socket = CONNECTING
  /\ send (PString (lit "hello")) example_socket
     = (Throw (Error (lit "WebSocket is not open")), example_socket).
Proof.
  split; [reflexivity|].
  apply (send_rejected_unless_open (PString (lit "hello")) example_socket).
  vm_compute. discriminate.
Defined.

(** C6, as the code has it.  [send] with a payload the codec cannot encode,
    while OPEN, returns normally: the payload is queued with size 0.  When no
    drain is running and the socket is not finalized, the drain that this
    call starts fails to encode it and takes the error path before the call
    returns: an error event, a close event with code 1006 and wasClean=false,
    the closed flag set and the state CLOSED.  Otherwise the call only queues
    it; a drain that reaches it takes the error path then. *)
Theorem unsupported_payload_takes_error_path :
  (forall s,
      reachable s -> readyState s = OPEN ->
      fst (send POther s) = Normal
      /\ accepted (snd (send POther s)) = accepted s ++ [POther]
      /\ calculateSize POther = 0%Z
      /\ (isClosed s = false -> isSending s = false ->
          events (snd (send POther s))
          = events s ++ [ErrorEvent (Error (lit "Unsupported data type"));
                         CloseEvent 1006 (lit "Unsupported data type") false]
          /\ readyState (snd (send POther s)) = CLOSED
          /\ isClosed (snd (send POther s)) = true)
      /\ (isSending s = true \/ isClosed s = true ->
          events (snd (send POther s)) = events s
          /\ readyState (snd (send POther s)) = OPEN
          /\ isClosed (snd (send POther s)) = isClosed s
          /\ sendQueue (snd (send POther s)) = sendQueue s ++ [(POther, 0%Z)]))
  /\ (forall s size rest,
         sendQueue s = (POther, size) :: rest -> isClosed s = false ->
         drain_loop s = drain_catch (Error (lit "Unsupported data type")) s).
Proof.
  split.
  - intros s Hs Ho.
    destruct (SocketFacts.reachable_invariants s Hs) as (_ & _ & a & b & Q).
    destruct Q as (I1 & _ & _ & I4 & _).
    unfold send, queueSend. rewrite Ho. cbn [ReadyState_eqb negb fst snd].
    split; [reflexivity|]. split.
    { unfold accepted, flushQueue. SocketFacts.ops. SocketFacts.break_match;
        rewrite ?flat_map_app; cbn [flat_map app]; rewrite ?app_nil_r; reflexivity. }
    split; [reflexivity|]. split.
    + intros Hc Hsend.
      rewrite (I4 (proj1 I1 Hsend) Hc).
      unfold flushQueue, events. SocketFacts.ops. SocketFacts.sim.
      rewrite Hc, Hsend. cbn [orb app]. SocketFacts.sim.
      rewrite !flat_map_app. cbn [flat_map app]. rewrite <- !app_assoc, ?app_nil_r.
      repeat split.
    + intros Hor. unfold flushQueue, events. SocketFacts.sim.
      assert (E : isSending s
                  || match sendQueue s ++ [(POther, calculateSize POther)] with
                     | [] => true
                     | _ :: _ => false
                     end
                  || isClosed s = true).
      { destruct Hor as [-> | ->]; [reflexivity | apply orb_true_r]. }
      rewrite E. SocketFacts.sim.
      rewrite !flat_map_app. cbn [flat_map app]. rewrite ?app_nil_r.
      repeat split; auto.
  - intros s size rest Hq Hc. unfold drain_loop. now rewrite Hq, Hc.
Qed.

Lemma unsupported_payload_takes_error_path_witness :
  readyState (run_example [connected]) = OPEN
  /\ fst (send POther (run_example [connected])) = Normal
  /\ accepted (snd (send POther (run_example [connected])))
     = accepted (run_example [connected]) ++ [POther].
Proof.
  assert (R : reachable (run_example [connected]))
    by (apply run_example_reachable; vm_compute; reflexivity).
  assert (O : readyState (run_example [connected]) = OPEN) by (vm_compute; reflexivity).
  split; [exact O|].
  destruct (proj1 unsupported_payload_takes_error_path (run_example [connected]) R O)
    as (H1 & H2 & _).
  split; [exact H1 | exact H2].
Defined.

(** [send] of a payload that cannot be encoded raises nothing; it closes the
    socket. *)
Lemma unsupported_payload_closes_the_socket :
  readyState (run_example [connected]) = OPEN
  /\ fst (send POther (run_example [connected])) = Normal
  /\ readyState (snd (send POther (run_example [connected]))) = CLOSED
  /\ isClosed (snd (send POther (run_example [connected]))) = true
  /\ events (snd (send POther (run_example [connected])))
     = [OpenEvent;
        ErrorEvent (Error (lit "Unsupported data type"));
        CloseEvent 1006 (lit "Unsupported data type") false].
Proof. repeat split; vm_compute; reflexivity. Qed.

(** C7, as the code has it.  While OPEN, an inbound item that is not a close
    notification and whose [data] decodes is delivered as one message event.
    Its data is the UTF-8 decoding of the bytes when the [messageType]
    property of the item is "text"; otherwise, whatever its [type] property,
    an ArrayBuffer of the bytes when the binary type is arraybuffer and a Blob
    of them when it is not. *)
Theorem inbound_decoding m s bytes :
  readyState s = OPEN ->
  is_string (msg_type m) "close" = false ->
  Codec.decodeBytes (data_text m) = Some bytes ->
  events (handleMessage m s)
  = events s
    ++ [MessageEvent
          (if is_string (msg_messageType m) "text"
           then DataText (Codec.textDecoder_decode bytes)
           else match binaryType s with
                | arraybuffer => DataArrayBuffer bytes
                | blob => DataBlob bytes
                end)].
Proof.
  intros Ho Hc Hd. unfold handleMessage, decodeMessage, events, emit.
  rewrite Ho, Hc, Hd. cbn [ReadyState_eqb negb].
  destruct (is_string (msg_messageType m) "text"), (binaryType s);
    SocketFacts.sim; rewrite flat_map_app; reflexivity.
Qed.

(** An item of type "text", as the poll endpoint is documented to send it. *)
Definition text_item : InboundMessage :=
  {| msg_type := Some (lit "text"); msg_messageType := None;
     msg_data := Some (lit "aGk="); msg_code := None; msg_reason := None |}.

Lemma inbound_decoding_witness :
  readyState (run_example [connected]) = OPEN
  /\ events (handleMessage text_item (run_example [connected]))
     = events (run_example [connected])
       ++ [MessageEvent
             (if is_string (msg_messageType text_item) "text"
              then DataText (Codec.textDecoder_decode ["h"; "i"]%byte)
              else match binaryType (run_example [connected]) with
                   | arraybuffer => DataArrayBuffer ["h"; "i"]%byte
                   | blob => DataBlob ["h"; "i"]%byte
                   end)].
Proof.
  assert (O : readyState (run_example [connected]) = OPEN) by (vm_compute; reflexivity).
  split; [exact O|].
  apply (inbound_decoding text_item (run_example [connected]) ["h"; "i"]%byte O);
    vm_compute; reflexivity.
Defined.

(** An item whose [type] is "text" is not delivered as a text string: with
    no [messageType] it is a Blob, or an ArrayBuffer in arraybuffer mode. *)
Lemma type_text_is_delivered_as_binary :
  events (handleMessage text_item (run_example [connected]))
  = [OpenEvent; MessageEvent (DataBlob ["h"; "i"]%byte)]
  /\ events (handleMessage text_item
               (run_example [connected; SetBinaryType (lit "arraybuffer")]))
     = [OpenEvent; MessageEvent (DataArrayBuffer ["h"; "i"]%byte)].
Proof. split; vm_compute; reflexivity. Qed.

(** C9. The buffered amount of a socket is never negative.  It is the sum of
    the sizes of the payloads of the calls of [send] made while the socket
    was OPEN, less those that were acknowledged, which are the first of them;
    the size of a text is the length of its UTF-8 encoding and the size of a
    binary payload its length in bytes.  These payloads are what the queue
    holds; after any run of turns with no acknowledgment the buffered amount
    is the sum over all of them. *)
Theorem buffered_amount_is_sum url protocols inputs s :
  run (createHttpBridgeWebSocket url protocols) inputs = Some s ->
  (0 <= bufferedAmount s)%Z
  /\ map fst (sendQueue s)
     = skipn (acks inputs)
         (Observations.sent_while_open (createHttpBridgeWebSocket url protocols) inputs)
  /\ bufferedAmount s
     = Observations.total_bytes
         (skipn (acks inputs)
            (Observations.sent_while_open (createHttpBridgeWebSocket url protocols)
               inputs))
  /\ (acks inputs = 0 ->
      bufferedAmount s
      = Observations.total_bytes
          (Observations.sent_while_open (createHttpBridgeWebSocket url protocols)
             inputs)).
Proof.
  intros Hr.
  pose proof (SocketFacts.run_queue_inv inputs _ _ 0 0
                (SocketFacts.create_queue_inv url protocols) Hr) as H.
  cbn [Nat.add] in H.
  destruct (SocketFacts.fifo_of_position _ _ _ H) as (_ & F2 & _).
  destruct H as (_ & I2 & I3 & _).
  rewrite (SessionFacts.run_accepted inputs _ _ Hr) in F2.
  change (accepted (createHttpBridgeWebSocket url protocols)) with (@nil Payload) in F2.
  cbn [app] in F2.
  assert (B : bufferedAmount s
              = Observations.total_bytes
                  (skipn (acks inputs)
                     (Observations.sent_while_open
                        (createHttpBridgeWebSocket url protocols) inputs))).
  { rewrite <- F2, I3, SocketFacts.sum_sizes_queue by exact I2.
    apply SessionFacts.sum_sizes_total_bytes. }
  split; [rewrite I3; now apply SocketFacts.total_size_nonneg|].
  split; [exact F2|]. split; [exact B|].
  intros Ha. now rewrite Ha in B.
Qed.

Lemma buffered_amount_is_sum_witness :
  Observations.sent_while_open example_socket
    [CallSend (PString (lit "early")); connected; CallSend (PString [233%N]);
     CallSend (PArrayBuffer [x01; x02; x03])]
  = [PString [233%N]; PArrayBuffer [x01; x02; x03]]
  /\ acks [CallSend (PString (lit "early")); connected; CallSend (PString [233%N]);
           CallSend (PArrayBuffer [x01; x02; x03])] = 0
  /\ bufferedAmount
       (run_example
          [CallSend (PString (lit "early")); connected; CallSend (PString [233%N]);
           CallSend (PArrayBuffer [x01; x02; x03])])
     = Observations.total_bytes
         (Observations.sent_while_open example_socket
            [CallSend (PString (lit "early")); connected; CallSend (PString [233%N]);
             CallSend (PArrayBuffer [x01; x02; x03])])
  /\ Observations.total_bytes [PString [233%N]; PArrayBuffer [x01; x02; x03]] = 5%Z.
Proof.
  split; [vm_compute; reflexivity|]. split; [reflexivity|].
  split; [|vm_compute; reflexivity].
  assert (Hr : run (createHttpBridgeWebSocket (lit "ws://portal.example/chat") ProtocolAbsent)
                 [CallSend (PString (lit "early")); connected; CallSend (PString [233%N]);
                  CallSend (PArrayBuffer [x01; x02; x03])]
               = Some (run_example
                         [CallSend (PString (lit "early")); connected;
                          CallSend (PString [233%N]);
                          CallSend (PArrayBuffer [x01; x02; x03])]))
    by (apply run_example_eq; vm_compute; reflexivity).
  exact (proj2 (proj2 (proj2 (buffered_amount_is_sum _ _ _ _ Hr))) eq_refl).
Defined.

(** C10. A close notification without a code, polled while OPEN, finalizes
    the socket with a close event of code 1000, of the reason of the item (the
    empty string when it has none) and of wasClean=false; what follows it in
    the same poll result is dropped. *)
Theorem remote_close_without_code s m :
  reachable s -> polling s = true -> readyState s = OPEN ->
  is_string (msg_type m) "close" = true -> msg_code m = None ->
  events (handleMessage m s)
  = events s ++ [CloseEvent 1000 (reason_or_empty (msg_reason m)) false]
  /\ (msg_reason m = None -> reason_or_empty (msg_reason m) = [])
  /\ readyState (handleMessage m s) = CLOSED
  /\ isClosed (handleMessage m s) = true
  /\ (forall rest,
         option_map events (step s (PollOk (Some (m :: rest))))
         = Some (events s ++ [CloseEvent 1000 (reason_or_empty (msg_reason m)) false])).
Proof.
  intros Hs Hp Ho Ht Hcode.
  destruct (SocketFacts.reachable_invariants s Hs) as (_ & L & _).
  destruct L as (_ & _ & _ & L4 & _). specialize (L4 Hp Ho).
  assert (E : handleMessage m s
              = emit (CloseEvent 1000 (reason_or_empty (msg_reason m)) false)
                  (changeState CLOSED (set_isClosed true s))).
  { unfold handleMessage, handleClose. rewrite Ho, Ht, Hcode, L4. reflexivity. }
  assert (Ev : events (handleMessage m s)
               = events s ++ [CloseEvent 1000 (reason_or_empty (msg_reason m)) false]).
  { rewrite E. unfold events, emit, changeState. SocketFacts.sim.
    rewrite !flat_map_app. cbn [flat_map app]. now rewrite app_nil_r. }
  split; [exact Ev|]. split; [now intros ->|].
  split; [now rewrite E|]. split; [now rewrite E|].
  intros rest. cbn [step]. rewrite Hp. cbn [option_map]. f_equal.
  unfold poll_result. cbn [fold_left].
  assert (Hdrop : forall l t, readyState t = CLOSED ->
            fold_left (fun st x => handleMessage x st) l t = t).
  { induction l as [|x l IH]; intros t Ht'; cbn [fold_left]; [reflexivity|].
    assert (Hx : handleMessage x t = t) by (unfold handleMessage; now rewrite Ht').
    rewrite Hx. now apply IH. }
  rewrite Hdrop by (now rewrite E).
  unfold poll_loop. replace (isClosed (handleMessage m s)) with true by (now rewrite E).
  exact Ev.
Qed.

(** A close notification with no code and no reason. *)
Definition bare_close : InboundMessage :=
  {| msg_type := Some (lit "close"); msg_messageType := None;
     msg_data := None; msg_code := None; msg_reason := None |}.

Lemma remote_close_without_code_witness :
  readyState (run_example [connected]) = OPEN
  /\ events (handleMessage bare_close (run_example [connected]))
     = events (run_example [connected])
       ++ [CloseEvent 1000 (reason_or_empty (msg_reason bare_close)) false].
Proof.
  assert (R : reachable (run_example [connected]))
    by (apply run_example_reachable; vm_compute; reflexivity).
  assert (O : readyState (run_example [connected]) = OPEN) by (vm_compute; reflexivity).
  assert (P : polling (run_example [connected]) = true) by (vm_compute; reflexivity).
  split; [exact O|].
  exact (proj1 (remote_close_without_code (run_example [connected]) bare_close
                  R P O eq_refl eq_refl)).
Defined.

(** C8. Every byte sequence, the empty one and those longer than one chunk of
    0x8000 bytes included, is encoded by [encodeBinary] to a radix-64 text
    which [atob] followed by the byte loop of [decodeMessage] turns back into
    the same bytes. *)
Theorem binary_round_trip (bytes : list byte) :
  exists data,
    Codec.encodeBinary bytes = Some data /\ Codec.decodeBytes data = Some bytes.
Proof.
  exists (Codec.btoa_units (Codec.fromCharCode bytes)). split.
  - apply CodecFacts.encodeBinary_value.
  - unfold Codec.decodeBytes.
    rewrite CodecFacts.atob_btoa by apply CodecFacts.fromCharCode_bounded.
    now rewrite CodecFacts.map_u8_fromCharCode.
Qed.

(** ** Further properties of the code *)

Import Codec CodecFacts SocketFacts Observations SessionFacts EncodingFacts.

(** A binary item, and an item whose data is no radix-64 text. *)
Definition binary_item : InboundMessage :=
  {| msg_type := Some (lit "message"); msg_messageType := Some (lit "binary");
     msg_data := Some (lit "AQI="); msg_code := None; msg_reason := None |}.

Definition malformed_item : InboundMessage :=
  {| msg_type := Some (lit "message"); msg_messageType := Some (lit "text");
     msg_data := Some (lit "a*b="); msg_code := None; msg_reason := None |}.

(** *** The socket *)



(** X2. When the connect request fails on a socket that was not closed
    meanwhile, the error event is emitted and then the close event: that of
    [handleError], with code 1006, not clean and with the message of the
    error, unless a listener of the error event calls [close], in which case
    it has the code and the reason of the first such call and is clean when
    the code is 1000.  When [close] was called before the request failed, the
    failure emits nothing and the close event of that call is the only
    event.  Either way the socket is CLOSED, and whatever is called or
    settles afterwards emits nothing, posts nothing and accepts no
    payload. *)
Theorem failed_connect_is_final L url protocols before f after s0 s :
  Reentrant.run L (createHttpBridgeWebSocket url protocols) before = Some s0 ->
  Reentrant.run L s0 (ConnectFail f :: after) = Some s ->
  readyState s = CLOSED
  /\ requests s = [ConnectRequest url (protocol_list protocols)]
  /\ accepted s = []
  /\ if isClosed s0
     then events s = events s0
          /\ exists c r, events s0 = [CloseEvent c r (c =? 1000)%Z]
     else events s
          = [ErrorEvent (connect_error f);
             match Reentrant.first_close
                     (L (emit (ErrorEvent (connect_error f)) (set_connecting false s0))
                        (ErrorEvent (connect_error f))) with
             | Some (c, r) => CloseEvent c r (c =? 1000)%Z
             | None => CloseEvent 1006 (error_reason (connect_error f)) false
             end].
Proof.
  intros Hb Hr. cbn [Reentrant.run] in Hr.
  destruct (Reentrant.step (Reentrant.emit L) s0 (ConnectFail f)) as [s1|] eqn:Hs;
    [|discriminate].
  set (first := ConnectRequest url (protocol_list protocols)) in *.
  assert (U0 : unopened first (createHttpBridgeWebSocket url protocols))
    by (repeat split).
  pose proof (ReentrantFacts.run_before_settlement L first before _ s0 (or_introl U0) Hb)
    as U.
  cbn [Reentrant.step] in Hs. destruct (connecting s0) eqn:Hn; [|discriminate].
  injection Hs as <-.
  pose proof (fun e t => ReentrantFacts.deliver_closed Reentrant.depth L e t) as Ec.
  fold (Reentrant.emit L) in Ec.
  assert (G : forall s1, settled_closed s1 -> Reentrant.run L s1 after = Some s ->
                readyState s = CLOSED /\ trace s = trace s1).
  { intros s1 D R. destruct (ReentrantFacts.run_settled L after s1 s D R) as ((_ & A & _) & B).
    auto. }
  destruct U as [U | [U | U]]; [| |congruence].
  - (* the socket was not closed *)
    destruct U as (H1 & H2 & H3 & H4 & H5 & H6 & H7 & H8 & H9 & H10 & H11 & H12).
    rewrite H2.
    set (err := connect_error f) in *.
    set (u := emit (ErrorEvent err) (set_connecting false s0)) in *.
    assert (Hd : Reentrant.emit L (ErrorEvent err) (set_connecting false s0)
                 = fold_left (Reentrant.call (Reentrant.deliver 2 L)) (L u (ErrorEvent err)) u)
      by reflexivity.
    pose proof (ReentrantFacts.fold_call_unconnected (Reentrant.deliver 2 L)
                  (fun e t => ReentrantFacts.deliver_closed 2 L e t)
                  (L u (ErrorEvent err)) u H2 H12 H8) as (S & F).
    assert (Eu : events u = [ErrorEvent err])
      by (unfold u, emit; trace_norm; rewrite H3; reflexivity).
    unfold Reentrant.handleError in Hr |- *. sim. rewrite H2 in Hr. rewrite Hd in Hr.
    revert S F Hr.
    generalize (fold_left (Reentrant.call (Reentrant.deliver 2 L)) (L u (ErrorEvent err)) u).
    intros t (S1 & S2 & S3 & S4 & S5 & S6 & S7 & S8 & S9 & S10) F Hr.
    change (connecting u) with false in S2. change (drain u) with (drain s0) in S4.
    change (polling u) with (polling s0) in S5. change (closing u) with (closing s0) in S6.
    assert (Ru : requests u = requests s0) by (unfold u, emit; trace_norm; reflexivity).
    assert (Au : accepted u = accepted s0) by (unfold u, emit; trace_norm; reflexivity).
    destruct (Reentrant.first_close (L u (ErrorEvent err))) as [[c r]|].
    + destruct F as (F1 & F2 & F3).
      unfold Reentrant.handleClose in Hr. rewrite F1 in Hr.
      assert (D : settled_closed t) by (repeat split; congruence).
      destruct (G t D Hr) as (A & T).
      unfold events, requests, accepted in *. rewrite T.
      split; [exact A|]. split; [congruence|]. split; [congruence|].
      rewrite F3, Eu. reflexivity.
    + destruct F as (F1 & F2 & F3).
      destruct (ReentrantFacts.handleClose_open (Reentrant.emit L) Ec
                  1006 (error_reason err) false t F1) as (B1 & B2 & B3 & B4 & B5).
      pose proof (ReentrantFacts.deliver_closed Reentrant.depth L
                    (CloseEvent 1006 (error_reason err) false)
                    (changeState CLOSED (set_isClosed true t)) eq_refl) as St.
      pose proof (ReentrantFacts.still_same_socket _ _ St ltac:(cbn; discriminate))
        as (T1 & T2 & T3 & T4 & T5 & T6 & T7 & T8 & T9 & T10).
      fold (Reentrant.emit L) in T1, T2, T3, T4, T5, T6, T7, T8, T9, T10.
      assert (Hh : Reentrant.handleClose (Reentrant.emit L) 1006 (error_reason err) false t
                   = Reentrant.emit L (CloseEvent 1006 (error_reason err) false)
                       (changeState CLOSED (set_isClosed true t)))
        by (unfold Reentrant.handleClose; now rewrite F1).
      rewrite Hh in *.
      assert (Rt : requests (emit (CloseEvent 1006 (error_reason err) false)
                               (changeState CLOSED (set_isClosed true t))) = requests t)
        by (unfold emit, changeState; trace_norm; reflexivity).
      assert (At : accepted (emit (CloseEvent 1006 (error_reason err) false)
                               (changeState CLOSED (set_isClosed true t))) = accepted t)
        by (unfold emit, changeState; trace_norm; reflexivity).
      assert (D : settled_closed
                    (Reentrant.emit L (CloseEvent 1006 (error_reason err) false)
                       (changeState CLOSED (set_isClosed true t)))).
      { split; [exact B3|]. split; [exact B4|]. split; [congruence|].
        split; [rewrite T4; unfold emit, changeState; sim; congruence|].
        split; [rewrite T5 | rewrite T6]; unfold emit, changeState; sim; congruence. }
      destruct (G _ D Hr) as (A & T).
      unfold events, requests, accepted in *. rewrite T.
      split; [exact A|]. split; [congruence|]. split; [congruence|].
      rewrite B5, F3, Eu. reflexivity.
  - (* [close] had finalized it *)
    destruct U as (H1 & H2 & H3 & H4 & H5 & H6 & H7 & H8 & H9 & c & r & H10).
    rewrite H2. unfold Reentrant.handleError in Hr. sim. rewrite H2 in Hr.
    assert (D : settled_closed (set_connecting false s0)) by (repeat split; assumption).
    destruct (G _ D Hr) as (A & T).
    unfold events, requests, accepted in *. rewrite T. sim.
    repeat split; auto. exists c, r. exact H10.
Qed.

Lemma failed_connect_is_final_witness :
  exists s,
    Reentrant.run closes_on_error (run_example [CallSend (PString (lit "early"))])
      (ConnectFail (BadStatus 502 (lit "Bad Gateway")) :: [CallClose None None])
    = Some s
    /\ readyState s = CLOSED
    /\ accepted s = []
    /\ events s
       = [ErrorEvent (Error (lit "Connection failed: 502 Bad Gateway"));
          CloseEvent 1000 [] true].
Proof.
  assert (Hb : Reentrant.run closes_on_error
                 (createHttpBridgeWebSocket (lit "ws://portal.example/chat") ProtocolAbsent)
                 [CallSend (PString (lit "early"))]
               = Some (run_example [CallSend (PString (lit "early"))]))
    by (vm_compute; reflexivity).
  assert (Hc : isClosed (run_example [CallSend (PString (lit "early"))]) = false)
    by (vm_compute; reflexivity).
  destruct (Reentrant.run closes_on_error (run_example [CallSend (PString (lit "early"))])
              (ConnectFail (BadStatus 502 (lit "Bad Gateway")) :: [CallClose None None]))
    as [s|] eqn:Hr; [|vm_compute in Hr; discriminate Hr].
  exists s. split; [reflexivity|].
  pose proof (failed_connect_is_final closes_on_error _ _ _ _ _ _ s Hb Hr) as T.
  rewrite Hc in T. destruct T as (A & _ & B & C).
  split; [exact A|]. split; [exact B|]. rewrite C. vm_compute. reflexivity.
Defined.

(** X3. Whatever the listeners call on the socket while events are delivered
    to them, the events of a socket come in the order of a session: the open
    event, then message events, then at most one ending, which is the close
    event, preceded by error events when the session failed; nothing follows
    the close event.  A socket that never opened emits the ending alone; and
    when [close] finalized it before the connect request succeeded, the close
    event is followed by the open event.  With listeners that call nothing,
    the ending has at most one error event, and the close event that follows
    it has code 1006 and is not clean. *)
Theorem events_follow_the_session_order L url protocols inputs s :
  Reentrant.run L (createHttpBridgeWebSocket url protocols) inputs = Some s ->
  event_order_with_listeners (events s) = true
  /\ ((forall t e, L t e = []) -> event_order (events s) = true).
Proof.
  intros Hr. split.
  - apply (ReentrantFacts.session_inv_order (ConnectRequest url (protocol_list protocols))).
    apply (ReentrantFacts.run_session L _ inputs (createHttpBridgeWebSocket url protocols));
      [|exact Hr].
    left. repeat split.
  - intros HL. rewrite (ReentrantFacts.run_observers L HL) in Hr.
    exact (run_event_order url protocols inputs s Hr).
Qed.

Lemma events_follow_the_session_order_witness :
  exists s,
    Reentrant.run closes_on_error example_socket
      [connected; PollOk (Some [text_item; binary_item]); PollFail (BadStatus 500 [])]
    = Some s
    /\ event_order_with_listeners (events s) = true.
Proof.
  destruct (Reentrant.run closes_on_error example_socket
              [connected; PollOk (Some [text_item; binary_item]);
               PollFail (BadStatus 500 [])]) as [s|] eqn:Hr;
    [|vm_compute in Hr; discriminate Hr].
  exists s. split; [reflexivity|].
  exact (proj1 (events_follow_the_session_order closes_on_error _ _ _ s Hr)).
Defined.

(** X4. Once the socket is finalized and the connect request has settled, no
    event is emitted any more and [readyState] does not change, whatever is
    called and whatever settles. *)
Theorem finalized_socket_is_inert s inputs s' :
  reachable s -> isClosed s = true -> connecting s = false ->
  run s inputs = Some s' ->
  events s' = events s /\ readyState s' = readyState s /\ isClosed s' = true.
Proof.
  intros Hr. destruct (reachable_invariants s Hr) as (_ & L & _). clear Hr.
  revert s L. induction inputs as [|i r IH]; intros s L Hc Hn Hrun; cbn [run] in Hrun.
  - injection Hrun as <-. auto.
  - destruct (step s i) as [s1|] eqn:Hs; [|discriminate].
    destruct (step_inert s i s1 L Hc Hn Hs) as (E1 & E2 & E3 & E4).
    destruct (IH s1 (step_life s i s1 L Hs) E3 E4 Hrun) as (F1 & F2 & F3).
    repeat split; congruence.
Qed.

Lemma finalized_socket_is_inert_witness :
  isClosed (run_example [connected; PollFail (BadStatus 500 [])]) = true
  /\ events (run_example [connected; PollFail (BadStatus 500 []);
                          CallSend (PString (lit "a")); CallClose None None;
                          SetBinaryType (lit "arraybuffer")])
     = events (run_example [connected; PollFail (BadStatus 500 [])])
  /\ readyState (run_example [connected; PollFail (BadStatus 500 []);
                              CallSend (PString (lit "a")); CallClose None None;
                              SetBinaryType (lit "arraybuffer")])
     = readyState (run_example [connected; PollFail (BadStatus 500 [])]).
Proof.
  assert (R : reachable (run_example [connected; PollFail (BadStatus 500 [])]))
    by (apply run_example_reachable; vm_compute; reflexivity).
  assert (Hc : isClosed (run_example [connected; PollFail (BadStatus 500 [])]) = true)
    by (vm_compute; reflexivity).
  assert (Hn : connecting (run_example [connected; PollFail (BadStatus 500 [])]) = false)
    by (vm_compute; reflexivity).
  assert (Hr : run (run_example [connected; PollFail (BadStatus 500 [])])
                 [CallSend (PString (lit "a")); CallClose None None;
                  SetBinaryType (lit "arraybuffer")]
               = Some (run_example [connected; PollFail (BadStatus 500 []);
                                    CallSend (PString (lit "a")); CallClose None None;
                                    SetBinaryType (lit "arraybuffer")]))
    by (vm_compute; reflexivity).
  split; [exact Hc|].
  destruct (finalized_socket_is_inert _ _ _ R Hc Hn Hr) as (A & B & _).
  split; assumption.
Defined.

(** X5. A finalized socket posts no request: neither a call nor the
    settlement of a request makes it post one.  The one turn that still does
    is the drain resuming from the read of a Blob, see X6. *)
Theorem no_request_after_finalization s i s' :
  isClosed s = true -> step s i = Some s' -> i <> BlobRead ->
  requests s' = requests s /\ isClosed s' = true.
Proof.
  intros Hc Hs Hi.
  assert (Hfold : forall l t, isClosed t = true ->
            requests (fold_left (fun st m => handleMessage m st) l t) = requests t
            /\ isClosed (fold_left (fun st m => handleMessage m st) l t) = true).
  { induction l as [|m l IH]; intros t Ht; cbn [fold_left]; [auto|].
    assert (E : requests (handleMessage m t) = requests t /\ isClosed (handleMessage m t) = true).
    { unfold handleMessage. trace_norm. ops. break_match; trace_norm; auto. }
    destruct E as [E1 E2]. destruct (IH _ E2) as [E3 E4]. split; congruence. }
  step_cases Hs; try congruence.
  9:{ unfold poll_result.
      destruct (Hfold (match messages with Some l => l | None => [] end) s Hc) as [E1 E2].
      revert E1 E2. generalize (fold_left (fun st m => handleMessage m st)
                 match messages with Some l => l | None => [] end s).
      intros t E1 E2. rewrite <- E1. clear - E2. trace_norm. ops. break_match; trace_norm; auto; congruence. }
  all: clear Hfold; trace_norm; ops; break_match; trace_norm; auto; fin.
Qed.

Lemma no_request_after_finalization_witness :
  isClosed (run_example [connected; CallSend (PString (lit "a"));
                         PollFail (BadStatus 500 [])]) = true
  /\ requests (run_example [connected; CallSend (PString (lit "a"));
                            PollFail (BadStatus 500 []); SendOk])
     = requests (run_example [connected; CallSend (PString (lit "a"));
                              PollFail (BadStatus 500 [])]).
Proof.
  assert (Hc : isClosed (run_example [connected; CallSend (PString (lit "a"));
                                      PollFail (BadStatus 500 [])]) = true)
    by (vm_compute; reflexivity).
  assert (Hs : step (run_example [connected; CallSend (PString (lit "a"));
                                  PollFail (BadStatus 500 [])]) SendOk
               = Some (run_example [connected; CallSend (PString (lit "a"));
                                    PollFail (BadStatus 500 []); SendOk]))
    by (vm_compute; reflexivity).
  assert (Hi : SendOk <> BlobRead) by discriminate.
  split; [exact Hc|].
  exact (proj1 (no_request_after_finalization _ _ _ Hc Hs Hi)).
Defined.

(** X6. The drain tests the closed flag at the head of its loop only: when
    the socket is finalized while the drain reads a Blob, the frame of the
    Blob is still posted once the read completes.  No event is emitted, and
    the queue and the buffered amount are as they were. *)
Theorem blob_frame_is_posted_after_finalization s bytes size :
  isClosed s = true -> drain s = DrainAwaitBlob bytes size ->
  exists s' data,
    step s BlobRead = Some s'
    /\ encodeBinary bytes = Some data
    /\ requests s' = requests s ++ [SendRequest (connId s) (BinaryFrame data)]
    /\ submitted s' = submitted s ++ [BinaryFrame data]
    /\ events s' = events s
    /\ isClosed s' = true
    /\ sendQueue s' = sendQueue s /\ bufferedAmount s' = bufferedAmount s.
Proof.
  intros Hc Hd.
  eexists. exists (btoa_units (fromCharCode bytes)).
  split; [cbn [step]; rewrite Hd; reflexivity|].
  split; [apply CodecFacts.encodeBinary_value|].
  unfold drain_binary. rewrite CodecFacts.encodeBinary_value.
  unfold drain_submit, fetch. trace_norm. repeat split; auto.
Qed.

Lemma blob_frame_is_posted_after_finalization_witness :
  isClosed (run_example [connected; CallSend (PBlob [x01; x02]); CallClose None None;
                         CloseSettled]) = true
  /\ exists s' data,
       step (run_example [connected; CallSend (PBlob [x01; x02]); CallClose None None;
                          CloseSettled]) BlobRead = Some s'
       /\ encodeBinary [x01; x02] = Some data
       /\ requests s'
          = requests (run_example [connected; CallSend (PBlob [x01; x02]);
                                   CallClose None None; CloseSettled])
            ++ [SendRequest (connId (run_example [connected; CallSend (PBlob [x01; x02]);
                                                  CallClose None None; CloseSettled]))
                  (BinaryFrame data)].
Proof.
  assert (Hc : isClosed (run_example [connected; CallSend (PBlob [x01; x02]);
                                      CallClose None None; CloseSettled]) = true)
    by (vm_compute; reflexivity).
  assert (Hd : drain (run_example [connected; CallSend (PBlob [x01; x02]);
                                   CallClose None None; CloseSettled])
               = DrainAwaitBlob [x01; x02] 2)
    by (vm_compute; reflexivity).
  split; [exact Hc|].
  destruct (blob_frame_is_posted_after_finalization _ _ _ Hc Hd)
    as (s' & data & A & B & C & _).
  exists s', data. repeat split; assumption.
Defined.

(** X7. A submission that fails is not retried: the frame stays at the head
    of the queue and its size in the buffered amount, the socket is
    finalized, the drain ends, and no frame of the queue is submitted any
    more. *)
Theorem failed_submission_is_not_retried s f s1 inputs s2 :
  step s (SendFail f) = Some s1 -> run s1 inputs = Some s2 ->
  sendQueue s1 = sendQueue s /\ bufferedAmount s1 = bufferedAmount s
  /\ isClosed s1 = true
  /\ submitted s2 = submitted s /\ drain s2 = DrainIdle /\ isSending s2 = false.
Proof.
  intros Hs Hrun.
  assert (H1 : sendQueue s1 = sendQueue s /\ bufferedAmount s1 = bufferedAmount s
               /\ isClosed s1 = true /\ submitted s1 = submitted s
               /\ drain s1 = DrainIdle /\ isSending s1 = false).
  { step_at Hs. trace_norm. ops. break_match; trace_norm; repeat split; auto; fin. }
  destruct H1 as (Q1 & Q2 & Q3 & Q4 & Q5 & Q6).
  assert (G : forall l t t', isClosed t = true -> drain t = DrainIdle -> isSending t = false ->
                run t l = Some t' ->
                submitted t' = submitted t /\ drain t' = DrainIdle /\ isSending t' = false).
  { assert (Hfold : forall l t,
              submitted (fold_left (fun st m => handleMessage m st) l t) = submitted t
              /\ drain (fold_left (fun st m => handleMessage m st) l t) = drain t
              /\ isSending (fold_left (fun st m => handleMessage m st) l t) = isSending t
              /\ (isClosed t = true ->
                  isClosed (fold_left (fun st m => handleMessage m st) l t) = true)).
    { intros l t. destruct (fold_handleMessage_same_queue l t) as (_ & A & B & _ & _ & C & D).
      auto. }
    induction l as [|i r IH]; intros t t' Hc Hd Hsd Hr; cbn [run] in Hr.
    - injection Hr as <-. auto.
    - destruct (step t i) as [t1|] eqn:Hst; [|discriminate].
      assert (K : submitted t1 = submitted t /\ drain t1 = DrainIdle
                  /\ isSending t1 = false /\ isClosed t1 = true).
      { clear IH Hr. step_cases Hst; try congruence.
        6:{ unfold poll_result.
            destruct (Hfold (match messages with Some l => l | None => [] end) t)
              as (A & B & C & D). specialize (D Hc).
            revert A B C D. generalize (fold_left (fun st m => handleMessage m st)
                 match messages with Some l => l | None => [] end t).
            intros u A B C D. rewrite <- A. rewrite Hd in B. rewrite Hsd in C.
            clear - B C D. trace_norm. ops. break_match; trace_norm; repeat split; auto; fin. }
        all: clear Hfold; trace_norm; ops; break_match; trace_norm; repeat split; auto; fin. }
      destruct K as (K1 & K2 & K3 & K4).
      destruct (IH t1 t' K4 K2 K3 Hr) as (F1 & F2 & F3). repeat split; congruence. }
  destruct (G inputs s1 s2 Q3 Q5 Q6 Hrun) as (F1 & F2 & F3).
  repeat split; congruence.
Qed.

Lemma failed_submission_is_not_retried_witness :
  sendQueue (run_example [connected; CallSend (PString (lit "a"));
                          CallSend (PString (lit "b")); SendFail (BadStatus 500 [])])
  = sendQueue (run_example [connected; CallSend (PString (lit "a"));
                            CallSend (PString (lit "b"))])
  /\ submitted (run_example [connected; CallSend (PString (lit "a"));
                             CallSend (PString (lit "b")); SendFail (BadStatus 500 []);
                             CallClose None None; PollOk None])
     = submitted (run_example [connected; CallSend (PString (lit "a"));
                               CallSend (PString (lit "b"))]).
Proof.
  assert (Hs : step (run_example [connected; CallSend (PString (lit "a"));
                                  CallSend (PString (lit "b"))])
                 (SendFail (BadStatus 500 []))
               = Some (run_example [connected; CallSend (PString (lit "a"));
                                    CallSend (PString (lit "b"));
                                    SendFail (BadStatus 500 [])]))
    by (vm_compute; reflexivity).
  assert (Hr : run (run_example [connected; CallSend (PString (lit "a"));
                                 CallSend (PString (lit "b")); SendFail (BadStatus 500 [])])
                 [CallClose None None; PollOk None]
               = Some (run_example [connected; CallSend (PString (lit "a"));
                                    CallSend (PString (lit "b"));
                                    SendFail (BadStatus 500 []);
                                    CallClose None None; PollOk None]))
    by (vm_compute; reflexivity).
  destruct (failed_submission_is_not_retried _ _ _ _ _ Hs Hr) as (A & _ & _ & B & _).
  split; [exact A | exact B].
Defined.

(** X8. Payloads sent in a row on an open socket whose drain is idle, each
    of a kind that needs no read (strings, buffers, views), are submitted one
    per acknowledgment, in the order of the calls; after as many
    acknowledgments as calls the queue is empty, the buffered amount is 0 and
    the drain is idle.  No event is emitted. *)
Theorem acknowledged_sends_empty_the_queue s l :
  reachable s -> readyState s = OPEN -> isClosed s = false -> isSending s = false ->
  Forall (fun d => immediate d = true) l ->
  exists s' fs,
    run s (map CallSend l ++ repeat SendOk (length l)) = Some s'
    /\ submitted s' = submitted s ++ fs
    /\ map Some fs = map frame_of l
    /\ sendQueue s' = [] /\ bufferedAmount s' = 0%Z /\ isSending s' = false
    /\ readyState s' = OPEN /\ isClosed s' = false /\ events s' = events s.
Proof.
  intros Hr Ho Hc Hs Himm.
  destruct (reachable_invariants s Hr) as (_ & _ & a & b & (I1 & I2 & I3 & I4 & _)).
  pose proof (I4 (proj1 I1 Hs) Hc) as Hq.
  rewrite Hq in I3. cbn [total_size] in I3.
  destruct l as [|d l].
  - exists s, []. cbn [map app repeat length run]. rewrite app_nil_r. repeat split; auto.
  - inversion_clear Himm as [|? ? Hd Hl].
    set (s0 := set_isSending true
                 (set_bufferedAmount (bufferedAmount s + calculateSize d)
                    (log (Push d (calculateSize d))
                       (set_sendQueue [(d, calculateSize d)] s)))).
    destruct (drain_loop_immediate s0 d (calculateSize d) [] eq_refl Hc Hd)
      as (f & Hf & Hloop & Hsub).
    set (s1 := drain_submit f (calculateSize d) s0) in *.
    assert (E1 : step s (CallSend d) = Some s1).
    { cbn [step]. unfold send, queueSend, flushQueue. rewrite Ho.
      cbn [ReadyState_eqb negb snd]. sim. rewrite Hs, Hc, Hq. cbn [app orb].
      now rewrite <- Hloop. }
    destruct (sends_wait_behind_the_drain l s1 Ho eq_refl)
      as (s2 & R2 & Q1 & Q2 & Q3 & Q4 & Q5 & Q6 & Q7 & Q8).
    assert (Hq2 : sendQueue s2
                  = (d, calculateSize d) :: map (fun x => (x, calculateSize x)) l)
      by (rewrite Q1; reflexivity).
    assert (Hsized : sized ((d, calculateSize d) :: map (fun x => (x, calculateSize x)) l)).
    { constructor; [reflexivity|]. clear. induction l; constructor; auto. }
    assert (Hb2 : bufferedAmount s2
                  = total_size ((d, calculateSize d) :: map (fun x => (x, calculateSize x)) l)).
    { rewrite Q2. unfold s1, s0, drain_submit, fetch. sim. rewrite I3.
      cbn [total_size]. rewrite (sum_sizes_queue _ (Forall_inv_tail Hsized)), map_map.
      cbn [fst]. rewrite map_id. lia. }
    assert (Himm2 : Forall (fun x => immediate (fst x) = true)
                      (map (fun x => (x, calculateSize x)) l)).
    { apply Forall_map. exact Hl. }
    destruct (acknowledgments_drain _ s2 d (calculateSize d) Hq2
                ltac:(rewrite Q3; reflexivity) ltac:(rewrite Q4; exact Hc)
                Himm2 Hsized Hb2)
      as (s3 & fs & R3 & S1 & S2 & S3 & S4 & S5 & S6 & S7 & S8 & S9).
    exists s3, (f :: fs).
    split.
    { cbn [map app run]. rewrite E1, run_app, R2.
      rewrite length_map in R3. exact R3. }
    split.
    { rewrite S1, Q7, Hsub. unfold s0, submitted. sim. rewrite flat_map_app.
      cbn [flat_map app]. rewrite app_nil_r, <- app_assoc. reflexivity. }
    split.
    { cbn [map]. rewrite Hf, S2. f_equal. f_equal.
      rewrite map_map. cbn [fst]. apply map_id. }
    repeat split; auto; try congruence.
    rewrite S9, Q8. unfold s1, s0, drain_submit, fetch, events. sim.
    rewrite !flat_map_app. cbn [flat_map app]. now rewrite !app_nil_r.
Qed.

Lemma acknowledged_sends_empty_the_queue_witness :
  exists s' fs,
    run (run_example [connected])
      (map CallSend [PString (lit "a"); PArrayBuffer [x01; x02]]
       ++ repeat SendOk (length [PString (lit "a"); PArrayBuffer [x01; x02]]))
    = Some s'
    /\ submitted s' = submitted (run_example [connected]) ++ fs
    /\ map Some fs = map frame_of [PString (lit "a"); PArrayBuffer [x01; x02]]
    /\ sendQueue s' = [] /\ bufferedAmount s' = 0%Z.
Proof.
  assert (R : reachable (run_example [connected]))
    by (apply run_example_reachable; vm_compute; reflexivity).
  assert (Ho : readyState (run_example [connected]) = OPEN) by (vm_compute; reflexivity).
  assert (Hc : isClosed (run_example [connected]) = false) by (vm_compute; reflexivity).
  assert (Hs : isSending (run_example [connected]) = false) by (vm_compute; reflexivity).
  assert (Ha : Forall (fun d => immediate d = true)
                 [PString (lit "a"); PArrayBuffer [x01; x02]])
    by (repeat constructor).
  destruct (acknowledged_sends_empty_the_queue _ _ R Ho Hc Hs Ha)
    as (s' & fs & A & B & C & D & E & _).
  exists s', fs. repeat split; assumption.
Defined.

(** X9. [close] does not stop the drain: while the socket is CLOSING and not
    yet finalized, an acknowledgment takes the head off the queue and the next
    frame is submitted. *)
Theorem drain_continues_while_closing s d size d' size' q :
  readyState s = CLOSING -> isClosed s = false ->
  drain s = DrainAwaitFetch size ->
  sendQueue s = (d, size) :: (d', size') :: q ->
  immediate d' = true ->
  exists s' f,
    step s SendOk = Some s'
    /\ frame_of d' = Some f
    /\ submitted s' = submitted s ++ [f]
    /\ sendQueue s' = (d', size') :: q
    /\ readyState s' = CLOSING /\ drain s' = DrainAwaitFetch size'.
Proof.
  intros Hr Hc Hd Hq Hi.
  set (b := (bufferedAmount s - size)%Z).
  set (s0 := set_bufferedAmount (if (b <? 0)%Z then 0%Z else b)
               (log Shift (set_sendQueue ((d', size') :: q) s))).
  destruct (drain_loop_immediate s0 d' size' q eq_refl Hc Hi) as (f & Hf & Hl & Hsub).
  exists (drain_submit f size' s0), f.
  split.
  { cbn [step]. rewrite Hd. unfold drain_acked. sim. rewrite Hq. cbn [tl].
    fold b. fold s0. now rewrite Hl. }
  split; [exact Hf|]. split.
  { rewrite Hsub. unfold s0, submitted. sim. rewrite flat_map_app.
    cbn [flat_map app]. now rewrite app_nil_r. }
  repeat split; auto.
Qed.

Lemma drain_continues_while_closing_witness :
  readyState (run_example [connected; CallSend (PString (lit "a"));
                           CallSend (PString (lit "b")); CallClose None None]) = CLOSING
  /\ exists s' f,
       step (run_example [connected; CallSend (PString (lit "a"));
                          CallSend (PString (lit "b")); CallClose None None]) SendOk
       = Some s'
       /\ frame_of (PString (lit "b")) = Some f
       /\ submitted s'
          = submitted (run_example [connected; CallSend (PString (lit "a"));
                                    CallSend (PString (lit "b")); CallClose None None])
            ++ [f].
Proof.
  assert (Hr : readyState (run_example [connected; CallSend (PString (lit "a"));
                                        CallSend (PString (lit "b")); CallClose None None])
               = CLOSING) by (vm_compute; reflexivity).
  assert (Hc : isClosed (run_example [connected; CallSend (PString (lit "a"));
                                      CallSend (PString (lit "b")); CallClose None None])
               = false) by (vm_compute; reflexivity).
  assert (Hd : drain (run_example [connected; CallSend (PString (lit "a"));
                                   CallSend (PString (lit "b")); CallClose None None])
               = DrainAwaitFetch 1) by (vm_compute; reflexivity).
  assert (Hq : sendQueue (run_example [connected; CallSend (PString (lit "a"));
                                       CallSend (PString (lit "b")); CallClose None None])
               = (PString (lit "a"), 1%Z) :: (PString (lit "b"), 1%Z) :: [])
    by (vm_compute; reflexivity).
  assert (Hi : immediate (PString (lit "b")) = true) by reflexivity.
  split; [exact Hr|].
  destruct (drain_continues_while_closing _ _ _ _ _ _ Hr Hc Hd Hq Hi)
    as (s' & f & A & B & C & _).
  exists s', f. repeat split; assumption.
Defined.

(** X10. At most one poll request is awaited at any time: the poll requests
    made are those that settled, and one more while the loop awaits. *)
Theorem one_poll_at_a_time url protocols inputs s :
  run (createHttpBridgeWebSocket url protocols) inputs = Some s ->
  poll_count s = poll_settled inputs + poll_pending s /\ poll_pending s <= 1.
Proof.
  intros Hr. split; [|unfold poll_pending; destruct (polling s); lia].
  assert (G : forall l t t', life t -> run t l = Some t' ->
              poll_count t' + poll_pending t = poll_count t + poll_settled l + poll_pending t').
  { induction l as [|i r IH]; intros t t' L Hrun; cbn [run poll_settled] in *.
    - injection Hrun as <-. lia.
    - destruct (step t i) as [t1|] eqn:Hs; [|discriminate].
      pose proof (step_poll_count t i t1 L Hs).
      pose proof (IH t1 t' (step_life t i t1 L Hs) Hrun). lia. }
  specialize (G inputs _ s (create_life url protocols) Hr).
  change (poll_count (createHttpBridgeWebSocket url protocols)) with 0 in G.
  change (poll_pending (createHttpBridgeWebSocket url protocols)) with 0 in G. lia.
Qed.

Lemma one_poll_at_a_time_witness :
  poll_count (run_example [connected; PollOk None; PollOk (Some [text_item])])
  = poll_settled [connected; PollOk None; PollOk (Some [text_item])]
    + poll_pending (run_example [connected; PollOk None; PollOk (Some [text_item])]).
Proof.
  assert (Hr : run (createHttpBridgeWebSocket (lit "ws://portal.example/chat") ProtocolAbsent)
                 [connected; PollOk None; PollOk (Some [text_item])]
               = Some (run_example [connected; PollOk None; PollOk (Some [text_item])]))
    by (apply run_example_eq; vm_compute; reflexivity).
  exact (proj1 (one_poll_at_a_time _ _ _ _ Hr)).
Defined.

(** X11. The connect request is the first request of a socket and the only
    one of its kind; every request after it, poll or send, is made on the
    connection whose id the connect response gave. *)
Theorem requests_carry_the_connection_id url protocols inputs s :
  run (createHttpBridgeWebSocket url protocols) inputs = Some s ->
  exists rest,
    requests s = ConnectRequest url (protocol_list protocols) :: rest
    /\ Forall (carries (connId s)) rest.
Proof.
  set (first := ConnectRequest url (protocol_list protocols)).
  assert (G : forall l t t',
            before_connection first t \/ on_connection first t ->
            run t l = Some t' ->
            before_connection first t' \/ on_connection first t').
  { induction l as [|i r IH]; intros t t' H Hr; cbn [run] in Hr.
    - now injection Hr as <-.
    - destruct (step t i) as [t1|] eqn:Hs; [|discriminate].
      apply (IH t1 t'); [|exact Hr].
      destruct H as [H | H].
      + eapply step_before_connection; eauto.
      + right. eapply step_on_connection; eauto. }
  intros Hr.
  assert (B0 : before_connection first (createHttpBridgeWebSocket url protocols)).
  { unfold before_connection. cbn. repeat split. discriminate. }
  destruct (G inputs _ s (or_introl B0) Hr) as [(_ & H2 & _) | (_ & H)].
  - exists []. split; [exact H2 | constructor].
  - exact H.
Qed.

Lemma requests_carry_the_connection_id_witness :
  exists rest,
    requests (run_example [connected; CallSend (PString (lit "a")); PollOk None;
                           CallClose None None])
    = ConnectRequest (lit "ws://portal.example/chat") (protocol_list ProtocolAbsent) :: rest
    /\ Forall (carries (connId (run_example [connected; CallSend (PString (lit "a"));
                                             PollOk None; CallClose None None]))) rest.
Proof.
  assert (Hr : run (createHttpBridgeWebSocket (lit "ws://portal.example/chat") ProtocolAbsent)
                 [connected; CallSend (PString (lit "a")); PollOk None; CallClose None None]
               = Some (run_example [connected; CallSend (PString (lit "a")); PollOk None;
                                    CallClose None None]))
    by (apply run_example_eq; vm_compute; reflexivity).
  exact (requests_carry_the_connection_id _ _ _ _ Hr).
Defined.





(** X14. An inbound item whose data holds a character that is neither of
    the radix-64 alphabet, nor padding, nor white space is dropped: the
    socket is as it was, with no event emitted. *)
Theorem malformed_data_is_dropped m s c :
  is_string (msg_type m) "close" = false ->
  In c (data_text m) ->
  b64_value c = None -> is_ascii_whitespace c = false -> c <> b64_pad ->
  handleMessage m s = s.
Proof.
  intros Ht Hin Hv Hw Hp. unfold handleMessage, decodeMessage, decodeBytes.
  rewrite Ht, (atob_stranger _ c Hin Hv Hw Hp).
  now destruct (negb (ReadyState_eqb (readyState s) OPEN)).
Qed.

Lemma malformed_data_is_dropped_witness :
  In 42%N (data_text malformed_item)
  /\ handleMessage malformed_item (run_example [connected]) = run_example [connected].
Proof.
  assert (Ht : is_string (msg_type malformed_item) "close" = false) by reflexivity.
  assert (Hin : In 42%N (data_text malformed_item)) by (right; left; reflexivity).
  assert (Hv : b64_value 42%N = None) by reflexivity.
  assert (Hw : is_ascii_whitespace 42%N = false) by reflexivity.
  assert (Hp : 42%N <> b64_pad) by discriminate.
  split; [exact Hin|].
  exact (malformed_data_is_dropped _ (run_example [connected]) _ Ht Hin Hv Hw Hp).
Defined.

(** X15. After [binaryType] is assigned, a binary item is delivered as an
    ArrayBuffer if the value assigned was "arraybuffer" and as a Blob for
    every other value; assigning the same value again changes nothing. *)
Theorem binaryType_selects_the_delivery value m s bytes :
  readyState s = OPEN ->
  is_string (msg_type m) "close" = false ->
  is_string (msg_messageType m) "text" = false ->
  decodeBytes (data_text m) = Some bytes ->
  events (handleMessage m (set_binaryType_property value s))
  = events s
    ++ [MessageEvent (if jsstring_eqb value (lit "arraybuffer")
                      then DataArrayBuffer bytes
                      else DataBlob bytes)]
  /\ set_binaryType_property value (set_binaryType_property value s)
     = set_binaryType_property value s.
Proof.
  intros Ho Hc Ht Hd. unfold set_binaryType_property.
  destruct (jsstring_eqb value (lit "arraybuffer")); split; try reflexivity.
  all: unfold handleMessage, decodeMessage, emit, events; sim;
    rewrite Ho, Hc, Hd, Ht; cbn [ReadyState_eqb negb]; sim;
    rewrite flat_map_app; reflexivity.
Qed.

Lemma binaryType_selects_the_delivery_witness :
  decodeBytes (data_text binary_item) = Some [x01; x02]
  /\ events (handleMessage binary_item
               (set_binaryType_property (lit "arraybuffer") (run_example [connected])))
     = events (run_example [connected])
       ++ [MessageEvent
             (if jsstring_eqb (lit "arraybuffer") (lit "arraybuffer")
              then DataArrayBuffer [x01; x02]
              else DataBlob [x01; x02])].
Proof.
  assert (Ho : readyState (run_example [connected]) = OPEN) by (vm_compute; reflexivity).
  assert (Hc : is_string (msg_type binary_item) "close" = false) by reflexivity.
  assert (Ht : is_string (msg_messageType binary_item) "text" = false) by reflexivity.
  assert (Hd : decodeBytes (data_text binary_item) = Some [x01; x02])
    by (vm_compute; reflexivity).
  split; [exact Hd|].
  exact (proj1 (binaryType_selects_the_delivery (lit "arraybuffer") _ _ _ Ho Hc Ht Hd)).
Defined.



(** *** The codec *)

(** X17. The size [calculateSize] gives a string of 16-bit code units is
    between one and three times its number of code units, and is that number
    when every unit is ASCII. *)
Theorem text_size_bounds text :
  Forall (fun c => (c < 65536)%N) text ->
  (Z.of_nat (length text) <= calculateSize (PString text) <= 3 * Z.of_nat (length text))%Z
  /\ (Forall (fun c => (c < 128)%N) text ->
      calculateSize (PString text) = Z.of_nat (length text)).
Proof.
  intros H. cbn [calculateSize]. fold (utf8_length text). split.
  - pose proof (utf8_length_bounds (length text) text (le_n _) H). lia.
  - intros Ha. now rewrite utf8_length_ascii.
Qed.

Lemma text_size_bounds_witness :
  (Z.of_nat (length (lit "hello")) <= calculateSize (PString (lit "hello"))
   <= 3 * Z.of_nat (length (lit "hello")))%Z
  /\ calculateSize (PString (lit "hello")) = Z.of_nat (length (lit "hello")).
Proof.
  assert (H1 : Forall (fun c => (c < 65536)%N) (lit "hello"))
    by (repeat constructor).
  assert (H2 : Forall (fun c => (c < 128)%N) (lit "hello"))
    by (repeat constructor).
  destruct (text_size_bounds _ H1) as (A & B).
  split; [exact A | exact (B H2)].
Defined.

(** X18. [encodeBinary] never fails, whatever the bytes; its result is that
    of [btoa] on them without chunking, four characters for every three
    bytes begun, each of the radix-64 alphabet or padding. *)
Theorem encodeBinary_output bytes :
  exists out,
    encodeBinary bytes = Some out
    /\ btoa (fromCharCode bytes) = Some out
    /\ length out = (4 * ((length bytes + 2) / 3))%nat
    /\ Forall radix64_char out.
Proof.
  exists (btoa_units (fromCharCode bytes)).
  split; [apply encodeBinary_value|].
  split; [apply btoa_accepts, fromCharCode_bounded|].
  split.
  - rewrite btoa_units_length. unfold fromCharCode. now rewrite length_map.
  - apply btoa_units_alphabet, fromCharCode_bounded.
Qed.

(** *** Event dispatch *)

Import Dispatch.

(** X19. [addEventListener] inserts into the set of its type: a function that
    is registered already keeps its place and is not stored again, a new one
    goes last; the other types, and the handler slots, are left alone.  Adding
    twice is adding once, and what is no function is ignored. *)
Theorem addEventListener_inserts_once type f r :
  registered type (addEventListener type (Function f) r)
  = (if set_has f (registered type r)
     then registered type r
     else registered type r ++ [f])
  /\ (forall type', type' <> type ->
        registered type' (addEventListener type (Function f) r) = registered type' r)
  /\ (forall type', get_handler type' (addEventListener type (Function f) r)
                    = get_handler type' r)
  /\ addEventListener type (Function f) (addEventListener type (Function f) r)
     = addEventListener type (Function f) r
  /\ addEventListener type NotFunction r = r.
Proof.
  assert (Hreg : registered type (addEventListener type (Function f) r)
                 = set_add f (registered type r)).
  { unfold registered, addEventListener. cbn [listeners].
    rewrite DispatchFacts.map_get_set_same.
    destruct (map_get type (listeners r)) eqn:G; [now rewrite G|].
    now rewrite DispatchFacts.map_get_set_same. }
  split; [exact Hreg|]. split; [|split; [|split]].
  - intros type' Hne. unfold registered, addEventListener. cbn [listeners].
    rewrite DispatchFacts.map_get_set_other by exact Hne.
    destruct (map_get type (listeners r)); [reflexivity|].
    now rewrite DispatchFacts.map_get_set_other by exact Hne.
  - reflexivity.
  - set (r1 := addEventListener type (Function f) r).
    assert (G : map_get type (listeners r1) = Some (set_add f (registered type r))).
    { unfold r1, addEventListener. cbn [listeners].
      rewrite DispatchFacts.map_get_set_same. f_equal. unfold registered.
      destruct (map_get type (listeners r)) eqn:G; [now rewrite G|].
      now rewrite DispatchFacts.map_get_set_same. }
    unfold addEventListener at 1. rewrite G. cbn beta iota zeta. rewrite G.
    assert (E : set_add f (set_add f (registered type r)) = set_add f (registered type r)).
    { unfold set_add at 1.
      replace (set_has f (set_add f (registered type r))) with true; [reflexivity|].
      symmetry. apply DispatchFacts.set_has_in. unfold set_add.
      destruct (set_has f (registered type r)) eqn:Hh.
      - now apply DispatchFacts.set_has_in.
      - apply in_or_app. right. now left. }
    rewrite E, (DispatchFacts.map_set_same_value _ _ _ G).
    now destruct r1.
  - reflexivity.
Qed.

Lemma addEventListener_inserts_once_witness :
  registered (lit "open")
    (addEventListener (lit "message") (Function 1)
       (addEventListener (lit "open") (Function 2) empty))
  = registered (lit "open") (addEventListener (lit "open") (Function 2) empty).
Proof.
  apply (proj1 (proj2 (addEventListener_inserts_once (lit "message") 1
                         (addEventListener (lit "open") (Function 2) empty)))).
  discriminate.
Defined.

(** X20. The registry the operations build has one entry per type and no
    empty set in it: a type whose last listener is removed has no entry left. *)
Theorem registry_stays_well_formed actions :
  well_formed (fold_left perform actions empty).
Proof.
  assert (Hadd : forall type v r, well_formed r -> well_formed (addEventListener type v r)).
  { intros type [f|] r (H1 & H2); [|split; assumption].
    unfold well_formed, addEventListener. cbn [listeners].
    destruct (map_get type (listeners r)) as [s|] eqn:G.
    - rewrite G. split.
      + now rewrite DispatchFacts.keys_map_set, G.
      + apply Forall_forall. intros kv Hkv.
        apply DispatchFacts.in_map_set in Hkv as [-> | Hkv].
        * cbn [snd]. split; [apply DispatchFacts.set_add_not_empty|].
          apply DispatchFacts.set_add_nodup.
          apply DispatchFacts.map_get_in in G.
          rewrite Forall_forall in H2. destruct (H2 _ G) as (_ & Hn). exact Hn.
        * rewrite Forall_forall in H2. auto.
    - rewrite DispatchFacts.map_get_set_same, DispatchFacts.map_set_twice. split.
      + rewrite DispatchFacts.keys_map_set, G.
        apply NoDup_app; [exact H1 | repeat constructor; intros [] |].
        intros k Hk [<- | []]. now apply DispatchFacts.map_get_none_keys in G.
      + apply Forall_forall. intros kv Hkv.
        apply DispatchFacts.in_map_set in Hkv as [-> | Hkv].
        * cbn [snd]. split; [discriminate | repeat constructor; intros []].
        * rewrite Forall_forall in H2. auto. }
  assert (Hrem : forall type v r, well_formed r -> well_formed (removeEventListener type v r)).
  { intros type v r (H1 & H2). unfold removeEventListener.
    destruct (map_get type (listeners r)) as [s|] eqn:G; [|split; assumption].
    pose proof (DispatchFacts.map_get_in _ _ _ G) as Hin.
    rewrite Forall_forall in H2. destruct (H2 _ Hin) as (_ & Hnd). cbn [snd] in Hnd.
    unfold well_formed. cbn [listeners].
    destruct (set_delete v s) as [|g s'] eqn:E.
    - split; [now apply DispatchFacts.keys_map_delete|].
      apply Forall_forall. intros kv Hkv. apply DispatchFacts.in_map_delete in Hkv. auto.
    - split; [now rewrite DispatchFacts.keys_map_set, G|].
      apply Forall_forall. intros kv Hkv.
      apply DispatchFacts.in_map_set in Hkv as [-> | Hkv]; [|auto].
      cbn [snd]. split; [discriminate|]. rewrite <- E.
      destruct v; [apply NoDup_filter|]; exact Hnd. }
  assert (Hset : forall type v r, well_formed r -> well_formed (set_handler type v r)).
  { intros type v r H. unfold set_handler. now destruct (handler_type type). }
  assert (G : forall l r, well_formed r -> well_formed (fold_left perform l r)).
  { induction l as [|a l IH]; intros r H; cbn [fold_left]; [exact H|].
    apply IH. destruct a; cbn [perform]; auto. }
  apply G. split; constructor.
Qed.

(** X21. In a registry that the operations built, [removeEventListener] takes
    the function out of the set of its type and leaves the other types alone; and
    removing a listener that was just added, and was not registered before,
    gives the registry back as it was. *)
Theorem removeEventListener_undoes_add type v r :
  well_formed r ->
  registered type (removeEventListener type v r) = set_delete v (registered type r)
  /\ (forall type', type' <> type ->
        registered type' (removeEventListener type v r) = registered type' r)
  /\ (forall f, set_has f (registered type r) = false ->
        removeEventListener type (Function f) (addEventListener type (Function f) r) = r).
Proof.
  intros (H1 & H2). split; [|split].
  - unfold registered, removeEventListener.
    destruct (map_get type (listeners r)) as [s|] eqn:G.
    + cbn [listeners]. destruct (set_delete v s) eqn:E.
      * now rewrite DispatchFacts.map_get_delete_same.
      * now rewrite DispatchFacts.map_get_set_same.
    + rewrite G. now destruct v.
  - intros type' Hne. unfold registered, removeEventListener.
    destruct (map_get type (listeners r)) as [s|] eqn:G; [|reflexivity].
    cbn [listeners]. destruct (set_delete v s).
    + now rewrite DispatchFacts.map_get_delete_other.
    + now rewrite DispatchFacts.map_get_set_other.
  - intros f Hf. unfold registered in Hf.
    unfold addEventListener, removeEventListener. cbn [listeners handlers].
    destruct (map_get type (listeners r)) as [s|] eqn:G.
    + rewrite G, DispatchFacts.map_get_set_same.
      unfold set_add. rewrite Hf.
      rewrite (DispatchFacts.set_delete_added f s Hf).
      pose proof (DispatchFacts.map_get_in _ _ _ G) as Hin.
      rewrite Forall_forall in H2. destruct (H2 _ Hin) as (Hne & _). cbn [snd] in Hne.
      destruct s as [|g s']; [congruence|].
      rewrite DispatchFacts.map_set_twice, (DispatchFacts.map_set_same_value _ _ _ G).
      now destruct r.
    + rewrite !DispatchFacts.map_get_set_same, DispatchFacts.map_set_twice.
      cbn [set_add set_has existsb app set_delete filter].
      rewrite Nat.eqb_refl. cbn [negb].
      rewrite (DispatchFacts.map_delete_set_new _ _ _ G).
      now destruct r.
Qed.

Lemma removeEventListener_undoes_add_witness :
  well_formed (addEventListener (lit "message") (Function 1) empty)
  /\ removeEventListener (lit "message") (Function 2)
       (addEventListener (lit "message") (Function 2)
          (addEventListener (lit "message") (Function 1) empty))
     = addEventListener (lit "message") (Function 1) empty.
Proof.
  assert (W : well_formed (addEventListener (lit "message") (Function 1) empty)).
  { split; cbn; repeat constructor; try discriminate; intros []. }
  split; [exact W|].
  apply (proj2 (proj2 (removeEventListener_undoes_add (lit "message") (Function 2) _ W))).
  reflexivity.
Defined.

(** X22. [emit] calls the listeners that were registered for the type of the
    event when it began, in the order of their registration, whatever they
    add to or remove from the registry meanwhile and whether or not they
    throw; then it calls the handler that is in the slot once the listeners
    have run.  Each function that throws leaves one console error and stops
    nothing.  With functions that leave the registry alone, the registry is
    unchanged and the handler is the one that was set. *)
Theorem emit_calls_the_listeners_it_found P e r :
  called (snd (emit P e (r, [])))
  = registered (ev_type e) r
    ++ match get_handler (ev_type e) (fst (deliver_to_listeners P e (r, []))) with
       | Some h => [h]
       | None => []
       end
  /\ console_errors (snd (emit P e (r, [])))
     = filter (fun f => throws (P f e)) (called (snd (emit P e (r, []))))
  /\ ((forall f, does (P f e) = []) ->
      fst (emit P e (r, [])) = r
      /\ fst (deliver_to_listeners P e (r, [])) = r).
Proof.
  assert (Hcall : forall st f,
            called (snd (call P e st f)) = called (snd st) ++ [f]
            /\ console_errors (snd (call P e st f))
               = console_errors (snd st) ++ filter (fun g => throws (P g e)) [f]).
  { intros st f. unfold call, called, console_errors. cbn [snd].
    rewrite !flat_map_app. cbn [flat_map filter].
    destruct (throws (P f e)); cbn [flat_map app]; auto. }
  assert (Hfold : forall l st,
            called (snd (fold_left (call P e) l st)) = called (snd st) ++ l
            /\ console_errors (snd (fold_left (call P e) l st))
               = console_errors (snd st) ++ filter (fun g => throws (P g e)) l).
  { induction l as [|f l IH]; intros st; cbn [fold_left].
    - cbn [filter]. now rewrite !app_nil_r.
    - destruct (IH (call P e st f)) as (A & B). destruct (Hcall st f) as (C & D).
      rewrite A, B, C, D, <- !app_assoc. cbn [filter app].
      destruct (throws (P f e)); auto. }
  destruct (Hfold (registered (ev_type e) r) (r, [])) as (A & B).
  cbn [snd called console_errors flat_map app] in A, B.
  split; [|split].
  - unfold emit. fold (deliver_to_listeners P e (r, [])) in A.
    destruct (get_handler _ _) as [h|].
    + destruct (Hcall (deliver_to_listeners P e (r, [])) h) as (C & _).
      rewrite C. unfold deliver_to_listeners at 1. cbn [fst]. now rewrite A.
    + unfold deliver_to_listeners at 1. cbn [fst]. rewrite A. now rewrite app_nil_r.
  - unfold emit.
    destruct (get_handler _ _) as [h|].
    + destruct (Hcall (deliver_to_listeners P e (r, [])) h) as (C & D).
      rewrite C, D. unfold deliver_to_listeners. cbn [fst].
      now rewrite A, B, filter_app.
    + unfold deliver_to_listeners. cbn [fst]. now rewrite A, B.
  - intros Hobs.
    assert (Hid : forall l st, fst (fold_left (call P e) l st) = fst st).
    { induction l as [|f l IH]; intros st; cbn [fold_left]; [reflexivity|].
      rewrite IH. unfold call. cbn [fst]. now rewrite Hobs. }
    assert (Hd : fst (deliver_to_listeners P e (r, [])) = r)
      by (unfold deliver_to_listeners; now rewrite Hid).
    split; [|exact Hd]. unfold emit.
    destruct (get_handler _ _); [|exact Hd].
    unfold call. cbn [fst]. now rewrite Hobs.
Qed.

(** Two listeners and a handler; the first listener throws. *)
Definition uneasy_listeners : Program :=
  fun f _ => {| does := []; throws := Nat.eqb f 1 |}.

Lemma emit_calls_the_listeners_it_found_witness :
  called (snd (emit uneasy_listeners {| ev_type := lit "open"; ev_id := 0 |}
                 (set_handler (lit "open") (Function 3)
                    (addEventListener (lit "open") (Function 2)
                       (addEventListener (lit "open") (Function 1) empty)), [])))
  = [1; 2; 3]
  /\ fst (emit uneasy_listeners {| ev_type := lit "open"; ev_id := 0 |}
            (set_handler (lit "open") (Function 3)
               (addEventListener (lit "open") (Function 2)
                  (addEventListener (lit "open") (Function 1) empty)), []))
     = set_handler (lit "open") (Function 3)
         (addEventListener (lit "open") (Function 2)
            (addEventListener (lit "open") (Function 1) empty)).
Proof.
  split; [vm_compute; reflexivity|].
  apply (proj2 (proj2 (emit_calls_the_listeners_it_found uneasy_listeners
                         {| ev_type := lit "open"; ev_id := 0 |} _))).
  reflexivity.
Defined.

(** X23. The handler slot of a type holds what was assigned last, and nothing
    when that was no function; assigning it touches no other slot and no
    listener. *)
Theorem handler_slot_keeps_the_last type v w r :
  handler_type type = true ->
  get_handler type (set_handler type v r)
  = match v with Function f => Some f | NotFunction => None end
  /\ set_handler type w (set_handler type v r) = set_handler type w r
  /\ (forall type', type' <> type ->
        get_handler type' (set_handler type v r) = get_handler type' r)
  /\ (forall type', registered type' (set_handler type v r) = registered type' r).
Proof.
  intros Ht. unfold set_handler, get_handler, registered. rewrite Ht.
  cbn [handlers listeners]. split; [|split; [|split]].
  - rewrite DispatchFacts.map_get_set_same. now destruct v.
  - now rewrite DispatchFacts.map_set_twice.
  - intros type' Hne. now rewrite DispatchFacts.map_get_set_other.
  - reflexivity.
Qed.

Lemma handler_slot_keeps_the_last_witness :
  handler_type (lit "close") = true
  /\ get_handler (lit "close")
       (set_handler (lit "close") NotFunction
          (set_handler (lit "close") (Function 4) empty)) = None.
Proof.
  split; [reflexivity|].
  apply (proj1 (handler_slot_keeps_the_last (lit "close") NotFunction NotFunction
                  (set_handler (lit "close") (Function 4) empty) eq_refl)).
Defined.

(** *** Routing *)

(** X24. An address of scheme ws: is routed to the bridge exactly when the
    origin of the page is the http: origin of the same host and port, and one
    of scheme wss: when it is the https: origin; an address that does not
    parse goes to the native socket. *)
Theorem bridge_is_for_the_pages_own_origin hostport currentOrigin url protocols :
  (Origin.WebSocket
     (Some {| Origin.url_protocol := lit "ws:";
              Origin.url_origin := lit "ws:" ++ hostport |})
     currentOrigin url protocols
   = Origin.Bridge (Socket.createHttpBridgeWebSocket url protocols)
   <-> currentOrigin = lit "http:" ++ hostport)
  /\ (Origin.WebSocket
        (Some {| Origin.url_protocol := lit "wss:";
                 Origin.url_origin := lit "wss:" ++ hostport |})
        currentOrigin url protocols
      = Origin.Bridge (Socket.createHttpBridgeWebSocket url protocols)
      <-> currentOrigin = lit "https:" ++ hostport)
  /\ Origin.WebSocket None currentOrigin url protocols = Origin.Native url protocols.
Proof.
  assert (G : forall b : bool,
            (if b then Origin.Bridge (Socket.createHttpBridgeWebSocket url protocols)
             else Origin.Native url protocols)
            = Origin.Bridge (Socket.createHttpBridgeWebSocket url protocols)
            <-> b = true).
  { intros [|]; split; auto; discriminate. }
  split; [|split; [|reflexivity]].
  - unfold Origin.WebSocket, Origin.isSameOrigin. cbn [Origin.url_protocol Origin.url_origin].
    replace (jsstring_eqb (lit "ws:") (lit "ws:")) with true by reflexivity.
    rewrite OriginFacts.replace_prefix, G, DispatchFacts.jsstring_eqb_eq. split; congruence.
  - unfold Origin.WebSocket, Origin.isSameOrigin. cbn [Origin.url_protocol Origin.url_origin].
    replace (jsstring_eqb (lit "wss:") (lit "ws:")) with false by reflexivity.
    replace (jsstring_eqb (lit "wss:") (lit "wss:")) with true by reflexivity.
    rewrite OriginFacts.replace_prefix, G, DispatchFacts.jsstring_eqb_eq. split; congruence.
Qed.

Lemma bridge_is_for_the_pages_own_origin_witness :
  Origin.WebSocket
    (Some {| Origin.url_protocol := lit "ws:";
             Origin.url_origin := lit "ws:" ++ lit "//portal.example" |})
    (lit "http:" ++ lit "//portal.example") (lit "ws://portal.example/chat")
    Socket.ProtocolAbsent
  = Origin.Bridge
      (Socket.createHttpBridgeWebSocket (lit "ws://portal.example/chat")
         Socket.ProtocolAbsent).
Proof.
  apply (proj1 (bridge_is_for_the_pages_own_origin (lit "//portal.example")
                  (lit "http:" ++ lit "//portal.example") (lit "ws://portal.example/chat")
                  Socket.ProtocolAbsent)).
  reflexivity.
Defined.
